(** * Pipeline submission engine (cluster/submit_pipeline.py)

    A shallow embedding of the pipeline execution engine: name resolution of
    oracle nodes, the staleness resolver, the target closure resolver, the
    run-set derivation, the Kahn-style batch scheduler and the submission
    driver; of what the engine starts from: the loading of the registry and
    of the dependency graph, the run group identifier, the parsing of time
    limits and the resource totals; of the whole run, from the check of the
    oracle and the questions about the secrets to the last submission; and
    of the merge of lock files (cluster/safe_dvc_merger.py); followed by the
    properties established about them.

    Conventions.
    - A Python [str] is a [string]; the characters that matter to the code
      (colon, at-sign, underscore, quotes, white space, digits) are ASCII.
    - A Python [dict] is an association list in insertion order; the keys of
      a dict are pairwise distinct, which is stated as [NoDup d.*1] where a
      property depends on it.  [self.submitted_jobs] and the local
      [in_degree], which are only read by key, are finite maps.
    - A Python [set] of job keys is a [gset string]; iterating over it goes
      through [elements].  Where the result depends on the order of the
      iteration (a sum of floats), the sequence is the argument.
    - A Python [float] is a binary64 number of the standard library's
      specification of IEEE 754 arithmetic ([Float]); an [int] is a [Z].
    - What is written to the log is not represented, except the
      announcement of a job in preview mode.
    - Recursion and [while] loops carry a fuel argument; for each of them a
      lemma gives an amount of fuel that is always enough. *)

From Stdlib Require Import Ascii ZArith SpecFloat.
From stdpp Require Import base gmap strings list fin_maps fin_sets relations sorting pretty.

(* [set_solver] clears hypotheses by names that are not always there. *)
#[local] Set Warnings "-clear-no-such-hyp".

Local Open Scope string_scope.
Local Open Scope list_scope.
Local Open Scope Z_scope.
Local Open Scope nat_scope.
Local Open Scope stdpp_scope.

(** ** Python string primitives *)

Module Py.

(** [s.split(sep)] for a one-character separator: the pieces between the
    occurrences of [sep]; always at least one piece. *)
Fixpoint split (sep : ascii) (s : string) : list string :=
  match s with
  | EmptyString => [EmptyString]
  | String c s' =>
      if decide (c = sep) then EmptyString :: split sep s'
      else match split sep s' with
           | [] => [String c EmptyString]
           | p :: ps => String c p :: ps
           end
  end.

(** [c in s] for a one-character [c]. *)
Fixpoint has_char (c : ascii) (s : string) : bool :=
  match s with
  | EmptyString => false
  | String c' s' => if decide (c' = c) then true else has_char c s'
  end.

(** [s.replace(a, b)] for one-character [a] and [b]. *)
Fixpoint replace (a b : ascii) (s : string) : string :=
  match s with
  | EmptyString => EmptyString
  | String c s' => String (if decide (c = a) then b else c) (replace a b s')
  end.

(** [s.startswith(p)]. *)
Fixpoint startswith (p s : string) : bool :=
  match p, s with
  | EmptyString, _ => true
  | String _ _, EmptyString => false
  | String a p', String b s' => if decide (a = b) then startswith p' s' else false
  end.

(** [p in s] for strings: [p] occurs as a contiguous substring. *)
Fixpoint contains (p s : string) : bool :=
  startswith p s ||
  match s with
  | EmptyString => false
  | String _ s' => contains p s'
  end.

(** [s.endswith(p)]. *)
Definition endswith (p s : string) : bool :=
  startswith (String.rev p) (String.rev s).

(** White space as [str.strip()] sees it on ASCII characters. *)
Definition is_space (c : ascii) : bool :=
  match c with
  | "009" | "010" | "011" | "012" | "013"
  | "028" | "029" | "030" | "031" | " " => true
  | _ => false
  end%char.

Fixpoint lstrip (drop : ascii → bool) (s : string) : string :=
  match s with
  | EmptyString => EmptyString
  | String c s' => if drop c then lstrip drop s' else s
  end.

(** [s.strip()] and [s.strip(chars)], by the predicate of dropped characters. *)
Definition strip (drop : ascii → bool) (s : string) : string :=
  String.rev (lstrip drop (String.rev (lstrip drop s))).

(** [sep.join(parts)]. *)
Fixpoint join (sep : string) (parts : list string) : string :=
  match parts with
  | [] => EmptyString
  | [p] => p
  | p :: ps => p +:+ sep +:+ join sep ps
  end.

(** [d.get(k)] on a dict kept as an association list. *)
Fixpoint get {V} (d : list (string * V)) (k : string) : option V :=
  match d with
  | [] => None
  | (k', v) :: d' => if decide (k' = k) then Some v else get d' k
  end.

(** [d.get(k, [])]. *)
Definition get_list {V} (d : list (string * list V)) (k : string) : list V :=
  default [] (get d k).

End Py.

(** ** Data model *)

(** [JobConfig]: the resource request of one job. *)
Record JobConfig := {
  stage : string;
  step : string;
  gpus : Z;
  time_limit : string;
  memory : string;
  cpus : Z;
  partition : string;
  nodes : Z;
  ntasks : Z;
  ntasks_per_node : Z;
}.

(** The state of a [PipelineSubmitter] that the engine reads and writes:
    [self.dry_run], [self.job_configs], [self.dependencies] and
    [self.submitted_jobs]. *)
Record Submitter := {
  dry_run : bool;
  job_configs : list (string * JobConfig);
  dependencies : list (string * list string);
  submitted_jobs : gmap string string;
}.

(** [self.job_configs.keys()], in insertion order. *)
Definition job_keys (self : Submitter) : list string := (job_configs self).*1.

(** Exceptions that the engine raises or lets through. *)
Inductive exn :=
  | ValueError
  | RuntimeError
  | KeyError
  | AttributeError
  | CalledProcessError
  | OverflowError
  | FileNotFoundError
  | KeyboardInterrupt
  | SystemExit.

Global Instance exn_eq_dec : EqDecision exn.
Proof. solve_decision. Defined.

(** What [except Exception] catches. *)
Definition is_Exception (e : exn) : bool :=
  match e with
  | KeyboardInterrupt | SystemExit => false
  | _ => true
  end.

(** Outcomes of the engine's fallible operations. *)
Inductive result (A : Type) : Type :=
  | Ok (a : A)
  | Raise (e : exn)
  | OutOfFuel.
Arguments Ok {A} a.
Arguments Raise {A} e.
Arguments OutOfFuel {A}.

Global Instance result_ret : MRet result := λ A a, Ok a.
Global Instance result_bind : MBind result := λ A B k r,
  match r with
  | Ok a => k a
  | Raise e => Raise e
  | OutOfFuel => OutOfFuel
  end.

(** [stage, step = job_key.split(":")]: fails with [ValueError] unless the
    key has exactly one colon. *)
Definition split_job_key (job_key : string) : result (string * string) :=
  match Py.split ":" job_key with
  | [stage; step] => Ok (stage, step)
  | _ => Raise ValueError
  end.

(** A loop over job keys that unpacks each key into stage and step and keeps
    the keys passing [test]. *)
Fixpoint keys_where (test : string → string → bool) (keys : list string)
    : result (list string) :=
  match keys with
  | [] => Ok []
  | job_key :: keys' =>
      parts ← split_job_key job_key;
      rest ← keys_where test keys';
      Ok (if test parts.1 parts.2 then job_key :: rest else rest)
  end.

(** The verdict of the change-detection oracle for one job. *)
Inductive Verdict := Cached | NeedsRun.

Global Instance Verdict_eq_dec : EqDecision Verdict.
Proof. solve_decision. Defined.

(** ** Name resolution of oracle nodes *)

Section Resolution.
Variable self : Submitter.

(** Removal of duplicates that keeps the first occurrence. *)
Fixpoint unique_matches (seen : gset string) (matches : list string) : list string :=
  match matches with
  | [] => []
  | m :: ms =>
      if decide (m ∈ seen) then unique_matches seen ms
      else m :: unique_matches ({[m]} ∪ seen) ms
  end.

Definition is_quote (c : ascii) : bool :=
  bool_decide (c = "034"%char) || bool_decide (c = "'"%char).

(** [_find_matching_jobs(dvc_node)]: the resolver of the graph builder. *)
Definition _find_matching_jobs (dvc_node : string) : result (list string) :=
  let cleaned := Py.strip is_quote (Py.strip Py.is_space dvc_node) in
  if decide (cleaned ∈ job_keys self) then Ok [cleaned]
  else
    let converted := Py.replace "@" ":" cleaned in
    if Py.has_char "@" cleaned && bool_decide (converted ∈ job_keys self)
    then Ok [converted]
    else
      let matches :=
        if Py.has_char "_" cleaned && negb (Py.has_char ":" cleaned)
        then filter (λ job_key, Py.replace ":" "_" job_key = cleaned) (job_keys self)
        else [] in
      stage_matches ←
        (if negb (Py.has_char "@" cleaned) && negb (Py.has_char ":" cleaned)
         then keys_where (λ stage _, bool_decide (stage = cleaned)) (job_keys self)
         else Ok []);
      match stage_matches with
      | _ :: _ => Ok stage_matches
      | [] =>
          partial ← keys_where (λ stage step,
                       bool_decide (cleaned = stage)
                       || bool_decide (cleaned = step)
                       || bool_decide (cleaned = stage +:+ "_" +:+ step)
                       || Py.endswith step cleaned
                       || Py.contains step cleaned) (job_keys self);
          Ok (unique_matches ∅ (matches ++ partial))
      end.

(** [_dvc_stage_to_job_keys(dvc_stage)]: the resolver of the status parser. *)
Definition _dvc_stage_to_job_keys (dvc_stage : string) : result (list string) :=
  if Py.has_char "@" dvc_stage
  then
    let job_key := Py.replace "@" ":" dvc_stage in
    Ok (if decide (job_key ∈ job_keys self) then [job_key] else [])
  else
    keys_where (λ stage step,
      bool_decide (dvc_stage = stage) || bool_decide (dvc_stage = step))
      (job_keys self).

End Resolution.

(** *** Vocabulary for the properties of name resolution *)

(** Every key of the registry is a stage and a step joined by one colon. *)
Definition wf_registry (self : Submitter) : Prop :=
  ∀ job_key, job_key ∈ job_keys self →
    ∃ stage step, split_job_key job_key = Ok (stage, step).

(** [name] is the stage of some registered job. *)
Definition is_stage (self : Submitter) (name : string) : Prop :=
  ∃ job_key step, job_key ∈ job_keys self ∧ split_job_key job_key = Ok (name, step).

(** [resolver] maps [name] to exactly the registered jobs of stage [name]. *)
Definition resolves_to_stage (resolver : Submitter → string → result (list string))
    (self : Submitter) (name : string) : Prop :=
  ∃ l, resolver self name = Ok l
    ∧ ∀ job_key, job_key ∈ l ↔
        job_key ∈ job_keys self ∧ ∃ step, split_job_key job_key = Ok (name, step).

(** [resolver] maps [name] to exactly the registered jobs whose stage or
    step is [name]. *)
Definition resolves_to_stage_or_step (resolver : Submitter → string → result (list string))
    (self : Submitter) (name : string) : Prop :=
  ∃ l, resolver self name = Ok l
    ∧ ∀ job_key, job_key ∈ l ↔
        job_key ∈ job_keys self
        ∧ ∃ stage step, split_job_key job_key = Ok (stage, step)
                        ∧ (stage = name ∨ step = name).

(** A job configuration with the defaults of [JobConfig]. *)
Definition default_config (stage step : string) : JobConfig :=
  {| stage := stage; step := step; gpus := 1; time_limit := "00:30:00";
     memory := "48g"; cpus := 8; partition := "long"; nodes := 1; ntasks := 1;
     ntasks_per_node := 1 |}.

(** A submitter with the given jobs (stage, step) and dependency mapping. *)
Definition submitter_of (jobs : list (string * string))
    (deps : list (string * list string)) : Submitter :=
  {| dry_run := false;
     job_configs :=
       (λ job, (job.1 +:+ ":" +:+ job.2, default_config job.1 job.2)) <$> jobs;
     dependencies := deps;
     submitted_jobs := ∅ |}.

(** ** Batch scheduler: [get_execution_order] *)

Section Scheduler.
Variable deps_of : list (string * list string).
Variable all_jobs : gset string.

(** [in_degree = {job: 0 for job in all_jobs}] and the first loop, which
    stores at each key of [self.dependencies] that is in [all_jobs] the
    number of its dependencies that are in [all_jobs]. *)
Definition in_degree_entry (in_degree : gmap string Z)
    (item : string * list string) : gmap string Z :=
  if decide (item.1 ∈ all_jobs)
  then <[item.1 := Z.of_nat (length (filter (λ dep, dep ∈ all_jobs) item.2))]> in_degree
  else in_degree.

Definition initial_in_degree : gmap string Z :=
  foldl in_degree_entry (gset_to_gmap 0%Z all_jobs) deps_of.

(** The body of the innermost loop: one item of [self.dependencies] seen
    while [completed_job] is being removed. *)
Definition on_completed (completed_job : string)
    (st : gmap string Z * list string) (item : string * list string)
    : gmap string Z * list string :=
  if decide (item.1 ∈ all_jobs ∧ completed_job ∈ item.2)
  then
    let in_degree := <[item.1 := (st.1 !!! item.1 - 1)%Z]> st.1 in
    if decide (in_degree !!! item.1 = 0%Z)
    then (in_degree, st.2 ++ [item.1])
    else (in_degree, st.2)
  else st.

Definition complete_job (st : gmap string Z * list string)
    (completed_job : string) : gmap string Z * list string :=
  foldl (on_completed completed_job) st deps_of.

(** One round of the [while] loop after the queue was copied to
    [current_batch] and cleared. *)
Definition process_batch (in_degree : gmap string Z)
    (current_batch : list string) : gmap string Z * list string :=
  foldl complete_job (in_degree, []) current_batch.

(** [while queue: ...], with [execution_order] as accumulator. *)
Fixpoint schedule_loop (fuel : nat) (in_degree : gmap string Z)
    (queue : list string) (execution_order : list (list string))
    : option (list (list string)) :=
  match queue with
  | [] => Some execution_order
  | _ :: _ =>
      match fuel with
      | O => None
      | S fuel' =>
          let st := process_batch in_degree queue in
          schedule_loop fuel' st.1 st.2 (execution_order ++ [queue])
      end
  end.

Definition initial_queue (in_degree : gmap string Z) : list string :=
  filter (λ job, in_degree !!! job = 0%Z) (elements all_jobs).

Definition execution_order_fuel (fuel : nat) : option (list (list string)) :=
  schedule_loop fuel initial_in_degree (initial_queue initial_in_degree) [].

(** *** Vocabulary for the scheduler's properties *)

(** The dependencies of [job] that are in the run set. *)
Definition valid_deps (job : string) : list string :=
  filter (λ dep, dep ∈ all_jobs) (Py.get_list deps_of job).

(** [job] depends on [dep], both in the run set. *)
Definition dep_edge (job dep : string) : Prop :=
  job ∈ all_jobs ∧ dep ∈ valid_deps job.

(** No job of the run set reaches itself along dependency edges that stay
    inside the run set. *)
Definition acyclic : Prop := ∀ job, ¬ tc dep_edge job job.

(** Jobs that were ever put on the queue: pairwise distinct members of the
    run set whose counter is not positive any more. *)
Definition seen_inv (in_degree : gmap string Z) (seen : list string) : Prop :=
  NoDup seen ∧ ∀ j, j ∈ seen → j ∈ all_jobs ∧ (in_degree !!! j ≤ 0)%Z.

(** How many of the jobs in [done] are dependencies of [job]. *)
Definition completed_count (job : string) (done : list string) : nat :=
  length (filter (λ c, c ∈ Py.get_list deps_of job) done).

(** The counter of a job is the number of its in-run dependencies minus
    those already completed, and a job whose counter is zero was queued. *)
Definition counter_inv (in_degree : gmap string Z) (done seen : list string) : Prop :=
  (∀ j, j ∈ all_jobs →
     in_degree !!! j
     = (Z.of_nat (length (valid_deps j)) - Z.of_nat (completed_count j done))%Z)
  ∧ (∀ j, j ∈ all_jobs → in_degree !!! j = 0%Z → j ∈ seen).

(** Every in-run dependency of [job] is among [done]. *)
Definition deps_done (done : list string) (job : string) : Prop :=
  ∀ d, d ∈ valid_deps job → d ∈ done.

(** Every job of a batch has its in-run dependencies in the batches before. *)
Definition batches_sound (order : list (list string)) : Prop :=
  ∀ i b j, order !! i = Some b → j ∈ b → deps_done (concat (take i order)) j.

End Scheduler.

(** A dependency mapping as [_parse_dot_output] builds it: a dict (distinct
    keys) whose values list each dependency once. *)
Definition wf_dependencies (deps_of : list (string * list string)) : Prop :=
  NoDup deps_of.*1 ∧ Forall (λ item, NoDup item.2) deps_of.

(** [get_execution_order(jobs_to_include)]: [None] selects every job of the
    registry. One round per job and one more always suffice (see
    [schedule_loop_enough_fuel]). *)
Definition run_set_of (self : Submitter) (jobs_to_include : option (gset string))
    : gset string :=
  match jobs_to_include with
  | None => list_to_set (job_keys self)
  | Some jobs => jobs
  end.

Definition get_execution_order_fuel (fuel : nat) (self : Submitter)
    (jobs_to_include : option (gset string)) : option (list (list string)) :=
  execution_order_fuel (dependencies self) (run_set_of self jobs_to_include) fuel.

Definition get_execution_order (self : Submitter)
    (jobs_to_include : option (gset string)) : option (list (list string)) :=
  get_execution_order_fuel (S (size (run_set_of self jobs_to_include))) self jobs_to_include.

(** The state between two jobs of a batch: [done] were removed, [pending]
    are still to be removed, [queue] is the next batch under construction. *)
Definition round_inv (deps_of : list (string * list string)) (all_jobs : gset string)
    (in_degree : gmap string Z) (done pending queue : list string) : Prop :=
  seen_inv all_jobs in_degree (done ++ pending ++ queue)
  ∧ counter_inv deps_of all_jobs in_degree done (done ++ pending ++ queue)
  ∧ ∀ j, j ∈ queue → deps_done deps_of all_jobs (done ++ pending) j.

Definition loop_inv (deps_of : list (string * list string)) (all_jobs : gset string)
    (in_degree : gmap string Z) (queue : list string) (order : list (list string)) : Prop :=
  round_inv deps_of all_jobs in_degree (concat order) queue []
  ∧ (∀ j, j ∈ queue → deps_done deps_of all_jobs (concat order) j)
  ∧ batches_sound deps_of all_jobs order.

(** ** Staleness resolver *)

(** What [json.loads] makes of a text: a decoding error, an object with its
    keys, or some other JSON value. *)
Inductive json_loaded :=
  | JSONDecodeError
  | JSONObject (keys : list string)
  | JSONOther.

(** How the call of the oracle's status query ended. *)
Inductive status_run :=
  | DvcNotFound
  | DvcInterrupted
  | DvcExited (returncode : Z) (json_content : string).

(** [re.finditer] for the two patterns of the fallback parser.  Both have the
    shape: a quote, a non-empty run of characters other than the quote
    (the group), a quote, a colon; [body_ok] is the condition on the group.
    Matches do not overlap: after a match the scan resumes behind it. *)
Module Fallback.

(** The longest prefix without a quote, and what follows it. *)
Fixpoint span_body (s : string) : string * string :=
  match s with
  | EmptyString => (EmptyString, EmptyString)
  | String c s' =>
      if decide (c = "034"%char) then (EmptyString, s)
      else let r := span_body s' in (String c r.1, r.2)
  end.

(** The group matched at the start of [s], if the pattern matches there. *)
Definition match_here (body_ok : string → bool) (s : string) : option string :=
  match s with
  | String c s' =>
      if decide (c = "034"%char) then
        let r := span_body s' in
        if body_ok r.1 && Py.startswith (String "034" (String ":" EmptyString)) r.2
        then Some r.1 else None
      else None
  | EmptyString => None
  end.

(** [skip] characters of the last match are still to be passed over. *)
Fixpoint scan (body_ok : string → bool) (skip : nat) (s : string) : list string :=
  match s with
  | EmptyString => []
  | String _ s' =>
      match skip with
      | S n => scan body_ok n s'
      | O =>
          match match_here body_ok s with
          | Some g => g :: scan body_ok (String.length g + 2) s'
          | None => scan body_ok O s'
          end
      end
  end.

Definition non_empty (s : string) : bool :=
  match s with EmptyString => false | _ => true end.

(** An at-sign followed by at least one more character. *)
Fixpoint at_then_more (s : string) : bool :=
  match s with
  | EmptyString => false
  | String c s' => (bool_decide (c = "@"%char) && non_empty s') || at_then_more s'
  end.

(** The group has an at-sign with something before and something after. *)
Definition stage_at_step (s : string) : bool :=
  match s with
  | EmptyString => false
  | String _ s' => at_then_more s'
  end.

(** The names found by the two patterns, in the order of the code. *)
Definition changed_stages (status_output : string) : list string :=
  scan stage_at_step O status_output ++ scan non_empty O status_output.

End Fallback.

Section Staleness.
Variable json_loads : string → json_loaded.
Variable self : Submitter.

(** The union of the job keys that the changed oracle nodes resolve to. *)
Fixpoint changed_job_keys (changed_stages : list string) : result (gset string) :=
  match changed_stages with
  | [] => Ok ∅
  | dvc_stage :: rest =>
      job_keys ← _dvc_stage_to_job_keys self dvc_stage;
      more ← changed_job_keys rest;
      Ok (list_to_set job_keys ∪ more)
  end.

(** "Mark all jobs": a verdict for every key of the registry. *)
Definition mark_all_jobs (changed : gset string) : list (string * Verdict) :=
  (λ job_key, (job_key, if decide (job_key ∈ changed) then NeedsRun else Cached))
    <$> job_keys self.

(** [_fallback_parse_dvc_output(status_output)]. *)
Definition _fallback_parse_dvc_output (status_output : string)
    : result (list (string * Verdict)) :=
  changed ← changed_job_keys (Fallback.changed_stages status_output);
  Ok (mark_all_jobs changed).

(** The text from the first line that, stripped, starts with a brace. *)
Fixpoint from_json_start (lines : list string) : option (list string) :=
  match lines with
  | [] => None
  | line :: rest =>
      if Py.startswith "{" (Py.strip Py.is_space line) then Some lines
      else from_json_start rest
  end.

(** The part of the output handed to [json.loads]. *)
Definition json_text_of (status_output : string) : string :=
  match from_json_start (Py.split "010" status_output) with
  | Some json_lines => Py.join (String "010" EmptyString) json_lines
  | None => status_output
  end.

(** [_parse_dvc_status_json(status_output)]. *)
Definition _parse_dvc_status_json (status_output : string)
    : result (list (string * Verdict)) :=
  match json_loads (json_text_of status_output) with
  | JSONDecodeError => _fallback_parse_dvc_output status_output
  | JSONOther => Raise AttributeError
  | JSONObject keys =>
      changed ← changed_job_keys keys;
      Ok (mark_all_jobs changed)
  end.

(** [check_job_status()], given how the oracle's status query ended. *)
Definition check_job_status (run : status_run) : result (list (string * Verdict)) :=
  let assume_all_need_run := Ok ((λ job_key, (job_key, NeedsRun)) <$> job_keys self) in
  match run with
  | DvcNotFound => Raise RuntimeError
  | DvcInterrupted => Raise KeyboardInterrupt
  | DvcExited returncode json_content =>
      if decide (returncode ≠ 0%Z) then assume_all_need_run
      else if decide (Py.strip Py.is_space json_content = EmptyString)
      then Ok ((λ job_key, (job_key, Cached)) <$> job_keys self)
      else
        match _parse_dvc_status_json json_content with
        | Raise e => if is_Exception e then assume_all_need_run else Raise e
        | r => r
        end
  end.

End Staleness.

(** ** Target closure resolver *)

Section Target.
(** [fnmatch.fnmatch(name, pattern)] and [re.compile(pattern)] of the
    Python library: the latter gives [None] for [re.error] and otherwise
    the predicate [regex.search(name)]. *)
Variable fnmatch : string → string → bool.
Variable re_compile : string → option (string → bool).
Variable self : Submitter.

Definition any_char_in (chars : list ascii) (s : string) : bool :=
  existsb (λ c, Py.has_char c s) chars.

(** [matching_jobs.sort()]. *)
Definition sort_keys (keys : list string) : list string :=
  merge_sort String.le keys.

(** [_find_target_jobs_by_pattern(pattern)]. *)
Definition _find_target_jobs_by_pattern (pattern : string) : result (list string) :=
  if decide (pattern ∈ job_keys self) then Ok [pattern]
  else
    let has_wildcards := any_char_in ["*"; "?"; "["; "]"]%char pattern in
    let has_regex := any_char_in ["^"; "$"; "("; ")"; "|"; "+"; "{"; "}"]%char pattern in
    if has_wildcards
    then Ok (sort_keys (filter (λ job_key, fnmatch job_key pattern) (job_keys self)))
    else if has_regex
    then
      match re_compile pattern with
      | None => Raise ValueError
      | Some search => Ok (sort_keys (filter (λ job_key, search job_key) (job_keys self)))
      end
    else
      stage_matches ← keys_where (λ stage _, bool_decide (stage = pattern)) (job_keys self);
      match stage_matches with
      | [] => Ok (sort_keys (filter (λ job_key, Py.contains pattern job_key) (job_keys self)))
      | _ :: _ => Ok (sort_keys stage_matches)
      end.

(** The local function [add_dependencies(job_key)] of [get_target_jobs];
    [target_jobs] is the set it updates, [fuel] bounds the depth of the
    recursion. *)
Fixpoint add_dependencies (fuel : nat) (job_key : string) (target_jobs : gset string)
    : result (gset string) :=
  match fuel with
  | O => OutOfFuel
  | S fuel' =>
      if decide (job_key ∈ target_jobs) then Ok target_jobs
      else
        foldl (λ acc dep,
                 target_jobs ← acc;
                 if decide (dep ∈ job_keys self)
                 then add_dependencies fuel' dep target_jobs
                 else Ok target_jobs)
          (Ok ({[job_key]} ∪ target_jobs))
          (Py.get_list (dependencies self) job_key)
  end.

(** [for job_key in matching_jobs: add_dependencies(job_key)]. *)
Definition add_all_dependencies (fuel : nat) (matching_jobs : list string)
    : result (gset string) :=
  foldl (λ acc job_key, target_jobs ← acc; add_dependencies fuel job_key target_jobs)
    (Ok ∅) matching_jobs.

(** [get_target_jobs(target_pattern)]. *)
Definition get_target_jobs_fuel (fuel : nat) (target_pattern : string)
    : result (gset string) :=
  matching_jobs ← _find_target_jobs_by_pattern target_pattern;
  match matching_jobs with
  | [] => Raise ValueError
  | _ :: _ => add_all_dependencies fuel matching_jobs
  end.

(** The recursion is never deeper than the number of jobs plus one (see
    [add_dependencies_enough_fuel]). *)
Definition get_target_jobs (target_pattern : string) : result (gset string) :=
  get_target_jobs_fuel (S (length (job_keys self))) target_pattern.

(** The method as a step on the submitter's state: the result and the
    state it leaves. *)
Definition get_target_jobs_step (target_pattern : string)
    : result (gset string) * Submitter :=
  (get_target_jobs target_pattern, self).

(** ** Run-set derivation *)

(** The local function [add_dependents(changed_job)] of
    [filter_jobs_by_status]; [jobs_with_deps] is the set it updates. *)
Fixpoint add_dependents (target_jobs : gset string) (fuel : nat) (changed_job : string)
    (jobs_with_deps : gset string) : result (gset string) :=
  match fuel with
  | O => OutOfFuel
  | S fuel' =>
      foldl (λ acc (item : string * list string),
               jobs_with_deps ← acc;
               if decide (changed_job ∈ item.2 ∧ (item.1 ∉ jobs_with_deps)
                          ∧ item.1 ∈ target_jobs)
               then add_dependents target_jobs fuel' item.1 ({[item.1]} ∪ jobs_with_deps)
               else Ok jobs_with_deps)
        (Ok jobs_with_deps) (dependencies self)
  end.

(** [if target_pattern:] is false for [None] and for the empty string. *)
Definition pattern_given (target_pattern : option string) : option string :=
  match target_pattern with
  | Some EmptyString => None
  | p => p
  end.

Definition target_set_fuel (fuel : nat) (target_pattern : option string)
    : result (gset string) :=
  match pattern_given target_pattern with
  | Some pattern => get_target_jobs_fuel fuel pattern
  | None => Ok (list_to_set (job_keys self))
  end.

(** The jobs marked [needs_run] that are in the target set. *)
Definition needs_run_in (job_status : list (string * Verdict)) (target_jobs : gset string)
    : gset string :=
  list_to_set
    (filter (λ job_key, job_key ∈ target_jobs)
       (filter (λ item : string * Verdict, item.2 = NeedsRun) job_status).*1).

(** [filter_jobs_by_status(include_cached, target_pattern)] after
    [job_status = self.check_job_status()]. *)
Definition filter_jobs_by_status_fuel (fuel : nat) (job_status : list (string * Verdict))
    (include_cached : bool) (target_pattern : option string) : result (gset string) :=
  target_jobs ← target_set_fuel fuel target_pattern;
  if include_cached then Ok target_jobs
  else
    let jobs_to_run := needs_run_in job_status target_jobs in
    foldl (λ acc job,
             jobs_with_deps ← acc;
             add_dependents target_jobs fuel job jobs_with_deps)
      (Ok jobs_to_run) (elements jobs_to_run).

Definition filter_jobs_by_status (job_status : list (string * Verdict))
    (include_cached : bool) (target_pattern : option string) : result (gset string) :=
  filter_jobs_by_status_fuel (S (length (job_keys self))) job_status
    include_cached target_pattern.

End Target.

(** *** Vocabulary for the resolver's properties *)

(** The registry as a set. *)
Definition registry (self : Submitter) : gset string := list_to_set (job_keys self).

(** A set of jobs that holds every registered dependency of its members. *)
Definition deps_closed (self : Submitter) (C : gset string) : Prop :=
  ∀ j d, j ∈ C → d ∈ Py.get_list (dependencies self) j → d ∈ registry self → d ∈ C.

(** What one call of [add_dependencies] does to the set it updates. *)
Definition visit_spec (self : Submitter) (job : string) (t t' : gset string) : Prop :=
  t ⊆ t' ∧ t' ⊆ registry self ∧ job ∈ t'
  ∧ (∀ C, deps_closed self C → job ∈ C → t ⊆ C → t' ⊆ C)
  ∧ (∀ j d, j ∈ t' → j ∉ t →
       d ∈ Py.get_list (dependencies self) j → d ∈ registry self → d ∈ t').

(** [job] lists [dep] among its dependencies. *)
Definition depends_on (self : Submitter) (job dep : string) : Prop :=
  ∃ deps, (job, deps) ∈ dependencies self ∧ dep ∈ deps.

(** A set of jobs that holds every dependent, within [target_jobs], of its
    members. *)
Definition dependents_closed (self : Submitter) (target_jobs s : gset string) : Prop :=
  ∀ job dep, dep ∈ s → depends_on self job dep → job ∈ target_jobs → job ∈ s.

(** What one call of [add_dependents] does to the set it updates. *)
Definition cascade_spec (self : Submitter) (target_jobs : gset string)
    (changed_job : string) (s s' : gset string) : Prop :=
  s ⊆ s' ∧ s' ⊆ s ∪ target_jobs
  ∧ (∀ job, depends_on self job changed_job → job ∈ target_jobs → job ∈ s')
  ∧ (∀ j job, j ∈ s' → j ∉ s → depends_on self job j → job ∈ target_jobs → job ∈ s').

(** ** Example registries *)

(** A registry in which "build" is a stage and also the step of a job of
    another stage. *)
Definition registry_build : Submitter :=
  submitter_of [("build", "train"); ("test", "build")] [].

(** A registry in which "build" is a stage and no step. *)
Definition registry_stages : Submitter :=
  submitter_of [("build", "train"); ("build", "eval"); ("test", "unit")] [].

(** The registry of the specification's scenario: jobs [a:x], [a:y] and
    [b:z], where [b:z] depends on [a:x]. *)
Definition registry_scenario : Submitter :=
  submitter_of [("a", "x"); ("a", "y"); ("b", "z")] [("b:z", ["a:x"])].

(** A decoder that rejects every text. *)
Definition json_reject : string → json_loaded := λ _, JSONDecodeError.

(** ** Python floats *)

(** A Python [float] is an IEEE 754 binary64 number, here a [spec_float] of
    the standard library's specification of floating-point arithmetic at
    precision 53 and maximal exponent 1024, which rounds to nearest, ties to
    even.  An operation that makes a float from an [int] raises
    [OverflowError] when the rounded value is beyond the largest float;
    an operation between two floats gives an infinity instead. *)
Module Float.

Definition float := spec_float.
Definition prec : Z := 53.
Definition emax : Z := 1024.

(** The float nearest to an integer. *)
Definition nearest (n : Z) : float := binary_normalize prec emax n 0 false.

(** The literals [0.0] and [1.0]. *)
Definition zero : float := S754_zero false.
Definition one : float := nearest 1.

(** The value of an operation on ints, unless it is out of range. *)
Definition in_range (x : float) : result float :=
  match x with
  | S754_infinity _ => Raise OverflowError
  | _ => Ok x
  end.

(** The conversion of an [int] operand of a float operation. *)
Definition of_int (n : Z) : result float := in_range (nearest n).

(** An integer as a mantissa with exponent 0, not rounded. *)
Definition whole (n : Z) : float :=
  match n with
  | Z0 => S754_zero false
  | Zpos m => S754_finite false m 0
  | Zneg m => S754_finite true m 0
  end.

(** [a / b] on two ints, for a divisor [b] above 0: the quotient is rounded
    once, also when [a] is not a float. *)
Definition truediv (a : Z) (b : positive) : result float :=
  in_range (SFdiv prec emax (whole a) (S754_finite false b 0)).

(** [x + y] and [x * y] on two floats. *)
Definition add (x y : float) : float := SFadd prec emax x y.
Definition mul (x y : float) : float := SFmul prec emax x y.

(** [n + x] and [n * x] for an int [n] and a float [x]. *)
Definition int_add (n : Z) (x : float) : result float :=
  n ← of_int n; Ok (add n x).
Definition int_mul (n : Z) (x : float) : result float :=
  n ← of_int n; Ok (mul n x).

End Float.

(** ** Duration parsing: [parse_time_limit] *)

Section TimeLimit.
(** Python's [int(s)] on a string; [None] stands for [ValueError]. *)
Variable int : string → option Z.

(** [parse_time_limit(time_str)] in hours.  [ValueError] is caught and
    gives the default; [OverflowError], which the division of a large int
    and its conversion raise, is not caught. *)
Definition parse_time_limit (time_str : string) : result Float.float :=
  match Py.split ":" time_str with
  | [hours; minutes; seconds] =>
      match int hours, int minutes, int seconds with
      | Some hours, Some minutes, Some seconds =>
          minutes_60 ← Float.truediv minutes 60;
          hours_minutes ← Float.int_add hours minutes_60;
          seconds_3600 ← Float.truediv seconds 3600;
          Ok (Float.add hours_minutes seconds_3600)
      | _, _, _ => Ok Float.one
      end
  | [minutes; seconds] =>
      match int minutes, int seconds with
      | Some minutes, Some seconds =>
          minutes_60 ← Float.truediv minutes 60;
          seconds_3600 ← Float.truediv seconds 3600;
          Ok (Float.add minutes_60 seconds_3600)
      | _, _ => Ok Float.one
      end
  | [minutes] =>
      match int minutes with
      | Some minutes => Float.truediv minutes 60
      | None => Ok Float.one
      end
  | _ => Ok Float.one
  end.

Definition no_colon (s : string) : Prop := Py.has_char ":" s = false.

(** [time_str] has one of the three accepted shapes, with integer fields. *)
Definition fits_shape (time_str : string) : Prop :=
  (∃ h m s, time_str = h +:+ ":" +:+ m +:+ ":" +:+ s
            ∧ no_colon h ∧ no_colon m ∧ no_colon s
            ∧ is_Some (int h) ∧ is_Some (int m) ∧ is_Some (int s))
  ∨ (∃ m s, time_str = m +:+ ":" +:+ s ∧ no_colon m ∧ no_colon s
            ∧ is_Some (int m) ∧ is_Some (int s))
  ∨ (no_colon time_str ∧ is_Some (int time_str)).

(** Every field of [time_str] that is an integer is below [2 ^ 1023] in
    absolute value. *)
Definition fields_in_range (time_str : string) : Prop :=
  ∀ field n, field ∈ Py.split ":" time_str → int field = Some n → (Z.abs n < 2 ^ 1023)%Z.

End TimeLimit.

(** The plain decimal literals among the strings that [int] accepts: an
    optional sign and one or more digits. *)
Fixpoint digits_value (acc : Z) (s : string) : option Z :=
  match s with
  | EmptyString => Some acc
  | String c s' =>
      match Ascii.is_nat c with
      | Some d => digits_value (10 * acc + Z.of_nat d) s'
      | None => None
      end
  end.

Definition int_decimal (s : string) : option Z :=
  match s with
  | EmptyString => None
  | String c s' =>
      if decide (c = "-"%char)
      then (if decide (s' = EmptyString) then None else Z.opp <$> digits_value 0 s')
      else if decide (c = "+"%char)
      then (if decide (s' = EmptyString) then None else digits_value 0 s')
      else digits_value 0 s
  end.

(** A bare integer of 400 digits. *)
Definition many_nines : string := String.string_of_list_ascii (replicate 400 "9"%char).

(** ** Submission driver *)

(** How a call of the submission script ended: exit status 0 with its
    standard output, a non-zero exit status ([CalledProcessError]), or an
    interrupt. *)
Inductive trigger_result :=
  | Completed (stdout : string)
  | Failed
  | Interrupted.

(** What the driver does to the outside: it runs the submission script for a
    job, it announces a job in preview mode, it asks the user. *)
Inductive event :=
  | Submitted (job_key : string) (cmd : list string) (outcome : trigger_result)
  | WouldSubmit (job_key : string)
  | Asked (prompt : string) (reply : string).

(** [c.lower()] on an ASCII character and [s.lower()]. *)
Definition lower_char (c : ascii) : ascii :=
  let n := nat_of_ascii c in
  if (65 <=? n) && (n <=? 90) then ascii_of_nat (n + 32) else c.

Fixpoint lower (s : string) : string :=
  match s with
  | EmptyString => EmptyString
  | String c s' => String (lower_char c) (lower s')
  end.

(** [response.strip().lower() in ["y", "yes"]]. *)
Definition answered_yes (response : string) : bool :=
  let r := lower (Py.strip Py.is_space response) in
  bool_decide (r = "y") || bool_decide (r = "yes").

(** [re.search(r"Submitted batch job (\d+)", stdout)]: the digits after the
    first occurrence of the phrase that is followed by a digit. *)
Definition is_digit (c : ascii) : bool :=
  match Ascii.is_nat c with Some _ => true | None => false end.

Fixpoint take_digits (s : string) : string :=
  match s with
  | EmptyString => EmptyString
  | String c s' => if is_digit c then String c (take_digits s') else EmptyString
  end.

Fixpoint strip_prefix (p s : string) : option string :=
  match p, s with
  | EmptyString, _ => Some s
  | String _ _, EmptyString => None
  | String a p', String b s' => if decide (a = b) then strip_prefix p' s' else None
  end.

Fixpoint find_job_id (stdout : string) : option string :=
  let here :=
    match strip_prefix "Submitted batch job " stdout with
    | Some rest =>
        match take_digits rest with
        | EmptyString => None
        | digits => Some digits
        end
    | None => None
    end in
  match here with
  | Some digits => Some digits
  | None =>
      match stdout with
      | EmptyString => None
      | String _ stdout' => find_job_id stdout'
      end
  end.

Definition prompt_confirm : string := String "010" "Submit these jobs? (y/N): ".
Definition prompt_job_failed : string :=
  String "010" "Job submission failed. Continue with remaining jobs? (y/N): ".
Definition prompt_unexpected : string :=
  String "010" "Unexpected error occurred. Continue? (y/N): ".
Definition prompt_batch_failed : string :=
  String "010" "Many jobs failed in this batch. Continue to next batch? (y/N): ".

(** The dependencies of [job_key] named in its constraint: those in the run
    set that are in [self.submitted_jobs]. *)
Definition active_deps (self : Submitter) (job_key : string) (jobs_to_run : gset string)
    : list string :=
  filter (λ dep, dep ∈ jobs_to_run ∧ is_Some (submitted_jobs self !! dep))
    (Py.get_list (dependencies self) job_key).

(** [[self.submitted_jobs[dep] for dep in active_deps]]. *)
Definition dep_job_ids (self : Submitter) (active : list string) : list string :=
  omap (λ dep, submitted_jobs self !! dep) active.

(** The [--dependency] argument for a list of external job identifiers. *)
Definition dependency_clause (ids : list string) : list string :=
  ["--dependency"; "afterok:" +:+ Py.join ":" ids].

(** [dependency_args] as [submit_job] builds it. *)
Definition dependency_args (self : Submitter) (job_key : string)
    (jobs_to_run : option (gset string)) : list string :=
  match jobs_to_run with
  | None => []
  | Some jobs =>
      match active_deps self job_key jobs with
      | [] => []
      | active => dependency_clause (dep_job_ids self active)
      end
  end.

(** The command line of the submission script without the dependency part. *)
Definition base_command (run_group_id : string) (config : JobConfig) : list string :=
  [ "bash"; "cluster/trigger.sh";
    "--stage"; stage config +:+ "@" +:+ step config;
    "--run-group"; run_group_id;
    "--gpus"; pretty (gpus config);
    "--time"; time_limit config;
    "--memory"; memory config;
    "--cpus"; pretty (cpus config);
    "--partition"; partition config;
    "--nodes"; pretty (nodes config);
    "--ntasks"; pretty (ntasks config);
    "--ntasks-per-node"; pretty (ntasks_per_node config) ].

(** [self.submitted_jobs[job_key] = job_id]. *)
Definition record_job (self : Submitter) (job_key job_id : string) : Submitter :=
  {| dry_run := dry_run self;
     job_configs := job_configs self;
     dependencies := dependencies self;
     submitted_jobs := <[job_key := job_id]> (submitted_jobs self) |}.

(** The state of a run: the submitter, what happened so far, and the two
    counters of [run_pipeline]. *)
Record progress := {
  submitter : Submitter;
  trace : list event;
  submitted_count : nat;
  failed_count : nat;
}.

(** How [run_pipeline] ends. *)
Inductive run_outcome :=
  | NothingToSubmit
  | Cancelled
  | Finished (success : bool).

Section Driver.
(** The run group identifier, the submission script (its result may depend
    on what happened before) and the user at the terminal (the reply to a
    prompt, given what happened before). *)
Variable run_group_id : string.
Variable trigger : list event → list string → trigger_result.
Variable input : list event → string → string.

(** [submit_job(job_key, extra_env, jobs_to_run)]: the value returned or
    the exception raised, and the trace after the call. *)
Definition submit_job (self : Submitter) (tr : list event) (job_key : string)
    (jobs_to_run : option (gset string)) : result string * list event :=
  match Py.get (job_configs self) job_key with
  | None => (Raise KeyError, tr)
  | Some config =>
      if dry_run self
      then (Ok ("fake_" +:+ pretty (size (submitted_jobs self))),
            tr ++ [WouldSubmit job_key])
      else
        let cmd := base_command run_group_id config
                   ++ dependency_args self job_key jobs_to_run in
        let outcome := trigger tr cmd in
        let tr := tr ++ [Submitted job_key cmd outcome] in
        match outcome with
        | Completed stdout =>
            match find_job_id stdout with
            | Some job_id => (Ok job_id, tr)
            | None => (Ok ("unknown_" +:+ pretty (size (submitted_jobs self))), tr)
            end
        | Interrupted => (Raise KeyboardInterrupt, tr)
        | Failed =>
            let response := input tr prompt_job_failed in
            let tr := tr ++ [Asked prompt_job_failed response] in
            if answered_yes response
            then (Ok ("failed_" +:+ pretty (size (submitted_jobs self))), tr)
            else (Raise CalledProcessError, tr)
        end
  end.

(** The inner loop of [run_pipeline] over the jobs of one batch; the second
    component is [batch_failures]. *)
Fixpoint submit_batch (jobs_to_run : gset string) (batch : list string)
    (p : progress) (batch_failures : nat) : progress * nat :=
  match batch with
  | [] => (p, batch_failures)
  | job_key :: rest =>
      let r := submit_job (submitter p) (trace p) job_key (Some jobs_to_run) in
      match r.1 with
      | Ok job_id =>
          if Py.startswith "failed_" job_id
          then submit_batch jobs_to_run rest
                 {| submitter := submitter p; trace := r.2;
                    submitted_count := submitted_count p;
                    failed_count := S (failed_count p) |}
                 (S batch_failures)
          else submit_batch jobs_to_run rest
                 {| submitter := record_job (submitter p) job_key job_id;
                    trace := r.2;
                    submitted_count := S (submitted_count p);
                    failed_count := failed_count p |}
                 batch_failures
      | Raise e =>
          if is_Exception e
          then
            let response := input r.2 prompt_unexpected in
            let p' := {| submitter := submitter p;
                         trace := r.2 ++ [Asked prompt_unexpected response];
                         submitted_count := submitted_count p;
                         failed_count := S (failed_count p) |} in
            if answered_yes response
            then submit_batch jobs_to_run rest p' (S batch_failures)
            else (p', S batch_failures)
          else
            ({| submitter := submitter p; trace := r.2;
                submitted_count := submitted_count p;
                failed_count := failed_count p |}, batch_failures)
      | OutOfFuel => (p, batch_failures)
      end
  end.

(** The outer loop of [run_pipeline] over the batches. *)
Fixpoint submit_batches (jobs_to_run : gset string) (execution_order : list (list string))
    (p : progress) : progress :=
  match execution_order with
  | [] => p
  | batch :: rest =>
      let r := submit_batch jobs_to_run batch p 0 in
      if decide (length batch / 2 < r.2)
      then
        let response := input (trace r.1) prompt_batch_failed in
        let p' := {| submitter := submitter r.1;
                     trace := trace r.1 ++ [Asked prompt_batch_failed response];
                     submitted_count := submitted_count r.1;
                     failed_count := failed_count r.1 |} in
        if answered_yes response
        then submit_batches jobs_to_run rest p'
        else p'
      else submit_batches jobs_to_run rest r.1
  end.

(** [run_pipeline] from the point where [jobs_to_run], the value of
    [filter_jobs_by_status], is known: confirmation, scheduling, and the
    submission of the batches. *)
Definition run_pipeline (self : Submitter) (jobs_to_run : gset string)
    : option (run_outcome * progress) :=
  let start := {| submitter := self; trace := [];
                  submitted_count := 0; failed_count := 0 |} in
  if decide (jobs_to_run = ∅) then Some (NothingToSubmit, start)
  else
    let response := input [] prompt_confirm in
    let confirmed := {| submitter := self;
                        trace := if dry_run self then []
                                 else [Asked prompt_confirm response];
                        submitted_count := 0; failed_count := 0 |} in
    if negb (dry_run self) && negb (answered_yes response)
    then Some (Cancelled, confirmed)
    else
      execution_order ← get_execution_order self (Some jobs_to_run);
      let p := submit_batches jobs_to_run execution_order confirmed in
      Some (Finished (bool_decide (failed_count p = 0)), p).

End Driver.

(** *** Vocabulary for the properties of the driver *)

(** [job_id] is what [submit_job] returns for a completed call with output
    [stdout]: the identifier found in it, or a placeholder. *)
Definition id_from_output (stdout job_id : string) : Prop :=
  find_job_id stdout = Some job_id
  ∨ (find_job_id stdout = None ∧ ∃ n : nat, job_id = "unknown_" +:+ pretty n).

(** [dep] is recorded with [job_id]: it was in the map when the run began, or
    a call of the script for [dep] in [tr] completed and gave [job_id]. *)
Definition recorded_by (initial : gmap string string) (tr : list event)
    (dep job_id : string) : Prop :=
  initial !! dep = Some job_id
  ∨ ∃ cmd stdout, Submitted dep cmd (Completed stdout) ∈ tr
                  ∧ id_from_output stdout job_id.

(** The command of a submission names only recorded dependencies of the job
    that are in the run set, and none when no such dependency is recorded. *)
Definition constraint_ok (run_group_id : string) (self : Submitter)
    (jobs_to_run : gset string) (before : list event) (ev : event) : Prop :=
  match ev with
  | Submitted job_key cmd _ =>
      ∃ config ids,
        Py.get (job_configs self) job_key = Some config
        ∧ cmd = base_command run_group_id config
                ++ match ids with [] => [] | _ => dependency_clause ids end
        ∧ (∀ job_id, job_id ∈ ids →
             ∃ dep, dep ∈ Py.get_list (dependencies self) job_key
                    ∧ dep ∈ jobs_to_run
                    ∧ recorded_by (submitted_jobs self) before dep job_id)
        ∧ ((∀ dep job_id, dep ∈ Py.get_list (dependencies self) job_key →
              dep ∈ jobs_to_run →
              ¬ recorded_by (submitted_jobs self) before dep job_id) →
           ids = [])
  | _ => True
  end.

(** Every event of a trace is in order with respect to what came before. *)
Definition events_ok (run_group_id : string) (self : Submitter)
    (jobs_to_run : gset string) (tr : list event) : Prop :=
  ∀ i ev, tr !! i = Some ev →
    constraint_ok run_group_id self jobs_to_run (take i tr) ev.

(** The invariant of the submission loops, relative to the submitter [self]
    with which the run began. *)
Definition driver_inv (run_group_id : string) (self : Submitter)
    (jobs_to_run : gset string) (p : progress) : Prop :=
  dry_run (submitter p) = dry_run self
  ∧ job_configs (submitter p) = job_configs self
  ∧ dependencies (submitter p) = dependencies self
  ∧ (dry_run self = false →
     ∀ dep job_id, submitted_jobs (submitter p) !! dep = Some job_id →
                   recorded_by (submitted_jobs self) (trace p) dep job_id)
  ∧ events_ok run_group_id self jobs_to_run (trace p).

(** ** Example runs *)

(** A submission script that fails for the jobs of stage [a] and accepts
    every other job. *)
Definition trigger_stage_a_fails (tr : list event) (cmd : list string) : trigger_result :=
  match cmd !! 3 with
  | Some stage_arg =>
      if Py.startswith "a@" stage_arg then Failed
      else Completed "Submitted batch job 4242"
  | None => Failed
  end.

(** A submission script that accepts every job. *)
Definition trigger_accepts (tr : list event) (cmd : list string) : trigger_result :=
  Completed "Submitted batch job 4242".

(** A user who confirms the plan and answers no to every later prompt. *)
Definition confirm_then_decline (tr : list event) (prompt : string) : string :=
  if decide (prompt = prompt_confirm) then "y" else "n".

(** The run set of the scenario: all three jobs. *)
Definition run_set_scenario : gset string := {[ "a:x"; "a:y"; "b:z" ]}.

(** A cyclic dependency mapping over the scenario's jobs: [a:x] and [b:z]
    depend on each other. *)
Definition registry_cycle : Submitter :=
  submitter_of [("a", "x"); ("a", "y"); ("b", "z")]
    [("b:z", ["a:x"]); ("a:x", ["b:z"])].

(** A dependency mapping that names a job that is not registered. *)
Definition registry_ghost : Submitter :=
  submitter_of [("a", "x"); ("a", "y"); ("b", "z")] [("b:z", ["a:x"; "ghost:job"])].

(** A glob matcher that matches nothing and a regex compiler that rejects
    every pattern: stand-ins for the library in runs whose pattern has no
    metacharacter. *)
Definition fnmatch_nothing : string → string → bool := λ _ _, false.
Definition re_compile_error : string → option (string → bool) := λ _, None.

(** The verdicts of the scenario: only [a:x] changed. *)
Definition status_scenario : list (string * Verdict) :=
  [("a:x", NeedsRun); ("a:y", Cached); ("b:z", Cached)].

(** The ranks of the scenario's jobs: [b:z] comes after the others. *)
Definition rank_scenario (job : string) : nat :=
  if decide (job = "b:z") then 1 else 0.

(** ** Dependency graph builder *)

(** [re.search] for the edge pattern of [_parse_dot_output]: a quoted name,
    an arrow with optional white space around it, a quoted name. *)
Module Edge.

(** The two names of an edge that starts at the beginning of [s]. *)
Definition edge_here (s : string) : option (string * string) :=
  match s with
  | String c s1 =>
      if decide (c = "034"%char) then
        let left := Fallback.span_body s1 in
        match left.2 with
        | String _ s2 =>
            match strip_prefix "->" (Py.lstrip Py.is_space s2) with
            | Some s3 =>
                match Py.lstrip Py.is_space s3 with
                | String c4 s4 =>
                    let right := Fallback.span_body s4 in
                    if bool_decide (c4 = "034"%char)
                       && Fallback.non_empty left.1
                       && Fallback.non_empty right.1
                       && Fallback.non_empty right.2
                    then Some (left.1, right.1) else None
                | EmptyString => None
                end
            | None => None
            end
        | EmptyString => None
        end
      else None
  | EmptyString => None
  end.

(** The first edge in a line. *)
Fixpoint search (line : string) : option (string * string) :=
  match edge_here line with
  | Some edge => Some edge
  | None =>
      match line with
      | EmptyString => None
      | String _ line' => search line'
      end
  end.

End Edge.

(** The two statements at the centre of [_parse_dot_output]: give
    [dependent_job] an entry if it has none, and add [dep_job] to it unless
    it is already there.  A new key goes to the end of the dict. *)
Fixpoint add_dependency (deps_of : list (string * list string))
    (dependent_job dep_job : string) : list (string * list string) :=
  match deps_of with
  | [] => [(dependent_job, [dep_job])]
  | item :: rest =>
      if decide (item.1 = dependent_job)
      then (item.1, if decide (dep_job ∈ item.2) then item.2 else item.2 ++ [dep_job])
           :: rest
      else item :: add_dependency rest dependent_job dep_job
  end.

(** The two nested loops over the matching jobs. *)
Definition add_edges (deps_of : list (string * list string))
    (dep_jobs dependent_jobs : list string) : list (string * list string) :=
  foldl (λ acc dep_job,
           foldl (λ acc' dependent_job, add_dependency acc' dependent_job dep_job)
             acc dependent_jobs)
    deps_of dep_jobs.

(** [self.dependencies = deps_of]. *)
Definition with_dependencies (self : Submitter) (deps_of : list (string * list string))
    : Submitter :=
  {| dry_run := dry_run self;
     job_configs := job_configs self;
     dependencies := deps_of;
     submitted_jobs := submitted_jobs self |}.

(** The loop of [_parse_dot_output] over the lines of the graph dump. *)
Fixpoint parse_dot_lines (self : Submitter) (lines : list string) : result Submitter :=
  match lines with
  | [] => Ok self
  | line :: rest =>
      match Edge.search line with
      | Some edge =>
          dep_jobs ← _find_matching_jobs self edge.1;
          dependent_jobs ← _find_matching_jobs self edge.2;
          parse_dot_lines
            (with_dependencies self (add_edges (dependencies self) dep_jobs dependent_jobs))
            rest
      | None => parse_dot_lines self rest
      end
  end.

(** [_parse_dot_output(dot_text)]. *)
Definition _parse_dot_output (self : Submitter) (dot_text : string) : result Submitter :=
  parse_dot_lines self (Py.split "010" dot_text).

(** A name between quotes. *)
Definition quoted (name : string) : string :=
  String "034" (name +:+ String "034" EmptyString).

(** ** Vocabulary for further properties *)

(** The batches of an order in which every batch after the first holds only
    jobs with a dependency in the batch just before. *)
Definition levelled_from (deps_of : list (string * list string))
    (order : list (list string)) : Prop :=
  ∀ i b j, order !! S i = Some b → j ∈ b →
    ∃ b' c deps, order !! i = Some b' ∧ c ∈ b' ∧ (j, deps) ∈ deps_of ∧ c ∈ deps.

(** How the call of the oracle's graph query ended. *)
Inductive dag_run :=
  | DagNotFound
  | DagExited (returncode : Z) (stdout : string).

(** [load_dependencies_from_dvc()], given how the graph query ended. *)
Definition load_dependencies_from_dvc (self : Submitter) (run : dag_run) : result Submitter :=
  match run with
  | DagNotFound => Raise RuntimeError
  | DagExited returncode stdout =>
      if bool_decide (returncode = 0%Z) && Fallback.non_empty stdout
      then _parse_dot_output self stdout
      else Raise RuntimeError
  end.

(** [dependent_job] lists [dep_job] in the dependency mapping. *)
Definition has_edge (deps_of : list (string * list string))
    (dependent_job dep_job : string) : Prop :=
  ∃ deps, Py.get deps_of dependent_job = Some deps ∧ dep_job ∈ deps.

(** White space only. *)
Definition all_space (s : string) : Prop := Py.lstrip Py.is_space s = EmptyString.

(** No quote character. *)
Definition no_quote (s : string) : Prop := Py.has_char "034" s = false.

(** The graph dump of the scenario: one edge, from [a@x] to [b@z]. *)
Definition dag_scenario : dag_run :=
  DagExited 0
    ("strict digraph {" +:+ String "010" (quoted "a@x" +:+ " -> " +:+ quoted "b@z" +:+ ";")
     +:+ String "010" "}").

(** The scenario's registry before the graph is loaded. *)
Definition registry_fresh : Submitter :=
  submitter_of [("a", "x"); ("a", "y"); ("b", "z")] [].

(** Keys and listed dependencies that are all taken from [jobs]. *)
Definition edges_within (jobs : list string) (deps_of : list (string * list string)) : Prop :=
  ∀ item, item ∈ deps_of → item.1 ∈ jobs ∧ ∀ dep, dep ∈ item.2 → dep ∈ jobs.

(** Every pair of a dependency and a dependent job is an edge. *)
Definition covers (deps_of : list (string * list string))
    (dep_jobs dependent_jobs : list string) : Prop :=
  ∀ dep_job dependent_job, dep_job ∈ dep_jobs → dependent_job ∈ dependent_jobs →
    has_edge deps_of dependent_job dep_job.

(** The oracle node [name] names the job [job_key], as the status resolver
    sees it: a name with an at-sign is the job key with the colon replaced,
    a bare name is the stage or the step of the job. *)
Definition names_job (name job_key : string) : Prop :=
  if Py.has_char "@" name then Py.replace "@" ":" name = job_key
  else ∃ stage step, split_job_key job_key = Ok (stage, step)
                     ∧ (name = stage ∨ name = step).

(** A line of text: no line break in it. *)
Definition one_line (s : string) : Prop := Py.has_char "010" s = false.

(** A line that opens a JSON object, as [_parse_dvc_status_json] looks for it. *)
Definition opens_json (line : string) : bool :=
  Py.startswith "{" (Py.strip Py.is_space line).

(** A decoder that reads every text as the object with the single key [a@x]. *)
Definition json_a_x : string → json_loaded := λ _, JSONObject ["a@x"].

(** The job that an event hands to the submission script, or announces in
    preview mode. *)
Definition attempted_job (ev : event) : option string :=
  match ev with
  | Submitted job_key _ _ => Some job_key
  | WouldSubmit job_key => Some job_key
  | Asked _ _ => None
  end.

(** Decimal digits only. *)
Fixpoint all_digits (s : string) : bool :=
  match s with
  | EmptyString => true
  | String c s' => is_digit c && all_digits s'
  end.

(** The first character is a decimal digit. *)
Definition starts_with_digit (s : string) : bool :=
  match s with
  | EmptyString => false
  | String c _ => is_digit c
  end.

(** The command of a submission names, in order, the identifiers recorded
    for all the dependencies of the job that are in the run set. *)
Definition waits_for_all (run_group_id : string) (self : Submitter)
    (jobs_to_run : gset string) (before : list event) (ev : event) : Prop :=
  match ev with
  | Submitted job_key cmd _ =>
      ∃ config ids,
        Py.get (job_configs self) job_key = Some config
        ∧ cmd = base_command run_group_id config
                ++ match ids with [] => [] | _ => dependency_clause ids end
        ∧ Forall2 (λ dep job_id, recorded_by (submitted_jobs self) before dep job_id)
            (valid_deps (dependencies self) jobs_to_run job_key) ids
  | _ => True
  end.

(** The scenario's submitter in preview mode. *)
Definition registry_preview : Submitter :=
  {| dry_run := true;
     job_configs := job_configs registry_scenario;
     dependencies := dependencies registry_scenario;
     submitted_jobs := ∅ |}.

(** The state of a run in which every submission completes, after the jobs
    [done]: they are all recorded, nothing failed, and each command issued
    so far waits for all the dependencies of its job that are in the run
    set. *)
Definition completes_inv (run_group_id : string) (self : Submitter)
    (jobs_to_run : gset string) (p : progress) (done : list string) : Prop :=
  driver_inv run_group_id self jobs_to_run p
  ∧ (∀ j, j ∈ done → is_Some (submitted_jobs (submitter p) !! j))
  ∧ (∀ i ev, trace p !! i = Some ev →
       waits_for_all run_group_id self jobs_to_run (take i (trace p)) ev)
  ∧ failed_count p = 0
  ∧ omap attempted_job (trace p) = done
  ∧ submitted_count p = length done.

(** ** Resource totals: [calculate_resource_totals] *)

Section ResourceTotals.
Variable int : string → option Z.

(** The hours of one job, by GPU and by CPU: [gpus * time_hours] and
    [cpus * time_hours] for the hours of its time limit. *)
Definition job_hours (config : JobConfig) : result (Float.float * Float.float) :=
  time_hours ← parse_time_limit int (time_limit config);
  gpu_hours ← Float.int_mul (gpus config) time_hours;
  cpu_hours ← Float.int_mul (cpus config) time_hours;
  Ok (gpu_hours, cpu_hours).

(** The body of the loop: the hours of one job added to the two totals. *)
Definition add_job_hours (job_configs : list (string * JobConfig))
    (totals : Float.float * Float.float) (job_key : string)
    : result (Float.float * Float.float) :=
  match Py.get job_configs job_key with
  | Some config =>
      hours ← job_hours config;
      Ok (Float.add totals.1 hours.1, Float.add totals.2 hours.2)
  | None => Ok totals
  end.

(** [calculate_resource_totals(job_configs, jobs_to_run)]: total GPU hours
    and total CPU hours.  [jobs_to_run] is the set as the sequence in which
    the loop goes through it: the sums are sums of floats, taken in that
    order. *)
Definition calculate_resource_totals (job_configs : list (string * JobConfig))
    (jobs_to_run : list string) : result (Float.float * Float.float) :=
  foldl (λ acc job_key, totals ← acc; add_job_hours job_configs totals job_key)
    (Ok (Float.zero, Float.zero)) jobs_to_run.

(** The hours of the registered jobs among [jobs_to_run], in that order. *)
Fixpoint registered_hours (job_configs : list (string * JobConfig))
    (jobs_to_run : list string) : result (list (Float.float * Float.float)) :=
  match jobs_to_run with
  | [] => Ok []
  | job_key :: rest =>
      match Py.get job_configs job_key with
      | Some config =>
          hours ← job_hours config;
          others ← registered_hours job_configs rest;
          Ok (hours :: others)
      | None => registered_hours job_configs rest
      end
  end.

(** [0.0 + x1 + x2 + ...], from left to right. *)
Definition float_sum (xs : list Float.float) : Float.float :=
  foldl Float.add Float.zero xs.

End ResourceTotals.

(** Three jobs of 6, 12 and 18 minutes on one GPU. *)
Definition registry_minutes : list (string * JobConfig) :=
  [("a:x", {| stage := "a"; step := "x"; gpus := 1; time_limit := "6"; memory := "48g";
              cpus := 8; partition := "long"; nodes := 1; ntasks := 1;
              ntasks_per_node := 1 |});
   ("a:y", {| stage := "a"; step := "y"; gpus := 1; time_limit := "12"; memory := "48g";
              cpus := 8; partition := "long"; nodes := 1; ntasks := 1;
              ntasks_per_node := 1 |});
   ("b:z", {| stage := "b"; step := "z"; gpus := 1; time_limit := "18"; memory := "48g";
              cpus := 8; partition := "long"; nodes := 1; ntasks := 1;
              ntasks_per_node := 1 |})].

(** ** Loading the registry: [load_job_configs] *)

(** The resource settings that a step of the parameter file may give, each
    with the type that [JobConfig] declares for it; [None] is a key that is
    not there. *)
Record resource_settings := {
  given_gpus : option Z;
  given_time_limit : option string;
  given_memory : option string;
  given_cpus : option Z;
  given_partition : option string;
  given_nodes : option Z;
  given_ntasks : option Z;
  given_ntasks_per_node : option Z;
}.

(** [step_config]: the settings written in the step itself, and those of
    its [resources] section when it has one. *)
Record step_config := {
  own_settings : resource_settings;
  resources : option resource_settings;
}.

(** [d[k] = v] on a dict: the value of a key that is there is replaced in
    place, a new key goes to the end. *)
Fixpoint set_item {V} (d : list (string * V)) (k : string) (v : V) : list (string * V) :=
  match d with
  | [] => [(k, v)]
  | item :: d' =>
      if decide (item.1 = k) then (k, v) :: d' else item :: set_item d' k v
  end.

(** The settings that count for a step: those of the [resources] section
    if there is one, the step's own otherwise. *)
Definition effective_settings (config : step_config) : resource_settings :=
  match resources config with
  | Some settings => settings
  | None => own_settings config
  end.

(** [JobConfig(stage=..., step=..., gpus=settings.get("gpus", 1), ...)]. *)
Definition job_config_from (stage_name step_name : string) (settings : resource_settings)
    : JobConfig :=
  {| stage := stage_name;
     step := step_name;
     gpus := default 1%Z (given_gpus settings);
     time_limit := default "00:30:00" (given_time_limit settings);
     memory := default "48g" (given_memory settings);
     cpus := default 8%Z (given_cpus settings);
     partition := default "long" (given_partition settings);
     nodes := default 1%Z (given_nodes settings);
     ntasks := default 1%Z (given_ntasks settings);
     ntasks_per_node := default 1%Z (given_ntasks_per_node settings) |}.

(** The body of the inner loop: one step of a stage. *)
Definition load_step (stage_name : string) (job_configs : list (string * JobConfig))
    (item : string * step_config) : list (string * JobConfig) :=
  let job_key := stage_name +:+ ":" +:+ item.1 in
  set_item job_configs job_key
    (job_config_from stage_name item.1 (effective_settings item.2)).

(** The body of the outer loop: one stage with its steps. *)
Definition load_stage (job_configs : list (string * JobConfig))
    (item : string * list (string * step_config)) : list (string * JobConfig) :=
  foldl (load_step item.1) job_configs item.2.

(** [load_job_configs()], given the [stages] entry of the parameter file
    ([None] when the file has none). *)
Definition load_job_configs (self : Submitter)
    (stages : option (list (string * list (string * step_config)))) : Submitter :=
  {| dry_run := dry_run self;
     job_configs := foldl load_stage (job_configs self) (default [] stages);
     dependencies := dependencies self;
     submitted_jobs := submitted_jobs self |}.

(** A step of the parameter file with its stage. *)
Definition step_of (stages : option (list (string * list (string * step_config))))
    (stage_name step_name : string) (config : step_config) : Prop :=
  ∃ steps, (stage_name, steps) ∈ default [] stages ∧ (step_name, config) ∈ steps.

(** What holds of the registry at every point of the two loops: distinct
    keys, and every job made from a step of the file, under the key of its
    stage and step. *)
Definition loaded_inv (stages : option (list (string * list (string * step_config))))
    (job_configs : list (string * JobConfig)) : Prop :=
  NoDup job_configs.*1
  ∧ ∀ job_key config, (job_key, config) ∈ job_configs →
      job_key = stage config +:+ ":" +:+ step config
      ∧ ∃ from, step_of stages (stage config) (step config) from
                ∧ config = job_config_from (stage config) (step config)
                             (effective_settings from).

(** ** Run group identifier: [generate_run_group_id] *)

(** The characters that [re.sub(r'[^a-zA-Z0-9_.-]', '_', ...)] keeps. *)
Definition is_safe_char (c : ascii) : bool :=
  let n := nat_of_ascii c in
  ((97 <=? n) && (n <=? 122)) || ((65 <=? n) && (n <=? 90)) || ((48 <=? n) && (n <=? 57))
  || bool_decide (c = "_"%char) || bool_decide (c = "."%char) || bool_decide (c = "-"%char).

Fixpoint clean_group (user_group : string) : string :=
  match user_group with
  | EmptyString => EmptyString
  | String c s => String (if is_safe_char c then c else "_"%char) (clean_group s)
  end.

Fixpoint all_safe (s : string) : bool :=
  match s with
  | EmptyString => true
  | String c s' => is_safe_char c && all_safe s'
  end.

(** [generate_run_group_id(user_group)]: [_run_group_id] is the attribute
    that keeps the identifier once it is made ([None] while it is not set);
    [date_part] and [time_part] are the two formats of the current time and
    [commit] is the output of the query for the current commit, [None] when
    the query fails.  The result is the identifier and the attribute after
    the call. *)
Definition generate_run_group_id (_run_group_id : option string)
    (user_group : option string) (date_part time_part : string) (commit : option string)
    : string * option string :=
  match _run_group_id with
  | Some run_group_id => (run_group_id, Some run_group_id)
  | None =>
      let run_group_id :=
        match user_group with
        | Some (String _ _ as user_group) => clean_group user_group
        | _ =>
            let commit_short :=
              match commit with
              | Some stdout => Py.strip Py.is_space stdout
              | None => "unknown"
              end in
            date_part +:+ "." +:+ time_part +:+ "." +:+ commit_short
        end in
      (run_group_id, Some run_group_id)
  end.

(** The parameter file of the scenario: stage [a] with the steps [x] (which
    asks for four GPUs in its [resources] section) and [y], stage [b] with
    the step [z]. *)
Definition no_settings : resource_settings :=
  {| given_gpus := None; given_time_limit := None; given_memory := None;
     given_cpus := None; given_partition := None; given_nodes := None;
     given_ntasks := None; given_ntasks_per_node := None |}.

Definition four_gpus : resource_settings :=
  {| given_gpus := Some 4%Z; given_time_limit := Some "02:00:00"; given_memory := None;
     given_cpus := None; given_partition := None; given_nodes := None;
     given_ntasks := None; given_ntasks_per_node := None |}.

Definition stages_scenario : option (list (string * list (string * step_config))) :=
  Some [("a", [("x", {| own_settings := no_settings; resources := Some four_gpus |});
               ("y", {| own_settings := no_settings; resources := None |})]);
        ("b", [("z", {| own_settings := no_settings; resources := None |})])].

(** A submitter as [__init__] leaves it. *)
Definition submitter_init : Submitter :=
  {| dry_run := false; job_configs := []; dependencies := []; submitted_jobs := ∅ |}.

(** ** The whole run: [PipelineSubmitter.run_pipeline] *)

(** How the call [dvc --version] of [check_dvc_available] ended. *)
Inductive version_run :=
  | VersionShown (stdout : string)
  | VersionNotFound
  | VersionFailed
  | VersionTimedOut.

(** What reading the parameter file gave [load_job_configs]: an exception
    of [open] or of the YAML reader, or the [stages] entry of the file. *)
Inductive params_read :=
  | ParamsRaised (e : exn)
  | ParamsLoaded (stages : option (list (string * list (string * step_config)))).

(** How [load_secrets] ended for a password: with an exception, or with the
    environment variables that it returns. *)
Inductive secrets_read :=
  | SecretsRaised (e : exn)
  | SecretsLoaded (secrets_env : list (string * string)).

(** What a run meets outside the submitter before it submits: the oracle's
    version, graph and status queries, the parameter file, whether
    [GITHUB_TOKEN] is set in the environment to a non-empty value, which
    paths exist, and the secrets file. *)
Record outside := {
  dvc_version : version_run;
  params_file : params_read;
  dag : dag_run;
  github_token : bool;
  path_exists : string → bool;
  secrets : string → secrets_read;
  status : status_run;
}.

Definition prompt_option : string := "Choose option (1/2/3): ".
Definition prompt_token : string := "Enter GITHUB_TOKEN manually: ".
Definition prompt_path : string := "Enter path to secrets.yaml.enc file: ".
Definition prompt_password : string := "Provide the password to your secrets.yaml file: ".

(** The value that [run_pipeline] returns at each of its ends. *)
Definition returned (outcome : run_outcome) : bool :=
  match outcome with
  | NothingToSubmit => true
  | Cancelled => false
  | Finished success => success
  end.

Module PipelineSubmitter.
Section Run.
(** The libraries, the submission script and the user, as for the parts of
    the run above; [getpass] is the user at a prompt that does not echo. *)
Variable json_loads : string → json_loaded.
Variable fnmatch : string → string → bool.
Variable re_compile : string → option (string → bool).
Variable int : string → option Z.
Variable run_group_id : string.
Variable trigger : list event → list string → trigger_result.
Variable input : list event → string → string.
Variable getpass : list event → string → string.
Variable out : outside.

(** [check_dvc_available()]. *)
Definition check_dvc_available : bool :=
  match dvc_version out with
  | VersionShown _ => true
  | VersionNotFound | VersionFailed | VersionTimedOut => false
  end.

(** The end of [prompt_for_secrets_password]: the password is asked for. *)
Definition ask_password (tr : list event) : result (option string) * list event :=
  let password := getpass tr prompt_password in
  let tr := tr ++ [Asked prompt_password password] in
  if decide (Py.strip Py.is_space password = EmptyString) then (Raise ValueError, tr)
  else (Ok (Some (Py.strip Py.is_space password)), tr).

(** [prompt_for_secrets_password()]: the password, or [None], or the
    exception raised, and the trace after the call.  The token typed in
    under option 1 goes to the environment, which the rest of the run does
    not read. *)
Definition prompt_for_secrets_password (tr : list event)
    : result (option string) * list event :=
  if github_token out then (Ok None, tr)
  else if path_exists out "cluster/secrets.yaml.enc" || path_exists out "secrets.yaml.enc"
  then ask_password tr
  else
    let response := input tr prompt_option in
    let tr := tr ++ [Asked prompt_option response] in
    if decide (Py.strip Py.is_space response = "1")
    then
      let token := getpass tr prompt_token in
      (Ok None, tr ++ [Asked prompt_token token])
    else if decide (Py.strip Py.is_space response = "2")
    then
      let custom_path := input tr prompt_path in
      let tr := tr ++ [Asked prompt_path custom_path] in
      if path_exists out (Py.strip Py.is_space custom_path) then ask_password tr
      else (Raise FileNotFoundError, tr)
    else (Ok None, tr).

(** [load_secrets(password)]: nothing without a password; with one, what
    the secrets file gives. *)
Definition load_secrets (password : option string) : result (list (string * string)) :=
  match password with
  | None => Ok []
  | Some password =>
      match secrets out password with
      | SecretsRaised e => Raise e
      | SecretsLoaded secrets_env => Ok secrets_env
      end
  end.

(** The two loops of [preview_execution_plan] over the jobs of a batch:
    the peak resources, then the lines of the jobs. *)
Definition preview_batch (self : Submitter) (batch : list string) : result unit :=
  _ ← foldl (λ acc job_key,
               _ ← acc;
               match Py.get (job_configs self) job_key with
               | None => Raise KeyError
               | Some config => _ ← parse_time_limit int (time_limit config); Ok ()
               end)
        (Ok ()) batch;
  foldl (λ acc job_key,
           _ ← acc;
           match Py.get (job_configs self) job_key with
           | None => Raise KeyError
           | Some config => _ ← job_hours int config; Ok ()
           end)
    (Ok ()) batch.

(** [preview_execution_plan(jobs_to_run)].  The method writes the plan to
    the log, which is not represented; what is kept of it are the
    operations that can raise, in the order of the source: the schedule, the
    resource totals (whether they raise does not depend on the order in
    which the set is gone through), in preview mode the unpacking of the
    keys of the jobs that are skipped, and the two loops over each batch. *)
Definition preview_execution_plan (self : Submitter) (jobs_to_run : gset string)
    : result unit :=
  execution_order ← from_option Ok OutOfFuel (get_execution_order self (Some jobs_to_run));
  _ ← calculate_resource_totals int (job_configs self) (elements jobs_to_run);
  _ ← (if dry_run self && bool_decide (size jobs_to_run < length (job_configs self))
       then keys_where (λ _ _, true)
              (elements (list_to_set (job_keys self) ∖ jobs_to_run : gset string))
       else Ok []);
  foldl (λ acc batch, _ ← acc; preview_batch self batch) (Ok ()) execution_order.

(** The two statements of [run_pipeline] under its comment "Load
    everything (only once)": the registry, unless it is there already, and
    the dependency graph. *)
Definition load_everything (self : Submitter) : result Submitter :=
  self ← (if decide (job_configs self = [])
          then match params_file out with
               | ParamsRaised e => Raise e
               | ParamsLoaded stages => Ok (load_job_configs self stages)
               end
          else Ok self);
  load_dependencies_from_dvc self (dag out).

(** [run_pipeline(target_pattern)], the whole method: the value returned
    with the submitter at the end, or the exception raised, and the trace
    of the run.  Its last part, from the confirmation on, is
    [run_pipeline] above, with a script and a user that have seen the
    questions about the secrets. *)
Definition run_pipeline (self : Submitter) (target_pattern : option string)
    : result (bool * Submitter) * list event :=
  if negb check_dvc_available then (Raise SystemExit, [])
  else
    match load_everything self with
    | Raise e => (Raise e, [])
    | OutOfFuel => (OutOfFuel, [])
    | Ok self =>
        let asked := prompt_for_secrets_password [] in
        let plan :=
          secrets_password ← asked.1;
          secrets_env ← load_secrets secrets_password;
          job_status ← check_job_status json_loads self (status out);
          jobs_to_run ← filter_jobs_by_status fnmatch re_compile self job_status
                          false target_pattern;
          if decide (jobs_to_run = ∅) then Ok jobs_to_run
          else _ ← preview_execution_plan self jobs_to_run; Ok jobs_to_run in
        match plan with
        | Raise e => (Raise e, asked.2)
        | OutOfFuel => (OutOfFuel, asked.2)
        | Ok jobs_to_run =>
            match run_pipeline run_group_id
                    (λ tr, trigger (asked.2 ++ tr)) (λ tr, input (asked.2 ++ tr))
                    self jobs_to_run with
            | None => (OutOfFuel, asked.2)
            | Some (outcome, p) => (Ok (returned outcome, submitter p), asked.2 ++ trace p)
            end
        end
    end.

End Run.
End PipelineSubmitter.

(** *** Vocabulary for the properties of the whole run *)

(** A question of [prompt_for_secrets_password]. *)
Definition secrets_question (ev : event) : Prop :=
  ∃ prompt reply,
    ev = Asked prompt reply
    ∧ prompt ∈ [prompt_option; prompt_token; prompt_path; prompt_password].

(** *** Example: the scenario from the start *)

(** The oracle is there, the parameter file has the three jobs, the graph
    has the edge from [a:x] to [b:z], the secrets file is in the working
    directory and opens, and the status query reports whatever
    [json_loads] reads from it. *)
Definition outside_scenario : outside :=
  {| dvc_version := VersionShown "3.0.0";
     params_file := ParamsLoaded stages_scenario;
     dag := dag_scenario;
     github_token := false;
     path_exists := λ file, bool_decide (file = "secrets.yaml.enc");
     secrets := λ _, SecretsLoaded [("GITHUB_TOKEN", "token")];
     status := DvcExited 0 "{}" |}.

(** The same with a status query that prints nothing. *)
Definition outside_up_to_date : outside :=
  {| dvc_version := VersionShown "3.0.0";
     params_file := ParamsLoaded stages_scenario;
     dag := dag_scenario;
     github_token := false;
     path_exists := λ file, bool_decide (file = "secrets.yaml.enc");
     secrets := λ _, SecretsLoaded [("GITHUB_TOKEN", "token")];
     status := DvcExited 0 " " |}.

(** A user who types the same password at every hidden prompt. *)
Definition getpass_secret (tr : list event) (prompt : string) : string := "secret".

(** A submitter as [__init__] leaves it in preview mode. *)
Definition submitter_preview : Submitter :=
  {| dry_run := true; job_configs := []; dependencies := []; submitted_jobs := ∅ |}.

(** * Lock file merger (cluster/safe_dvc_merger.py) *)

(** An entry of the [outs] list of a stage in a lock file: its [path] and
    [md5] keys, [None] when the key is not there. *)
Record output := {
  path : option string;
  md5 : option string;
}.

(** The counters that [merge_locks] returns. *)
Record merge_stats := {
  added : nat;
  updated : nat;
  skipped : nat;
}.

Section Merger.
(** The data of a stage of a lock file, of which the merger reads only the
    [outs] list ([stage_data.get("outs", [])]). *)
Variable stage_data : Type.
Variable outs : stage_data → list output.

(** A lock file: its [stages] dict ([None] when the key is not there) and
    the rest of its content. *)
Variable other_content : Type.

Record lock := {
  stages : option (list (string * stage_data));
  other : other_content;
}.

(** [_get_output_hashes(stage_data)]: the dict from output path to hash;
    of two outputs with the same path the later one counts. *)
Definition _get_output_hashes (data : stage_data) : gmap string string :=
  foldl (λ outputs (entry : output),
           <[default "" (path entry) := default "" (md5 entry)]> outputs)
    ∅ (outs data).

(** The body of the loop of [merge_locks]: one stage of the branch. *)
Definition merge_stage (st : list (string * stage_data) * merge_stats)
    (item : string * stage_data) : list (string * stage_data) * merge_stats :=
  match Py.get st.1 item.1 with
  | None =>
      (set_item st.1 item.1 item.2,
       {| added := S (added st.2); updated := updated st.2; skipped := skipped st.2 |})
  | Some existing =>
      if decide (_get_output_hashes existing ≠ _get_output_hashes item.2)
      then (set_item st.1 item.1 item.2,
            {| added := added st.2; updated := S (updated st.2); skipped := skipped st.2 |})
      else (st.1,
            {| added := added st.2; updated := updated st.2; skipped := S (skipped st.2) |})
  end.

(** [merge_locks(base_lock, branch_lock)]: the merged lock and the counters.
    The source updates the [stages] dict of [base_lock] in place (the copy
    it starts from is shallow); its caller goes on with the returned lock
    only, which is what the function gives here. *)
Definition merge_locks (base_lock branch_lock : lock) : lock * merge_stats :=
  let r := foldl merge_stage
             (default [] (stages base_lock),
              {| added := 0; updated := 0; skipped := 0 |})
             (default [] (stages branch_lock)) in
  ({| stages := Some r.1; other := other base_lock |}, r.2).

End Merger.

Arguments stages {_ _} _.
Arguments other {_ _} _.

(** A lock file of two stages, for the examples: a stage is given by its
    list of outputs. *)
Definition out_file (file hash : string) : output :=
  {| path := Some file; md5 := Some hash |}.

Definition lock_base : lock (list output) unit :=
  {| stages := Some [("prep", [out_file "data.csv" "111"]);
                     ("train", [out_file "model.bin" "222"])];
     other := tt |}.

Definition lock_branch : lock (list output) unit :=
  {| stages := Some [("train", [out_file "model.bin" "333"]);
                     ("eval", [out_file "report.txt" "444"])];
     other := tt |}.

(** * Properties *)

(** ** Facts about the batch scheduler *)

Section SchedulerFacts.
Variable deps_of : list (string * list string).
Variable all_jobs : gset string.


Lemma on_completed_seen c st item done :
  seen_inv all_jobs st.1 (done ++ st.2) →
  seen_inv all_jobs (on_completed all_jobs c st item).1 (done ++ (on_completed all_jobs c st item).2).
Proof.
  intros [Hnd Hle]. unfold on_completed.
  destruct (decide (item.1 ∈ all_jobs ∧ c ∈ item.2)) as [[Hin _]|]; [|done].
  cbn zeta. rewrite lookup_total_insert_eq.
  destruct (decide ((st.1 !!! item.1 - 1)%Z = 0%Z)) as [Hz|Hz]; cbn [fst snd].
  - assert (item.1 ∉ done ++ st.2) as Hfresh.
    { intros Hj. apply Hle in Hj as [_ Hj]. lia. }
    split.
    + rewrite app_assoc. apply NoDup_app. split_and!; [done| |apply NoDup_singleton].
      intros x Hx ->%list_elem_of_singleton. done.
    + intros j. rewrite app_assoc, elem_of_app, list_elem_of_singleton.
      intros [Hj| ->].
      * destruct (Hle j Hj) as [? ?]. split; [done|].
        destruct (decide (item.1 = j)) as [<-|Hne]; [done|].
        by rewrite lookup_total_insert_ne.
      * rewrite lookup_total_insert_eq. split; [done|lia].
  - split; [done|]. intros j Hj. destruct (Hle j Hj) as [? ?]. split; [done|].
    destruct (decide (item.1 = j)) as [<-|Hne].
    + rewrite lookup_total_insert_eq. lia.
    + by rewrite lookup_total_insert_ne.
Qed.

Lemma foldl_on_completed_seen c l st done :
  seen_inv all_jobs st.1 (done ++ st.2) →
  seen_inv all_jobs (foldl (on_completed all_jobs c) st l).1 (done ++ (foldl (on_completed all_jobs c) st l).2).
Proof.
  revert st. induction l as [|item l IH]; intros st Hst; [done|].
  cbn [foldl]. apply IH. by apply on_completed_seen.
Qed.

Lemma complete_job_seen c st done :
  seen_inv all_jobs st.1 (done ++ st.2) →
  seen_inv all_jobs (complete_job deps_of all_jobs st c).1 (done ++ (complete_job deps_of all_jobs st c).2).
Proof. apply foldl_on_completed_seen. Qed.

Lemma foldl_complete_job_seen batch st done :
  seen_inv all_jobs st.1 (done ++ st.2) →
  seen_inv all_jobs (foldl (complete_job deps_of all_jobs) st batch).1 (done ++ (foldl (complete_job deps_of all_jobs) st batch).2).
Proof.
  revert st. induction batch as [|c batch IH]; intros st Hst; [done|].
  cbn [foldl]. apply IH. by apply complete_job_seen.
Qed.

Lemma process_batch_seen in_degree batch done :
  seen_inv all_jobs in_degree done →
  seen_inv all_jobs (process_batch deps_of all_jobs in_degree batch).1 (done ++ (process_batch deps_of all_jobs in_degree batch).2).
Proof.
  intros H. apply foldl_complete_job_seen. cbn [fst snd]. by rewrite app_nil_r.
Qed.

Lemma seen_length in_degree seen :
  seen_inv all_jobs in_degree seen → length seen ≤ size all_jobs.
Proof.
  intros [Hnd Hin]. rewrite <- (size_list_to_set (C := gset string)) by done.
  apply subseteq_size. intros j Hj%elem_of_list_to_set. by apply Hin.
Qed.

(** The loop ends: every round moves at least one new job of the run set
    to the output. *)
Lemma schedule_loop_enough_fuel fuel in_degree queue order :
  seen_inv all_jobs in_degree (concat order ++ queue) →
  size all_jobs < fuel + length (concat order) →
  ∃ order', schedule_loop deps_of all_jobs fuel in_degree queue order = Some order'
    ∧ ∃ in_degree', seen_inv all_jobs in_degree' (concat order').
Proof.
  revert in_degree queue order.
  induction fuel as [|fuel IH]; intros in_degree queue order Hinv Hfuel.
  - destruct queue as [|q queue].
    + cbn. eexists; split; [done|]. exists in_degree. by rewrite app_nil_r in Hinv.
    + apply seen_length in Hinv. rewrite length_app in Hinv. cbn in *. lia.
  - destruct queue as [|q queue].
    + cbn. eexists; split; [done|]. exists in_degree. by rewrite app_nil_r in Hinv.
    + cbn [schedule_loop]. apply IH.
      * rewrite concat_app. cbn [concat]. rewrite app_nil_r.
        by apply process_batch_seen.
      * rewrite concat_app, !length_app. cbn. lia.
Qed.

Lemma schedule_loop_more_fuel fuel fuel' in_degree queue order order' :
  schedule_loop deps_of all_jobs fuel in_degree queue order = Some order' →
  fuel ≤ fuel' →
  schedule_loop deps_of all_jobs fuel' in_degree queue order = Some order'.
Proof.
  revert fuel' in_degree queue order.
  induction fuel as [|fuel IH]; intros fuel' in_degree queue order Hrun Hle.
  - destruct queue; [|done]. by destruct fuel'.
  - destruct queue as [|q queue]; [by destruct fuel'|].
    destruct fuel' as [|fuel']; [lia|].
    cbn [schedule_loop] in *. apply IH; [done|lia].
Qed.

Lemma initial_seen :
  seen_inv all_jobs (initial_in_degree deps_of all_jobs)
    (initial_queue all_jobs (initial_in_degree deps_of all_jobs)).
Proof.
  unfold initial_queue. split.
  - apply NoDup_filter, NoDup_elements.
  - intros j [Hz Hj]%list_elem_of_filter. apply elem_of_elements in Hj.
    split; [done|lia].
Qed.

Lemma execution_order_total :
  ∃ order, execution_order_fuel deps_of all_jobs (S (size all_jobs)) = Some order
    ∧ (∀ fuel, size all_jobs < fuel →
         execution_order_fuel deps_of all_jobs fuel = Some order)
    ∧ NoDup (concat order)
    ∧ ∀ j, j ∈ concat order → j ∈ all_jobs.
Proof.
  destruct (schedule_loop_enough_fuel (S (size all_jobs))
    (initial_in_degree deps_of all_jobs)
    (initial_queue all_jobs (initial_in_degree deps_of all_jobs)) [])
    as (order & Hrun & deg & Hnd & Hin).
  { apply initial_seen. }
  { cbn. lia. }
  exists order. split_and!; [done| |done|intros j Hj; by apply Hin].
  intros fuel Hfuel. eapply schedule_loop_more_fuel; [exact Hrun|lia].
Qed.
End SchedulerFacts.

(** Counting the completed dependencies of a job. *)
Section Counting.
Context (all_jobs : gset string) (deps done : list string).
Hypothesis done_nodup : NoDup done.
Hypothesis done_in : ∀ c, c ∈ done → c ∈ all_jobs.

Lemma completed_submseteq :
  filter (λ c, c ∈ deps) done ⊆+ filter (λ dep, dep ∈ all_jobs) deps.
Proof.
  apply NoDup_submseteq; [by apply NoDup_filter|].
  intros x [Hx Hd]%list_elem_of_filter. apply list_elem_of_filter. auto.
Qed.

Lemma completed_le :
  length (filter (λ c, c ∈ deps) done)
  ≤ length (filter (λ dep, dep ∈ all_jobs) deps).
Proof. apply submseteq_length, completed_submseteq. Qed.

Lemma completed_all d :
  length (filter (λ dep, dep ∈ all_jobs) deps)
  ≤ length (filter (λ c, c ∈ deps) done) →
  d ∈ filter (λ dep, dep ∈ all_jobs) deps → d ∈ done.
Proof.
  intros Hlen Hd.
  pose proof (submseteq_length_Permutation _ _ completed_submseteq Hlen) as Hp.
  rewrite <- Hp in Hd. by apply list_elem_of_filter in Hd as [_ ?].
Qed.

Lemma completed_full :
  NoDup deps →
  (∀ d, d ∈ filter (λ dep, dep ∈ all_jobs) deps → d ∈ done) →
  length (filter (λ c, c ∈ deps) done)
  = length (filter (λ dep, dep ∈ all_jobs) deps).
Proof.
  intros Hnd Hall. apply Permutation_length, NoDup_Permutation.
  - by apply NoDup_filter.
  - by apply NoDup_filter.
  - intros x. split.
    + intros [Hx Hd]%list_elem_of_filter. apply list_elem_of_filter. auto.
    + intros Hx. apply list_elem_of_filter. split; [|by apply Hall].
      by apply list_elem_of_filter in Hx as [_ ?].
Qed.
End Counting.

(** Reading a dict with distinct keys. *)
Lemma get_not_key {V} (d : list (string * V)) k : k ∉ d.*1 → Py.get d k = None.
Proof.
  induction d as [|[k' v] d IH]; [done|]. cbn. intros Hk.
  apply not_elem_of_cons in Hk as [Hne Hk]. rewrite decide_False by done. auto.
Qed.

Lemma get_list_cons_eq {V} (d : list (string * list V)) k v :
  Py.get_list ((k, v) :: d) k = v.
Proof. unfold Py.get_list. cbn. by rewrite decide_True. Qed.

Lemma get_list_cons_ne {V} (d : list (string * list V)) k k' v :
  k' ≠ k → Py.get_list ((k', v) :: d) k = Py.get_list d k.
Proof. intros. unfold Py.get_list. cbn. by rewrite decide_False. Qed.

Lemma get_list_not_key {V} (d : list (string * list V)) k :
  k ∉ d.*1 → Py.get_list d k = [].
Proof. intros. unfold Py.get_list. by rewrite get_not_key. Qed.

Lemma get_list_item {V} (d : list (string * list V)) k v :
  NoDup d.*1 → (k, v) ∈ d → Py.get_list d k = v.
Proof.
  induction d as [|[k' v'] d IH]; [by intros _ ?%elem_of_nil|].
  rewrite fmap_cons. intros [Hk Hnd]%NoDup_cons [Heq|Hin]%elem_of_cons.
  - injection Heq as -> ->. apply get_list_cons_eq.
  - rewrite get_list_cons_ne; [auto|].
    intros ->. apply Hk. apply list_elem_of_fmap. by exists (k, v).
Qed.

Section SchedulerCounters.
Variable deps_of : list (string * list string).
Variable all_jobs : gset string.

Lemma foldl_in_degree_entry l m j :
  NoDup l.*1 → j ∈ all_jobs →
  foldl (in_degree_entry all_jobs) m l !!! j
  = match Py.get l j with
    | Some deps => Z.of_nat (length (filter (λ dep, dep ∈ all_jobs) deps))
    | None => m !!! j
    end.
Proof.
  intros Hnd Hj. revert m Hnd. induction l as [|[k v] l IH]; intros m Hnd; [done|].
  apply NoDup_cons in Hnd as [Hk Hnd]. cbn [foldl Py.get].
  rewrite IH by done. unfold in_degree_entry. cbn [fst snd].
  destruct (decide (k = j)) as [->|Hne].
  - rewrite get_not_key by done. rewrite decide_True by done.
    by rewrite lookup_total_insert_eq.
  - destruct (Py.get l j); [done|].
    destruct (decide (k ∈ all_jobs)); [|done]. by rewrite lookup_total_insert_ne.
Qed.

Lemma initial_in_degree_spec j :
  NoDup deps_of.*1 → j ∈ all_jobs →
  initial_in_degree deps_of all_jobs !!! j
  = Z.of_nat (length (valid_deps deps_of all_jobs j)).
Proof.
  intros Hnd Hj. unfold initial_in_degree, valid_deps, Py.get_list.
  rewrite foldl_in_degree_entry by done.
  destruct (Py.get deps_of j); [done|]. cbn.
  rewrite lookup_total_alt, lookup_gset_to_gmap, option_guard_True by done. done.
Qed.

(** Removing [c] lowers exactly the counters of the run-set jobs that list
    [c], and queues those that reach zero. *)
Lemma foldl_on_completed_spec c l st :
  NoDup l.*1 →
  (∀ j, (foldl (on_completed all_jobs c) st l).1 !!! j
        = (st.1 !!! j - if decide (j ∈ all_jobs ∧ c ∈ Py.get_list l j)
                        then 1 else 0)%Z)
  ∧ (∀ j, j ∈ (foldl (on_completed all_jobs c) st l).2
        ↔ j ∈ st.2 ∨ (j ∈ all_jobs ∧ c ∈ Py.get_list l j ∧ st.1 !!! j = 1%Z)).
Proof.
  revert st. induction l as [|[k v] l IH]; intros st Hnd.
  - cbn. split; intros j.
    + rewrite decide_False; [lia|]. intros [_ Hc]. by apply elem_of_nil in Hc.
    + split; [auto|]. intros [?|(_ & Hc & _)]; [done|]. by apply elem_of_nil in Hc.
  - apply NoDup_cons in Hnd as [Hk Hnd]. cbn [foldl].
    destruct (IH (on_completed all_jobs c st (k, v)) Hnd) as [IH1 IH2].
    assert (∀ j, k ≠ j → (on_completed all_jobs c st (k, v)).1 !!! j = st.1 !!! j) as Hother.
    { intros j Hne. unfold on_completed. cbn [fst snd].
      destruct (decide (k ∈ all_jobs ∧ c ∈ v)); [|done]. cbn zeta.
      destruct (decide _); cbn [fst]; by rewrite lookup_total_insert_ne. }
    split; intros j.
    + rewrite IH1. destruct (decide (k = j)) as [->|Hne].
      * rewrite get_list_not_key, get_list_cons_eq by done.
        rewrite (decide_False (P := _ ∧ _ ∈ [])); [|intros [_ Hc]; by apply elem_of_nil in Hc].
        unfold on_completed. cbn [fst snd].
        destruct (decide (j ∈ all_jobs ∧ c ∈ v)); [|lia]. cbn zeta.
        destruct (decide _); cbn [fst]; rewrite lookup_total_insert_eq; lia.
      * rewrite Hother, get_list_cons_ne by done. done.
    + rewrite IH2. destruct (decide (k = j)) as [->|Hne].
      * rewrite get_list_not_key, get_list_cons_eq by done.
        unfold on_completed. cbn [fst snd].
        destruct (decide (j ∈ all_jobs ∧ c ∈ v)) as [[? ?]|Hno].
        -- cbn zeta. rewrite lookup_total_insert_eq.
           destruct (decide _) as [Hz|Hz]; cbn [fst snd].
           ++ rewrite elem_of_app, list_elem_of_singleton. split.
              ** intros [[?|_]|(_ & Hc & _)]; [by left| |by apply elem_of_nil in Hc].
                 right. split_and!; [done..|lia].
              ** intros [?|?]; left; [by left|by right].
           ++ split.
              ** intros [?|(_ & Hc & _)]; [by left|by apply elem_of_nil in Hc].
              ** intros [?|(_ & _ & ?)]; [by left|lia].
        -- split.
           ++ intros [?|(_ & Hc & _)]; [by left|by apply elem_of_nil in Hc].
           ++ intros [?|(? & ? & _)]; [by left|]. destruct Hno. done.
      * rewrite Hother, get_list_cons_ne by done.
        enough (j ∈ (on_completed all_jobs c st (k, v)).2 ↔ j ∈ st.2) as -> by done.
        unfold on_completed. cbn [fst snd].
        destruct (decide (k ∈ all_jobs ∧ c ∈ v)); [|done]. cbn zeta.
        destruct (decide _); cbn [snd]; [|done].
        rewrite elem_of_app, list_elem_of_singleton. split; [intros [?|?]; [done|by simplify_eq]|by left].
Qed.
End SchedulerCounters.

Lemma elem_of_concat {A} (ls : list (list A)) x :
  x ∈ concat ls ↔ ∃ i b, ls !! i = Some b ∧ x ∈ b.
Proof.
  induction ls as [|l ls IH]; cbn.
  - split; [by intros ?%elem_of_nil|]. by intros (i & b & ? & _).
  - rewrite elem_of_app, IH. split.
    + intros [Hx|(i & b & Hi & Hx)]; [by exists 0, l|by exists (S i), b].
    + intros ([|i] & b & Hi & Hx); [left; by simplify_eq/=|right; by exists i, b].
Qed.

Lemma elem_of_concat_take {A} (ls : list (list A)) n x :
  x ∈ concat (take n ls) ↔ ∃ i b, i < n ∧ ls !! i = Some b ∧ x ∈ b.
Proof.
  rewrite elem_of_concat. split.
  - intros (i & b & Hi & Hx). apply lookup_take_Some in Hi as [? ?]. by exists i, b.
  - intros (i & b & ? & Hi & Hx). exists i, b. split; [|done].
    by apply lookup_take_Some.
Qed.

Section SchedulerRounds.
Variable deps_of : list (string * list string).
Variable all_jobs : gset string.
Hypothesis keys_nodup : NoDup deps_of.*1.

Lemma complete_job_round c pending done st :
  round_inv deps_of all_jobs st.1 done (c :: pending) st.2 →
  round_inv deps_of all_jobs (complete_job deps_of all_jobs st c).1
    (done ++ [c]) pending (complete_job deps_of all_jobs st c).2.
Proof.
  intros (Hseen & [Hcnt Hzero] & Hq).
  destruct (foldl_on_completed_spec all_jobs c deps_of st keys_nodup) as [S1 S2].
  fold (complete_job deps_of all_jobs st c) in S1, S2.
  assert (∀ q, (done ++ [c]) ++ pending ++ q = (done ++ c :: pending) ++ q) as Hre.
  { intros q. by rewrite <- !app_assoc. }
  assert (seen_inv all_jobs (complete_job deps_of all_jobs st c).1
            ((done ++ [c]) ++ pending ++ (complete_job deps_of all_jobs st c).2))
    as Hseen'.
  { rewrite Hre. apply complete_job_seen. by rewrite <- app_assoc. }
  assert (∀ j, j ∈ all_jobs →
    (complete_job deps_of all_jobs st c).1 !!! j
    = (Z.of_nat (length (valid_deps deps_of all_jobs j))
       - Z.of_nat (completed_count deps_of j (done ++ [c])))%Z) as Hcnt'.
  { intros j Hj. rewrite S1, (Hcnt j Hj). unfold completed_count.
    rewrite filter_app, length_app, filter_cons, filter_nil.
    destruct (decide (c ∈ Py.get_list deps_of j)).
    - rewrite decide_True by done. cbn. lia.
    - rewrite decide_False by (by intros [_ ?]). cbn. lia. }
  split_and!; [done|split; [done|]|].
  - intros j Hj Hz. rewrite S1 in Hz.
    destruct (decide (j ∈ all_jobs ∧ c ∈ Py.get_list deps_of j)) as [[_ Hc]|_].
    + rewrite !elem_of_app. right; right. apply S2. right. split_and!; [done..|lia].
    + assert (st.1 !!! j = 0%Z) as Hz' by lia.
      apply Hzero in Hz'; [|done]. rewrite Hre.
      rewrite app_assoc in Hz'. apply elem_of_app in Hz' as [?|?].
      * apply elem_of_app. by left.
      * apply elem_of_app. right. apply S2. by left.
  - intros j [Hj|(Hj & Hc & Hone)]%S2.
    + intros d Hd. rewrite <- app_assoc. cbn [app]. by apply (Hq j).
    + intros d Hd. apply elem_of_app. left.
      destruct Hseen' as [Hnd Hin].
      rewrite app_assoc in Hnd. apply NoDup_app in Hnd as (Hnd & _ & _).
      apply (completed_all all_jobs (Py.get_list deps_of j) (done ++ [c])).
      * apply NoDup_app in Hnd as (Hnd & _ & _). done.
      * intros x Hx. apply Hin. apply elem_of_app. by left.
      * pose proof (Hcnt' j Hj) as Heq. rewrite S1, decide_True in Heq by done.
        unfold completed_count, valid_deps in Heq. lia.
      * done.
Qed.

Lemma foldl_complete_job_round pending done st :
  round_inv deps_of all_jobs st.1 done pending st.2 →
  round_inv deps_of all_jobs (foldl (complete_job deps_of all_jobs) st pending).1
    (done ++ pending) [] (foldl (complete_job deps_of all_jobs) st pending).2.
Proof.
  revert done st. induction pending as [|c pending IH]; intros done st Hst.
  - cbn. by rewrite app_nil_r.
  - cbn [foldl]. replace (done ++ c :: pending) with ((done ++ [c]) ++ pending)
      by (by rewrite <- app_assoc).
    apply IH. by apply complete_job_round.
Qed.

Lemma loop_inv_step in_degree q queue order :
  loop_inv deps_of all_jobs in_degree (q :: queue) order →
  loop_inv deps_of all_jobs (process_batch deps_of all_jobs in_degree (q :: queue)).1
    (process_batch deps_of all_jobs in_degree (q :: queue)).2 (order ++ [q :: queue]).
Proof.
  intros (Hround & Hqs & Hsound).
  pose proof (foldl_complete_job_round (q :: queue) (concat order) (in_degree, []) Hround)
    as (Hseen & Hcnt & Hq').
  fold (process_batch deps_of all_jobs in_degree (q :: queue)) in Hseen, Hcnt, Hq'.
  rewrite app_nil_r in Hq'. cbn [app] in Hseen, Hcnt.
  assert (concat (order ++ [q :: queue]) = concat order ++ q :: queue) as Hcat.
  { rewrite concat_app. cbn. by rewrite app_nil_r. }
  split_and!.
  - rewrite Hcat. split_and!.
    + by rewrite app_nil_r.
    + by rewrite app_nil_r.
    + by intros j ?%elem_of_nil.
  - by rewrite Hcat.
  - intros i b j Hi Hj. apply lookup_app_Some in Hi as [Hi|[Hlen Hi]].
    + rewrite take_app_le by (apply Nat.lt_le_incl; by eapply lookup_lt_Some).
      by eapply Hsound.
    + apply list_lookup_singleton_Some in Hi as [Hi <-].
      replace i with (length order) by lia. rewrite take_app_length. by apply Hqs.
Qed.

Lemma schedule_loop_inv fuel in_degree queue order order' :
  loop_inv deps_of all_jobs in_degree queue order →
  schedule_loop deps_of all_jobs fuel in_degree queue order = Some order' →
  ∃ in_degree', loop_inv deps_of all_jobs in_degree' [] order'.
Proof.
  revert in_degree queue order.
  induction fuel as [|fuel IH]; intros in_degree queue order Hinv Hrun.
  - destruct queue; [|done]. cbn in Hrun. simplify_eq. by exists in_degree.
  - destruct queue as [|q queue].
    + cbn in Hrun. simplify_eq. by exists in_degree.
    + cbn [schedule_loop] in Hrun. eapply IH; [|exact Hrun]. by apply loop_inv_step.
Qed.

Lemma initial_loop_inv :
  loop_inv deps_of all_jobs (initial_in_degree deps_of all_jobs)
    (initial_queue all_jobs (initial_in_degree deps_of all_jobs)) [].
Proof.
  assert (∀ j, j ∈ initial_queue all_jobs (initial_in_degree deps_of all_jobs) →
               deps_done deps_of all_jobs [] j) as Hq.
  { intros j [Hz Hj%elem_of_elements]%list_elem_of_filter d Hd.
    rewrite initial_in_degree_spec in Hz by done.
    destruct (valid_deps deps_of all_jobs j); [done|cbn in Hz; lia]. }
  split_and!; [split_and!|done|by intros i b j ?]; cbn [concat app].
  - rewrite app_nil_r. apply initial_seen.
  - split.
    + intros j Hj. rewrite initial_in_degree_spec by done. cbn. lia.
    + intros j Hj Hz. rewrite app_nil_r. apply list_elem_of_filter.
      split; [done|]. by apply elem_of_elements.
  - by intros j ?%elem_of_nil.
Qed.

(** Soundness of the schedule: in-run dependencies come strictly earlier. *)
Lemma execution_order_sound fuel order :
  execution_order_fuel deps_of all_jobs fuel = Some order →
  batches_sound deps_of all_jobs order.
Proof.
  intros Hrun. destruct (schedule_loop_inv _ _ _ _ _ initial_loop_inv Hrun) as (? & _ & _ & ?).
  done.
Qed.

(** A job whose in-run dependencies are all scheduled is scheduled too,
    provided its dependency list has no repetition. *)
Lemma execution_order_progress fuel order j :
  execution_order_fuel deps_of all_jobs fuel = Some order →
  j ∈ all_jobs → NoDup (Py.get_list deps_of j) →
  deps_done deps_of all_jobs (concat order) j →
  j ∈ concat order.
Proof.
  intros Hrun Hj Hnd Hdeps.
  destruct (schedule_loop_inv _ _ _ _ _ initial_loop_inv Hrun)
    as (deg & (Hseen & [Hcnt Hzero] & _) & _ & _).
  cbn [app] in *. rewrite app_nil_r in *.
  apply Hzero; [done|]. rewrite Hcnt by done.
  destruct Hseen as [Hnd' Hin]. unfold completed_count.
  rewrite (completed_full all_jobs); [unfold valid_deps; lia|done| |done|done].
  intros c Hc. by apply Hin.
Qed.

Lemma batches_sound_tc order j d :
  batches_sound deps_of all_jobs order →
  tc (dep_edge deps_of all_jobs) j d →
  ∀ i b, order !! i = Some b → j ∈ b →
  ∃ i' b', i' < i ∧ order !! i' = Some b' ∧ d ∈ b'.
Proof.
  intros Hsound. induction 1 as [j d [_ Hd]|j d e [_ Hd] _ IH]; intros i b Hi Hj.
  - apply elem_of_concat_take. by eapply Hsound.
  - pose proof (Hsound i b j Hi Hj d Hd) as (i' & b' & Hlt & Hi' & Hd')%elem_of_concat_take.
    destruct (IH i' b' Hi' Hd') as (i'' & b'' & ? & ? & ?).
    exists i'', b''. split_and!; [lia|done..].
Qed.

(** A job on a cycle inside the run set is never scheduled. *)
Lemma execution_order_no_cycle fuel order j :
  execution_order_fuel deps_of all_jobs fuel = Some order →
  tc (dep_edge deps_of all_jobs) j j → j ∉ concat order.
Proof.
  intros Hrun Hcyc (i & b & Hi & Hj)%elem_of_concat.
  pose proof (execution_order_sound _ _ Hrun) as Hsound.
  revert b Hi Hj. induction (lt_wf i) as [i _ IH]. intros b Hi Hj.
  destruct (batches_sound_tc order j j Hsound Hcyc i b Hi Hj) as (i' & b' & ? & ? & ?).
  by eapply (IH i').
Qed.
End SchedulerRounds.

Lemma NoDup_concat_unique {A} (ls : list (list A)) i i' b b' x :
  NoDup (concat ls) → ls !! i = Some b → ls !! i' = Some b' →
  x ∈ b → x ∈ b' → i = i'.
Proof.
  revert i i'. induction ls as [|l ls IH]; intros i i' Hnd Hi Hi' Hx Hx'; [done|].
  cbn in Hnd. apply NoDup_app in Hnd as (_ & Hdisj & Hnd).
  destruct i as [|i], i' as [|i']; simplify_eq/=; [done| | |f_equal; eauto].
  - destruct (Hdisj x Hx). apply elem_of_concat. eauto.
  - destruct (Hdisj x Hx'). apply elem_of_concat. eauto.
Qed.

Lemma get_list_nodup (d : list (string * list string)) j :
  Forall (λ item, NoDup item.2) d → NoDup (Py.get_list d j).
Proof.
  unfold Py.get_list. induction d as [|[k v] l IH]; intros Hall; [constructor|].
  apply Forall_cons in Hall as [Hv Hall]. cbn.
  destruct (decide (k = j)); [done|auto].
Qed.

Section SchedulerComplete.
Variable deps_of : list (string * list string).
Variable all_jobs : gset string.
Hypothesis deps_wf : wf_dependencies deps_of.
Hypothesis no_cycle : acyclic deps_of all_jobs.

Lemma dep_edge_sn j : sn (dep_edge deps_of all_jobs) j.
Proof.
  apply tc_finite_sn.
  - intros x Hx. by apply (no_cycle x).
  - exists (elements all_jobs). intros d Hd. apply elem_of_elements.
    induction Hd as [x y [_ Hy]|x y z _ _ IH]; [|done].
    by apply list_elem_of_filter in Hy as [? _].
Qed.

(** Without a cycle, every job of the run set is scheduled. *)
Lemma execution_order_complete fuel order j :
  execution_order_fuel deps_of all_jobs fuel = Some order →
  j ∈ all_jobs → j ∈ concat order.
Proof.
  intros Hrun. induction (dep_edge_sn j) as [j _ IH]. intros Hj.
  destruct deps_wf as [Hkeys Hlists].
  apply (execution_order_progress deps_of all_jobs Hkeys fuel); [done..|by apply get_list_nodup|].
  intros d Hd. apply IH; [by split|].
  by apply list_elem_of_filter in Hd as [? _].
Qed.
End SchedulerComplete.

(** Acyclicity from a ranking of the jobs. *)
Lemma acyclic_of_rank deps_of all_jobs (rank : string → nat) :
  (∀ j d, dep_edge deps_of all_jobs j d → rank d < rank j) →
  acyclic deps_of all_jobs.
Proof.
  intros Hrank j Hcyc.
  assert (∀ x y, tc (dep_edge deps_of all_jobs) x y → rank y < rank x) as Hlt.
  { induction 1 as [x y Hxy|x y z Hxy _ IH]; [by apply Hrank|].
    apply Hrank in Hxy. lia. }
  apply Hlt in Hcyc. lia.
Qed.

(** C9. For every finite job set and every dependency mapping, cyclic or not,
    [get_execution_order] terminates: one round per job of the set and one
    more are enough, and more fuel does not change the result.  No job
    identity occurs twice in the batches of the output, and a job lying on a
    dependency cycle confined to the job set occurs in no batch (the last
    point for a mapping that is a dict, i.e. has distinct keys). *)
Theorem get_execution_order_terminates (self : Submitter)
    (jobs_to_include : option (gset string)) :
  ∃ order,
    get_execution_order self jobs_to_include = Some order
    ∧ (∀ fuel, size (run_set_of self jobs_to_include) < fuel →
         get_execution_order_fuel fuel self jobs_to_include = Some order)
    ∧ NoDup (concat order)
    ∧ (∀ i i' b b' j, order !! i = Some b → order !! i' = Some b' →
         j ∈ b → j ∈ b' → i = i')
    ∧ (NoDup (dependencies self).*1 →
       ∀ j, tc (dep_edge (dependencies self) (run_set_of self jobs_to_include)) j j →
            j ∉ concat order).
Proof.
  destruct (execution_order_total (dependencies self) (run_set_of self jobs_to_include))
    as (order & Hrun & Hfuel & Hnd & Hin).
  exists order. split_and!; [done..| |].
  - intros i i' b b' j. by apply NoDup_concat_unique.
  - intros Hkeys j Hcyc. by eapply execution_order_no_cycle.
Qed.

(** C1. For every run set and every dependency mapping that is acyclic when
    restricted to the run set, the schedule computed by [get_execution_order]
    is a valid topological partition: the batches together hold exactly the
    jobs of the run set, no job occurs twice (so each job is in exactly one
    batch), and every dependency of a job that is also in the run set lies in
    a strictly earlier batch. *)
Theorem get_execution_order_topological (self : Submitter)
    (jobs_to_include : option (gset string)) :
  wf_dependencies (dependencies self) →
  acyclic (dependencies self) (run_set_of self jobs_to_include) →
  ∃ order,
    get_execution_order self jobs_to_include = Some order
    ∧ (∀ j, j ∈ concat order ↔ j ∈ run_set_of self jobs_to_include)
    ∧ NoDup (concat order)
    ∧ (∀ j, j ∈ run_set_of self jobs_to_include →
         ∃ i b, order !! i = Some b ∧ j ∈ b
           ∧ ∀ i' b', order !! i' = Some b' → j ∈ b' → i' = i)
    ∧ (∀ i b j d, order !! i = Some b → j ∈ b →
         d ∈ Py.get_list (dependencies self) j →
         d ∈ run_set_of self jobs_to_include →
         ∃ i' b', i' < i ∧ order !! i' = Some b' ∧ d ∈ b').
Proof.
  intros Hwf Hacyc.
  destruct (execution_order_total (dependencies self) (run_set_of self jobs_to_include))
    as (order & Hrun & _ & Hnd & Hin).
  assert (∀ j, j ∈ run_set_of self jobs_to_include → j ∈ concat order) as Hall.
  { intros j. by eapply execution_order_complete. }
  exists order. split_and!; [done| |done| |].
  - intros j. split; [apply Hin|apply Hall].
  - intros j (i & b & Hi & Hj)%Hall%elem_of_concat. exists i, b. split_and!; [done..|].
    intros i' b' Hi' Hj'. by eapply NoDup_concat_unique.
  - intros i b j d Hi Hj Hd Hdr. apply elem_of_concat_take.
    destruct Hwf as [Hkeys _].
    eapply (execution_order_sound _ _ Hkeys _ _ Hrun); [done..|].
    apply list_elem_of_filter. done.
Qed.

(** ** Facts about loops in the result monad *)

Lemma foldl_result_raise {A B} (f : A → B → result A) l e :
  foldl (λ acc b, a ← acc; f a b) (Raise e) l = Raise e.
Proof. induction l as [|b l IH]; [done|]. cbn. apply IH. Qed.

Lemma foldl_result_out_of_fuel {A B} (f : A → B → result A) l :
  foldl (λ acc b, a ← acc; f a b) OutOfFuel l = OutOfFuel.
Proof. induction l as [|b l IH]; [done|]. cbn. apply IH. Qed.

Lemma keys_where_elem_of test keys l k :
  keys_where test keys = Ok l → k ∈ l → k ∈ keys.
Proof.
  revert l. induction keys as [|k' keys IH]; intros l.
  - cbn. intros [= <-] ?. done.
  - cbn. destruct (split_job_key k') as [parts| |]; cbn; [|done..].
    destruct (keys_where test keys) as [rest| |]; cbn; [|done..].
    intros [= <-] Hk. destruct (test _ _).
    + apply elem_of_cons in Hk as [->|Hk]; [left|right; by eapply IH].
    + right. by eapply IH.
Qed.

Lemma keys_where_cases test keys :
  (∃ l, keys_where test keys = Ok l) ∨ keys_where test keys = Raise ValueError.
Proof.
  induction keys as [|k keys IH]; [left; by eexists|].
  cbn. unfold split_job_key.
  destruct (Py.split ":" k) as [|? [|? [|? ?]]]; cbn; try by right.
  destruct IH as [[l ->]| ->]; cbn; [left; by eexists|by right].
Qed.

Lemma size_list_to_set_le (l : list string) :
  size (list_to_set l : gset string) ≤ length l.
Proof.
  induction l as [|x l IH]; cbn.
  - by rewrite size_empty.
  - rewrite size_union_alt, size_singleton.
    assert (size (list_to_set l ∖ {[x]} : gset string) ≤ size (list_to_set l : gset string))
      by (apply subseteq_size; set_solver).
    lia.
Qed.

(** ** Facts about the target closure resolver *)

Section ClosureFacts.
Variable self : Submitter.

Lemma visit_deps_spec fuel :
  (∀ job t, job ∈ registry self → t ⊆ registry self → size (registry self ∖ t) < fuel →
     ∃ t', add_dependencies self fuel job t = Ok t' ∧ visit_spec self job t t') →
  ∀ l a, a ⊆ registry self → size (registry self ∖ a) < fuel →
  ∃ r, foldl (λ acc dep,
                target_jobs ← acc;
                if decide (dep ∈ job_keys self)
                then add_dependencies self fuel dep target_jobs
                else Ok target_jobs) (Ok a) l = Ok r
    ∧ a ⊆ r ∧ r ⊆ registry self
    ∧ (∀ C, deps_closed self C → (∀ d, d ∈ l → d ∈ registry self → d ∈ C) → a ⊆ C → r ⊆ C)
    ∧ (∀ j d, j ∈ r → j ∉ a →
         d ∈ Py.get_list (dependencies self) j → d ∈ registry self → d ∈ r)
    ∧ (∀ d, d ∈ l → d ∈ registry self → d ∈ r).
Proof.
  intros IHf. induction l as [|dep l IH]; intros a Ha Hsz.
  - exists a. cbn. split_and!; [done..| | |]; [auto|set_solver|set_solver].
  - cbn [foldl]. cbn [mbind result_bind].
    destruct (decide (dep ∈ job_keys self)) as [Hdep|Hdep].
    + assert (dep ∈ registry self) as Hreg by by apply elem_of_list_to_set.
      destruct (IHf dep a Hreg Ha Hsz) as (a' & -> & Haa' & Ha' & Hin & Hleast & Hcl).
      destruct (IH a') as (r & -> & Ha'r & Hr & Hleast' & Hcl' & Hall); [done| |].
      { eapply Nat.le_lt_trans; [|exact Hsz]. apply subseteq_size. set_solver. }
      exists r. split_and!; [done|set_solver|done| | |].
      * intros C HC Hl HaC. apply Hleast'; [done| |].
        -- intros d Hd. apply Hl. by right.
        -- apply Hleast; [done| |done]. apply Hl; [left|done].
      * intros j d Hj Hja Hd Hdr.
        destruct (decide (j ∈ a')) as [Hja'|Hja']; [|by eapply Hcl'].
        apply Ha'r. by eapply Hcl.
      * intros d [->|Hd]%elem_of_cons Hdr; [set_solver|by apply Hall].
    + destruct (IH a Ha Hsz) as (r & -> & Har & Hr & Hleast' & Hcl' & Hall).
      exists r. split_and!; [done..| | |].
      * intros C HC Hl HaC. apply Hleast'; [done| |done].
        intros d Hd. apply Hl. by right.
      * done.
      * intros d [->|Hd]%elem_of_cons Hdr; [|by apply Hall].
        destruct Hdep. by apply elem_of_list_to_set in Hdr.
Qed.

(** The recursion of [add_dependencies] ends within [fuel] levels as soon
    as [fuel] exceeds the number of registered jobs not yet visited. *)
Lemma add_dependencies_enough_fuel fuel job t :
  job ∈ registry self → t ⊆ registry self → size (registry self ∖ t) < fuel →
  ∃ t', add_dependencies self fuel job t = Ok t' ∧ visit_spec self job t t'.
Proof.
  revert job t. induction fuel as [|fuel IHf]; intros job t Hjob Ht Hsz; [lia|].
  cbn [add_dependencies]. destruct (decide (job ∈ t)) as [Hin|Hnin].
  { exists t. split; [done|]. split_and!; [done..|auto|]. intros j d ? ?. done. }
  destruct (visit_deps_spec fuel IHf (Py.get_list (dependencies self) job) ({[job]} ∪ t))
    as (r & -> & Har & Hr & Hleast & Hcl & Hall).
  { set_solver. }
  { assert (registry self ∖ ({[job]} ∪ t) ⊂ registry self ∖ t) as Hlt%subset_size by set_solver.
    lia. }
  exists r. split; [done|]. split_and!; [set_solver|done|set_solver| |].
  - intros C HC HjC HtC. apply Hleast; [done| |set_solver].
    intros d Hd Hdr. by eapply HC.
  - intros j d Hj Hjt Hd Hdr. destruct (decide (j = job)) as [->|Hne].
    + by apply Hall.
    + eapply Hcl; [done| |done..]. set_solver.
Qed.

(** The loop over the matching jobs computes the least set that holds them
    and is closed under registered dependencies. *)
Lemma add_all_dependencies_spec fuel matching :
  size (registry self) < fuel → (∀ m, m ∈ matching → m ∈ registry self) →
  ∃ t, add_all_dependencies self fuel matching = Ok t
    ∧ t ⊆ registry self ∧ (∀ m, m ∈ matching → m ∈ t) ∧ deps_closed self t
    ∧ (∀ C, deps_closed self C → (∀ m, m ∈ matching → m ∈ C) → t ⊆ C).
Proof.
  intros Hfuel. unfold add_all_dependencies.
  enough (∀ a, a ⊆ registry self → deps_closed self a → (∀ m, m ∈ matching → m ∈ registry self) →
    ∃ t, foldl (λ acc job_key, target_jobs ← acc;
                  add_dependencies self fuel job_key target_jobs) (Ok a) matching = Ok t
      ∧ a ⊆ t ∧ t ⊆ registry self ∧ (∀ m, m ∈ matching → m ∈ t) ∧ deps_closed self t
      ∧ (∀ C, deps_closed self C → (∀ m, m ∈ matching → m ∈ C) → a ⊆ C → t ⊆ C)) as Hgen.
  { intros Hm. destruct (Hgen ∅) as (t & ? & ? & ? & ? & ? & Hleast); [set_solver| |done|].
    - intros j d Hj. set_solver.
    - exists t. split_and!; [done..|]. intros C ? ?. apply Hleast; [done..|set_solver]. }
  induction matching as [|m matching IH]; intros a Ha Hclosed Hm.
  - exists a. cbn. split_and!; [done..|set_solver|done|auto].
  - cbn [foldl]. cbn [mbind result_bind].
    destruct (add_dependencies_enough_fuel fuel m a)
      as (a' & -> & Haa' & Ha' & Hin & Hleast & Hcl).
    { apply Hm. left. } { done. }
    { eapply Nat.le_lt_trans; [|exact Hfuel]. apply subseteq_size. set_solver. }
    destruct (IH a') as (t & -> & Ha't & Ht & Hall & Hclosed' & Hleast'); [done| | |].
    { intros j d Hj Hd Hdr. destruct (decide (j ∈ a)) as [Hja|Hja].
      - apply Haa'. by eapply Hclosed.
      - by eapply Hcl. }
    { intros m' Hm'. apply Hm. by right. }
    exists t. split_and!; [done|set_solver|done| |done|].
    + intros m' [->|Hm']%elem_of_cons; [set_solver|by apply Hall].
    + intros C HC HmC HaC. apply Hleast'; [done| |].
      * intros m' Hm'. apply HmC. by right.
      * apply Hleast; [done| |done]. apply HmC. left.
Qed.

Lemma registry_size_lt : size (registry self) < S (length (job_keys self)).
Proof. unfold registry. pose proof (size_list_to_set_le (job_keys self)). lia. Qed.

End ClosureFacts.

Section TargetFacts.
Variable fnmatch : string → string → bool.
Variable re_compile : string → option (string → bool).
Variable self : Submitter.

Lemma find_target_elem_of pattern l k :
  _find_target_jobs_by_pattern fnmatch re_compile self pattern = Ok l →
  k ∈ l → k ∈ job_keys self.
Proof.
  unfold _find_target_jobs_by_pattern, sort_keys.
  destruct (decide (pattern ∈ job_keys self)) as [Hp|_].
  { intros [= <-] ->%list_elem_of_singleton. done. }
  destruct (any_char_in _ pattern).
  { intros [= <-]. rewrite merge_sort_Permutation.
    by intros [_ ?]%list_elem_of_filter. }
  destruct (any_char_in _ pattern).
  { destruct (re_compile pattern); [|done]. intros [= <-].
    rewrite merge_sort_Permutation. by intros [_ ?]%list_elem_of_filter. }
  destruct (keys_where _ (job_keys self)) as [stage_matches| |] eqn:Hkw; cbn; [|done..].
  destruct stage_matches as [|m ms].
  - intros [= <-]. rewrite merge_sort_Permutation.
    by intros [_ ?]%list_elem_of_filter.
  - intros [= <-]. rewrite merge_sort_Permutation. by eapply keys_where_elem_of.
Qed.

Lemma find_target_cases pattern :
  (∃ l, _find_target_jobs_by_pattern fnmatch re_compile self pattern = Ok l)
  ∨ _find_target_jobs_by_pattern fnmatch re_compile self pattern = Raise ValueError.
Proof.
  unfold _find_target_jobs_by_pattern.
  destruct (decide (pattern ∈ job_keys self)); [left; by eexists|].
  destruct (any_char_in _ pattern); [left; by eexists|].
  destruct (any_char_in _ pattern).
  { destruct (re_compile pattern); [left; by eexists|by right]. }
  destruct (keys_where_cases (λ stage _, bool_decide (stage = pattern)) (job_keys self))
    as [[l ->]| ->]; cbn; [|by right].
  destruct l; left; by eexists.
Qed.

(** [get_target_jobs] returns a set or raises [ValueError]; a returned set
    lies in the registry self, holds the matching jobs, is closed under
    registered dependencies and is the least such set. *)
Lemma get_target_jobs_spec pattern :
  get_target_jobs fnmatch re_compile self pattern = Raise ValueError
  ∨ ∃ matching t,
      _find_target_jobs_by_pattern fnmatch re_compile self pattern = Ok matching
      ∧ get_target_jobs fnmatch re_compile self pattern = Ok t
      ∧ t ⊆ registry self ∧ (∀ m, m ∈ matching → m ∈ t) ∧ deps_closed self t
      ∧ (∀ C, deps_closed self C → (∀ m, m ∈ matching → m ∈ C) → t ⊆ C).
Proof.
  unfold get_target_jobs, get_target_jobs_fuel.
  destruct (_find_target_jobs_by_pattern fnmatch re_compile self pattern)
    as [matching|e|] eqn:Hfind; cbn.
  - destruct matching as [|m matching]; [by left|]. right.
    destruct (add_all_dependencies_spec self (S (length (job_keys self))) (m :: matching))
      as (t & Hrun & ?); [apply registry_size_lt| |].
    { intros k Hk. apply elem_of_list_to_set. by eapply find_target_elem_of. }
    exists (m :: matching), t. done.
  - left. destruct (find_target_cases pattern) as [[l Hl]|Hl];
      rewrite Hl in Hfind; by simplify_eq.
  - destruct (find_target_cases pattern) as [[l Hl]|Hl];
      rewrite Hl in Hfind; by simplify_eq.
Qed.
End TargetFacts.

(** ** Facts about the run-set derivation *)

Section RunSetFacts.
Variable self : Submitter.
Variable target_jobs : gset string.

Lemma cascade_items_spec fuel c :
  (∀ c s, size (target_jobs ∖ s) < fuel →
     ∃ s', add_dependents self target_jobs fuel c s = Ok s'
           ∧ cascade_spec self target_jobs c s s') →
  ∀ l a, size (target_jobs ∖ a) ≤ fuel →
  ∃ r, foldl (λ acc (item : string * list string),
                jobs_with_deps ← acc;
                if decide (c ∈ item.2 ∧ (item.1 ∉ jobs_with_deps)
                           ∧ item.1 ∈ target_jobs)
                then add_dependents self target_jobs fuel item.1
                       ({[item.1]} ∪ jobs_with_deps)
                else Ok jobs_with_deps) (Ok a) l = Ok r
    ∧ a ⊆ r ∧ r ⊆ a ∪ target_jobs
    ∧ (∀ job deps, (job, deps) ∈ l → c ∈ deps → job ∈ target_jobs → job ∈ r)
    ∧ (∀ j job, j ∈ r → j ∉ a → depends_on self job j → job ∈ target_jobs → job ∈ r).
Proof.
  intros IHf. induction l as [|[k deps] l IH]; intros a Hsz.
  - exists a. cbn. split_and!; [done|done|set_solver| |done].
    by intros job deps ?%elem_of_nil.
  - cbn [foldl]. cbn [mbind result_bind fst snd].
    destruct (decide (c ∈ deps ∧ (k ∉ a) ∧ k ∈ target_jobs)) as [(Hc & Hka & Hkt)|Hno].
    + assert (size (target_jobs ∖ ({[k]} ∪ a)) < size (target_jobs ∖ a)) as Hlt
        by (apply subset_size; set_solver).
      destruct (IHf k ({[k]} ∪ a)) as (a' & -> & Hsub & Hup & Hdeps & Hnew); [lia|].
      destruct (IH a') as (r & -> & Hsub' & Hup' & Hitems & Hnew').
      { etrans; [|exact Hsz]. apply subseteq_size. set_solver. }
      exists r. split_and!; [done|set_solver|set_solver| |].
      * intros job deps' [[= -> ->]|Hin]%elem_of_cons Hcd Hjt; [set_solver|].
        by eapply Hitems.
      * intros j job Hj Hja Hdep Hjt.
        destruct (decide (j ∈ a')) as [Hja'|Hja']; [|by eapply Hnew'].
        apply Hsub'. destruct (decide (j = k)) as [->|Hne]; [by apply Hdeps|].
        eapply Hnew; [done|set_solver|done..].
    + destruct (IH a Hsz) as (r & -> & Hsub' & Hup' & Hitems & Hnew').
      exists r. split_and!; [done..| |done].
      intros job deps' [[= -> ->]|Hin]%elem_of_cons Hcd Hjt; [|by eapply Hitems].
      destruct (decide (k ∈ a)) as [?|Hja]; [set_solver|]. by destruct Hno.
Qed.

(** The recursion of [add_dependents] ends within [fuel] levels as soon as
    [fuel] exceeds the number of target jobs not yet in the set. *)
Lemma add_dependents_enough_fuel fuel c s :
  size (target_jobs ∖ s) < fuel →
  ∃ s', add_dependents self target_jobs fuel c s = Ok s'
        ∧ cascade_spec self target_jobs c s s'.
Proof.
  revert c s. induction fuel as [|fuel IHf]; intros c s Hsz; [lia|].
  cbn [add_dependents].
  destruct (cascade_items_spec fuel c IHf (dependencies self) s)
    as (r & -> & Hsub & Hup & Hitems & Hnew); [lia|].
  exists r. split; [done|]. split_and!; [done..| |done].
  intros job (deps & Hin & Hc) Hjt. by eapply Hitems.
Qed.

(** The cascade over the jobs that need to run. *)
Lemma cascade_all_spec fuel (s0 : gset string) :
  size target_jobs < fuel → s0 ⊆ target_jobs →
  ∃ r, foldl (λ acc job, jobs_with_deps ← acc;
                add_dependents self target_jobs fuel job jobs_with_deps)
         (Ok s0) (elements s0) = Ok r
    ∧ s0 ⊆ r ∧ r ⊆ target_jobs ∧ dependents_closed self target_jobs r.
Proof.
  intros Hfuel Hs0.
  enough (∀ l a, s0 ⊆ a → a ⊆ target_jobs →
    ∃ r, foldl (λ acc job, jobs_with_deps ← acc;
                  add_dependents self target_jobs fuel job jobs_with_deps) (Ok a) l = Ok r
      ∧ a ⊆ r ∧ r ⊆ target_jobs
      ∧ (∀ j job, j ∈ l → depends_on self job j → job ∈ target_jobs → job ∈ r)
      ∧ (∀ j job, j ∈ r → j ∉ a → depends_on self job j → job ∈ target_jobs → job ∈ r))
    as Hgen.
  { destruct (Hgen (elements s0) s0) as (r & ? & ? & ? & Hl & Hnew); [done..|].
    exists r. split_and!; [done..|].
    intros job dep Hdep Hon Hjt. destruct (decide (dep ∈ s0)) as [Hin|Hnin].
    - eapply Hl; [|done..]. by apply elem_of_elements.
    - by eapply Hnew. }
  induction l as [|c l IH]; intros a Hsa Hat.
  - exists a. cbn. split_and!; [done..| |done]. by intros j job ?%elem_of_nil.
  - cbn [foldl]. cbn [mbind result_bind].
    destruct (add_dependents_enough_fuel fuel c a) as (a' & -> & Hsub & Hup & Hdeps & Hnew).
    { eapply Nat.le_lt_trans; [|exact Hfuel]. apply subseteq_size. set_solver. }
    destruct (IH a') as (r & -> & Hsub' & Hup' & Hl & Hnew'); [set_solver..|].
    exists r. split_and!; [done|set_solver|done| |].
    + intros j job [->|Hj]%elem_of_cons Hon Hjt; [|by eapply Hl].
      apply Hsub'. by apply Hdeps.
    + intros j job Hj Hja Hon Hjt.
      destruct (decide (j ∈ a')) as [Hja'|Hja']; [|by eapply Hnew'].
      apply Hsub'. by eapply Hnew.
Qed.
End RunSetFacts.

Section ResolverTheorems.
Variable fnmatch : string → string → bool.
Variable re_compile : string → option (string → bool).
Variable self : Submitter.

Lemma target_set_spec target_pattern :
  target_set_fuel fnmatch re_compile self (S (length (job_keys self))) target_pattern
    = Raise ValueError
  ∨ ∃ t, target_set_fuel fnmatch re_compile self (S (length (job_keys self)))
           target_pattern = Ok t
         ∧ t ⊆ registry self.
Proof.
  unfold target_set_fuel. destruct (pattern_given target_pattern) as [pattern|].
  - destruct (get_target_jobs_spec fnmatch re_compile self pattern)
      as [?|(m & t & _ & ? & ? & _)]; [by left|right; by exists t].
  - right. by eexists.
Qed.

Lemma needs_run_in_subseteq job_status (t : gset string) :
  needs_run_in job_status t ⊆ t.
Proof.
  unfold needs_run_in. intros j Hj%elem_of_list_to_set.
  by apply list_elem_of_filter in Hj as [? _].
Qed.

Lemma filter_jobs_by_status_spec job_status target_pattern :
  filter_jobs_by_status fnmatch re_compile self job_status false target_pattern
    = Raise ValueError
  ∨ ∃ t r,
      target_set_fuel fnmatch re_compile self (S (length (job_keys self)))
        target_pattern = Ok t
      ∧ filter_jobs_by_status fnmatch re_compile self job_status false target_pattern
        = Ok r
      ∧ t ⊆ registry self ∧ needs_run_in job_status t ⊆ r ∧ r ⊆ t
      ∧ dependents_closed self t r.
Proof.
  unfold filter_jobs_by_status, filter_jobs_by_status_fuel.
  destruct (target_set_spec target_pattern) as [->|(t & -> & Ht)]; [by left|].
  right. cbn [mbind result_bind].
  destruct (cascade_all_spec self t (S (length (job_keys self))) (needs_run_in job_status t))
    as (r & Hr & ? & ? & ?).
  { eapply Nat.le_lt_trans; [apply subseteq_size, Ht|apply registry_size_lt]. }
  { apply needs_run_in_subseteq. }
  exists t, r. done.
Qed.
End ResolverTheorems.

(** C10. For every pattern and every dependency mapping, [get_target_jobs]
    gives a set or raises [ValueError] (the fuel of the model never runs
    out), and every job identity in a returned set is a key of the job
    registry, also when the mapping names dependencies that are not
    registered: those are skipped by the closure. *)
Theorem get_target_jobs_in_registry fnmatch re_compile (self : Submitter)
    (pattern : string) :
  get_target_jobs fnmatch re_compile self pattern ≠ OutOfFuel
  ∧ ∀ target_jobs,
      get_target_jobs fnmatch re_compile self pattern = Ok target_jobs →
      ∀ job_key, job_key ∈ target_jobs →
        job_key ∈ job_keys self ∧ is_Some (Py.get (job_configs self) job_key).
Proof.
  destruct (get_target_jobs_spec fnmatch re_compile self pattern)
    as [->|(m & t & _ & -> & Ht & _)]; [done|].
  split; [done|]. intros ? [= <-] job_key Hk.
  apply Ht, elem_of_list_to_set in Hk. split; [done|].
  unfold job_keys in Hk. induction (job_configs self) as [|[k v] l IH]; [by apply elem_of_nil in Hk|].
  cbn. destruct (decide (k = job_key)); [by eexists|].
  apply IH. by apply elem_of_cons in Hk as [?|?]; [simplify_eq/=|].
Qed.

(** C7. Running the target closure resolver twice on the same pattern, the
    second time on the state left by the first, yields the same outcome both
    times: the resolver leaves the registry and the dependency mapping as
    they were, and it is a function of the pattern and that state.  A
    returned set is moreover a fixed point of the closure: it is closed under
    registered dependencies, and closing it again gives the same set. *)
Theorem get_target_jobs_idempotent fnmatch re_compile (self : Submitter)
    (pattern : string) :
  let first := get_target_jobs_step fnmatch re_compile self pattern in
  let second := get_target_jobs_step fnmatch re_compile first.2 pattern in
  first.2 = self ∧ second.2 = self ∧ second.1 = first.1
  ∧ first.1 ≠ OutOfFuel
  ∧ ∀ target_jobs, first.1 = Ok target_jobs →
      deps_closed self target_jobs
      ∧ add_all_dependencies self (S (length (job_keys self))) (elements target_jobs)
        = Ok target_jobs.
Proof.
  cbn. split_and!; [done..| |].
  - by destruct (get_target_jobs_spec fnmatch re_compile self pattern)
      as [->|(m & t & _ & -> & _)].
  - intros t Ht.
    destruct (get_target_jobs_spec fnmatch re_compile self pattern)
      as [Hr|(m & t' & _ & Hr & Hsub & _ & Hclosed & _)]; rewrite Hr in Ht; [done|].
    injection Ht as ->. split; [done|].
    destruct (add_all_dependencies_spec self (S (length (job_keys self))) (elements t))
      as (t2 & -> & _ & Hin & _ & Hleast); [apply registry_size_lt| |].
    { intros j Hj%elem_of_elements. by apply Hsub. }
    f_equal. apply set_eq. intros j. split.
    + apply Hleast; [done|]. by intros ? ?%elem_of_elements.
    + intros Hj. by apply Hin, elem_of_elements.
Qed.

(** C2. For every registry, dependency mapping, verdict assignment and target
    pattern, [filter_jobs_by_status] with [include_cached] false gives a run
    set or raises [ValueError] (no match, bad pattern or malformed key).  A
    returned run set lies in the target set: the closure of the pattern's
    matches, or all jobs when no pattern is given.  Every dependency of a
    member that lies in the run set is a member of the run set; moreover the
    run set holds the target jobs that need to run and every job of the
    target set that depends on one of its members. *)
Theorem filter_jobs_by_status_run_set fnmatch re_compile (self : Submitter)
    (job_status : list (string * Verdict)) (target_pattern : option string) :
  filter_jobs_by_status fnmatch re_compile self job_status false target_pattern ≠ OutOfFuel
  ∧ ∀ run_set,
      filter_jobs_by_status fnmatch re_compile self job_status false target_pattern
        = Ok run_set →
      ∃ target_jobs,
        match pattern_given target_pattern with
        | Some pattern => get_target_jobs fnmatch re_compile self pattern = Ok target_jobs
        | None => target_jobs = list_to_set (job_keys self)
        end
        ∧ (∀ j, j ∈ run_set → j ∈ target_jobs)
        ∧ (∀ j d, j ∈ run_set → d ∈ Py.get_list (dependencies self) j →
                  d ∈ run_set → d ∈ run_set)
        ∧ (∀ j, (j, NeedsRun) ∈ job_status → j ∈ target_jobs → j ∈ run_set)
        ∧ dependents_closed self target_jobs run_set.
Proof.
  destruct (filter_jobs_by_status_spec fnmatch re_compile self job_status target_pattern)
    as [->|(t & r & Ht & -> & Hreg & Hbase & Hsub & Hclosed)]; [done|].
  split; [done|]. intros ? [= <-]. exists t. split_and!; [|done..| |done].
  - unfold target_set_fuel in Ht. destruct (pattern_given target_pattern); [done|].
    by injection Ht as <-.
  - intros j Hj Hjt. apply Hbase. unfold needs_run_in.
    apply elem_of_list_to_set, list_elem_of_filter. split; [done|].
    apply list_elem_of_fmap. exists (j, NeedsRun). split; [done|].
    by apply list_elem_of_filter.
Qed.

(** ** Facts about name resolution *)

Lemma keys_where_spec test keys :
  (∀ k, k ∈ keys → ∃ stage step, split_job_key k = Ok (stage, step)) →
  ∃ l, keys_where test keys = Ok l
    ∧ ∀ k, k ∈ l ↔ k ∈ keys ∧ ∃ stage step,
                     split_job_key k = Ok (stage, step) ∧ test stage step = true.
Proof.
  induction keys as [|k keys IH]; intros Hwf.
  - exists []. split; [done|]. intros k. split; [by intros ?%elem_of_nil|].
    by intros [?%elem_of_nil _].
  - destruct IH as (l & Hl & Hiff). { intros k' Hk'. apply Hwf. by right. }
    destruct (Hwf k) as (stage & step & Hk); [left|].
    cbn. rewrite Hk, Hl. cbn.
    destruct (test stage step) eqn:Htest; eexists; (split; [done|]); intros k'.
    + rewrite elem_of_cons, Hiff, elem_of_cons. split.
      * intros [->|[Hin Hex]].
        -- split; [by left|]. by exists stage, step.
        -- split; [by right|done].
      * intros [[->|Hin] Hex]; [by left|]. right. by split.
    + rewrite Hiff, elem_of_cons. split.
      * intros [Hin Hex]. split; [by right|done].
      * intros [[->|Hin] (stage' & step' & Hk' & Ht)].
        -- rewrite Hk in Hk'. simplify_eq. congruence.
        -- split; [done|]. by exists stage', step'.
Qed.

Lemma keys_where_ext test1 test2 keys :
  (∀ k stage step, k ∈ keys → split_job_key k = Ok (stage, step) →
     test1 stage step = test2 stage step) →
  keys_where test1 keys = keys_where test2 keys.
Proof.
  induction keys as [|k keys IH]; intros Hext; [done|].
  cbn. destruct (split_job_key k) as [[stage step]| |] eqn:Hk; cbn; [|done..].
  rewrite IH by (intros; eapply Hext; [by right|done]).
  destruct (keys_where test2 keys); cbn; [|done..].
  by rewrite (Hext k stage step) by (done || by left).
Qed.

Lemma wf_registry_not_key self name :
  wf_registry self → split_job_key name = Raise ValueError → name ∉ job_keys self.
Proof. intros Hwf Hname Hin. destruct (Hwf name Hin) as (? & ? & ?). congruence. Qed.

Section ResolutionFacts.
Variable self : Submitter.
Hypothesis registry_wf : wf_registry self.

Lemma find_matching_build_at_train :
  "build:train" ∈ job_keys self →
  _find_matching_jobs self "build@train" = Ok ["build:train"].
Proof.
  intros Hin. unfold _find_matching_jobs.
  change (Py.strip is_quote (Py.strip Py.is_space "build@train")) with "build@train".
  cbv zeta. rewrite decide_False by by apply wf_registry_not_key.
  change (Py.replace "@" ":" "build@train") with "build:train".
  change (Py.has_char "@" "build@train") with true.
  by rewrite bool_decide_eq_true_2.
Qed.

Lemma dvc_stage_build_at_train :
  "build:train" ∈ job_keys self →
  _dvc_stage_to_job_keys self "build@train" = Ok ["build:train"].
Proof.
  intros Hin. unfold _dvc_stage_to_job_keys.
  change (Py.has_char "@" "build@train") with true.
  change (Py.replace "@" ":" "build@train") with "build:train".
  cbv iota. by rewrite decide_True.
Qed.

Lemma find_matching_build :
  _find_matching_jobs self "build"
  = stage_matches ← keys_where (λ stage _, bool_decide (stage = "build")) (job_keys self);
    match stage_matches with
    | _ :: _ => Ok stage_matches
    | [] =>
        partial ← keys_where (λ stage step,
                     bool_decide ("build" = stage)
                     || bool_decide ("build" = step)
                     || bool_decide ("build" = stage +:+ "_" +:+ step)
                     || Py.endswith step "build"
                     || Py.contains step "build") (job_keys self);
        Ok (unique_matches ∅ ([] ++ partial))
    end.
Proof.
  unfold _find_matching_jobs.
  change (Py.strip is_quote (Py.strip Py.is_space "build")) with "build".
  cbv zeta. rewrite decide_False by by apply wf_registry_not_key.
  change (Py.has_char "@" "build") with false.
  change (Py.has_char "_" "build") with false.
  change (Py.has_char ":" "build") with false.
  done.
Qed.

Lemma find_matching_build_stage :
  is_stage self "build" → resolves_to_stage _find_matching_jobs self "build".
Proof.
  intros (k0 & step0 & Hk0 & Hsplit0). unfold resolves_to_stage.
  rewrite find_matching_build.
  destruct (keys_where_spec (λ stage _, bool_decide (stage = "build")) (job_keys self)
              registry_wf) as (l & -> & Hiff).
  cbn. destruct l as [|m l].
  - exfalso. eapply elem_of_nil, Hiff. split; [exact Hk0|].
    exists "build", step0. by rewrite bool_decide_eq_true_2.
  - eexists; split; [done|]. intros k. rewrite Hiff. split.
    + intros [? (stage & step & Hk & ->%bool_decide_eq_true_1)]. eauto.
    + intros [? (step & Hk)]. split; [done|]. exists "build", step.
      by rewrite bool_decide_eq_true_2.
Qed.

Lemma dvc_stage_build :
  resolves_to_stage_or_step _dvc_stage_to_job_keys self "build".
Proof.
  unfold resolves_to_stage_or_step, _dvc_stage_to_job_keys.
  change (Py.has_char "@" "build") with false. cbv iota.
  destruct (keys_where_spec
    (λ stage step, bool_decide ("build" = stage) || bool_decide ("build" = step))
    (job_keys self) registry_wf) as (l & -> & Hiff).
  eexists; split; [done|]. intros k. rewrite Hiff. split.
  - intros [? (stage & step & Hk & Ht)]. split; [done|]. exists stage, step.
    split; [done|]. apply orb_true_iff in Ht as [?%bool_decide_eq_true_1|?%bool_decide_eq_true_1]; auto.
  - intros [? (stage & step & Hk & Ht)]. split; [done|]. exists stage, step.
    split; [done|]. apply orb_true_iff.
    destruct Ht as [->| ->]; [left|right]; by apply bool_decide_eq_true_2.
Qed.

Lemma resolvers_agree_on_build :
  is_stage self "build" →
  (∀ job_key stage, job_key ∈ job_keys self →
     split_job_key job_key ≠ Ok (stage, "build")) →
  _find_matching_jobs self "build" = _dvc_stage_to_job_keys self "build".
Proof.
  intros (k0 & step0 & Hk0 & Hsplit0) Hnostep.
  rewrite find_matching_build. unfold _dvc_stage_to_job_keys.
  change (Py.has_char "@" "build") with false. cbv iota.
  rewrite (keys_where_ext (λ stage step, bool_decide ("build" = stage) || bool_decide ("build" = step))
             (λ stage _, bool_decide (stage = "build"))).
  - destruct (keys_where_spec (λ stage _, bool_decide (stage = "build")) (job_keys self)
                registry_wf) as (l & -> & Hiff).
    cbn. destruct l as [|m l]; [|done].
    exfalso. eapply elem_of_nil, Hiff. split; [exact Hk0|].
    exists "build", step0. by rewrite bool_decide_eq_true_2.
  - intros k stage step Hk Hsplit.
    rewrite (bool_decide_eq_false_2 ("build" = step)).
    + rewrite orb_false_r. apply bool_decide_ext. naive_solver.
    + intros <-. by eapply Hnostep.
Qed.
End ResolutionFacts.

(** The two resolvers on the names "build@train" and "build", for a
    registry of well-formed identities: if it contains "build:train", both
    map the node name "build@train" to exactly "build:train"; if "build" is
    the stage of some job, the graph-builder resolver maps the bare name
    "build" to exactly the jobs whose stage is "build"; the status resolver
    maps it to exactly the jobs whose stage or step is "build"; and the two
    agree on "build" when it is a stage and no job has the step "build". *)
Lemma resolve_build_names (self : Submitter) :
  wf_registry self →
  ("build:train" ∈ job_keys self →
     _find_matching_jobs self "build@train" = Ok ["build:train"]
     ∧ _dvc_stage_to_job_keys self "build@train" = Ok ["build:train"])
  ∧ (is_stage self "build" → resolves_to_stage _find_matching_jobs self "build")
  ∧ resolves_to_stage_or_step _dvc_stage_to_job_keys self "build"
  ∧ (is_stage self "build" →
     (∀ job_key stage, job_key ∈ job_keys self →
        split_job_key job_key ≠ Ok (stage, "build")) →
     _find_matching_jobs self "build" = _dvc_stage_to_job_keys self "build").
Proof.
  intros Hwf. split_and!.
  - intros Hin. split.
    + by apply find_matching_build_at_train.
    + by apply dvc_stage_build_at_train.
  - by apply find_matching_build_stage.
  - by apply dvc_stage_build.
  - by apply resolvers_agree_on_build.
Qed.

Lemma registry_stages_wf : wf_registry registry_stages.
Proof.
  intros k Hk. vm_compute in Hk.
  repeat (apply elem_of_cons in Hk as [->|Hk]; [by eexists _, _|]).
  by apply elem_of_nil in Hk.
Qed.

Lemma resolve_build_names_witness :
  (_find_matching_jobs registry_stages "build@train" = Ok ["build:train"]
   ∧ _dvc_stage_to_job_keys registry_stages "build@train" = Ok ["build:train"])
  ∧ resolves_to_stage _find_matching_jobs registry_stages "build"
  ∧ _find_matching_jobs registry_stages "build"
    = _dvc_stage_to_job_keys registry_stages "build".
Proof.
  destruct (resolve_build_names registry_stages registry_stages_wf)
    as (Hat & Hstage & _ & Hagree).
  assert (is_stage registry_stages "build") as Hbuild.
  { exists "build:train", "train". split; [|reflexivity]. vm_compute. left. }
  split; [|split].
  - apply Hat. vm_compute. left.
  - by apply Hstage.
  - apply Hagree; [done|]. intros k stage Hk. vm_compute in Hk.
    repeat (apply elem_of_cons in Hk as [->|Hk]; [by vm_compute|]).
    by apply elem_of_nil in Hk.
Defined.

(** C6. The code at the failing inputs.  In a registry of well-formed
    identities in which "build" is a stage, the status resolver maps the bare
    name "build" also to every job whose step is "build", whatever its
    stage: it resolves the name to more than the jobs of the stage "build",
    and disagrees with the graph-builder resolver, which leaves such a job
    out. *)
Theorem status_resolver_matches_steps (self : Submitter) (job_key stage : string) :
  wf_registry self →
  is_stage self "build" →
  job_key ∈ job_keys self →
  split_job_key job_key = Ok (stage, "build") →
  stage ≠ "build" →
  (∃ l, _dvc_stage_to_job_keys self "build" = Ok l ∧ job_key ∈ l)
  ∧ (∃ l, _find_matching_jobs self "build" = Ok l ∧ job_key ∉ l)
  ∧ ¬ resolves_to_stage _dvc_stage_to_job_keys self "build"
  ∧ _find_matching_jobs self "build" ≠ _dvc_stage_to_job_keys self "build".
Proof.
  intros Hwf Hstage Hin Hsplit Hne.
  destruct (dvc_stage_build self Hwf) as (l & Hl & Hiff).
  destruct (find_matching_build_stage self Hwf Hstage) as (l' & Hl' & Hiff').
  assert (job_key ∈ l) as Hjob.
  { apply Hiff. split; [done|]. exists stage, "build". auto. }
  assert (job_key ∉ l') as Hnot.
  { intros [_ (step & Hstep)]%Hiff'. congruence. }
  split_and!.
  - by exists l.
  - by exists l'.
  - intros (l0 & Hl0 & Hiff0). rewrite Hl in Hl0. injection Hl0 as <-.
    apply Hiff0 in Hjob as [_ (step & Hstep)]. congruence.
  - rewrite Hl, Hl'. intros [= ->]. done.
Qed.

Lemma registry_build_wf : wf_registry registry_build.
Proof.
  intros k Hk. vm_compute in Hk.
  repeat (apply elem_of_cons in Hk as [->|Hk]; [by eexists _, _|]).
  by apply elem_of_nil in Hk.
Qed.

Lemma status_resolver_matches_steps_witness :
  (∃ l, _dvc_stage_to_job_keys registry_build "build" = Ok l ∧ "test:build" ∈ l)
  ∧ (∃ l, _find_matching_jobs registry_build "build" = Ok l ∧ "test:build" ∉ l)
  ∧ ¬ resolves_to_stage _dvc_stage_to_job_keys registry_build "build"
  ∧ _find_matching_jobs registry_build "build"
    ≠ _dvc_stage_to_job_keys registry_build "build".
Proof.
  apply (status_resolver_matches_steps registry_build "test:build" "test").
  - exact registry_build_wf.
  - exists "build:train", "train". split; [|reflexivity]. vm_compute. left.
  - vm_compute. right. left.
  - reflexivity.
  - discriminate.
Defined.

(** The two results on the registry with the jobs "build:train" and
    "test:build". *)
Example registry_build_resolved :
  _dvc_stage_to_job_keys registry_build "build" = Ok ["build:train"; "test:build"]
  ∧ _find_matching_jobs registry_build "build" = Ok ["build:train"].
Proof. by split. Qed.

(** ** Facts about the staleness resolver *)

Lemma scan_no_quote body_ok s :
  Py.has_char "034" s = false → Fallback.scan body_ok 0 s = [].
Proof.
  induction s as [|c s IH]; [done|]. cbn.
  destruct (decide (c = "034"%char)); [done|]. auto.
Qed.

Section StalenessFacts.
Variable json_loads : string → json_loaded.
Variable self : Submitter.

(** The conservative path: a failing status query marks every job as
    needing to run. *)
Lemma check_job_status_failed_query returncode json_content :
  returncode ≠ 0%Z →
  check_job_status json_loads self (DvcExited returncode json_content)
  = Ok ((λ job_key, (job_key, NeedsRun)) <$> job_keys self).
Proof. intros Hrc. cbn. by rewrite decide_True. Qed.

Lemma mark_all_jobs_empty :
  mark_all_jobs self ∅ = (λ job_key, (job_key, Cached)) <$> job_keys self.
Proof. unfold mark_all_jobs. apply list_fmap_ext. intros i k _. by rewrite decide_False. Qed.

Lemma fallback_no_quote status_output :
  Py.has_char "034" status_output = false →
  _fallback_parse_dvc_output self status_output
  = Ok ((λ job_key, (job_key, Cached)) <$> job_keys self).
Proof.
  intros Hq. unfold _fallback_parse_dvc_output, Fallback.changed_stages.
  rewrite !scan_no_quote by done. cbn. by rewrite mark_all_jobs_empty.
Qed.
End StalenessFacts.

(** C3, the code at the failing inputs. When the status query succeeds with
    an output that is not empty, that [json.loads] rejects and that holds no
    quote character, the fallback parser finds no name and
    [check_job_status] reports every job of the registry as [Cached]. *)
Theorem unparsed_status_marks_all_cached json_loads (self : Submitter)
    (status_output : string) :
  Py.has_char "034" status_output = false →
  Py.strip Py.is_space status_output ≠ "" →
  json_loads (json_text_of status_output) = JSONDecodeError →
  check_job_status json_loads self (DvcExited 0 status_output)
  = Ok ((λ job_key, (job_key, Cached)) <$> job_keys self).
Proof.
  intros Hq Hne Hjson. cbn. rewrite decide_False by (intros ?; done).
  rewrite decide_False by done.
  unfold _parse_dvc_status_json. rewrite Hjson.
  by rewrite fallback_no_quote.
Qed.

Lemma unparsed_status_marks_all_cached_witness :
  check_job_status json_reject registry_scenario (DvcExited 0 "garbage")
  = Ok [("a:x", Cached); ("a:y", Cached); ("b:z", Cached)].
Proof.
  apply (unparsed_status_marks_all_cached json_reject registry_scenario "garbage").
  - reflexivity.
  - vm_compute. discriminate.
  - reflexivity.
Defined.

(** ** Facts about duration parsing *)

Lemma append_String c a b : String c a +:+ b = String c (a +:+ b).
Proof. reflexivity. Qed.

Lemma split_cons_nonempty sep s : Py.split sep s ≠ [].
Proof. induction s as [|c s IH]; cbn; [done|]. destruct (decide (c = sep)); [done|]. by destruct (Py.split sep s). Qed.

Lemma split_no_sep sep s : Py.has_char sep s = false → Py.split sep s = [s].
Proof.
  induction s as [|c s IH]; cbn; [done|].
  destruct (decide (c = sep)); [done|]. intros Hs. by rewrite IH.
Qed.

Lemma split_append_sep sep a b :
  Py.has_char sep a = false →
  Py.split sep (a +:+ String sep b) = a :: Py.split sep b.
Proof.
  induction a as [|c a IH]; intros Ha.
  - change (Py.split sep (String sep b) = EmptyString :: Py.split sep b).
    cbn. by rewrite decide_True.
  - cbn in Ha. destruct (decide (c = sep)); [done|].
    rewrite append_String. cbn. rewrite decide_False by done. by rewrite IH.
Qed.

(** The pieces have no separator, and joining them gives the string back. *)
Lemma split_join sep s :
  Py.join (String sep EmptyString) (Py.split sep s) = s
  ∧ Forall (λ p, Py.has_char sep p = false) (Py.split sep s).
Proof.
  induction s as [|c s [IHj IHf]]; cbn; [by split; [|repeat constructor]|].
  destruct (decide (c = sep)) as [->|Hne].
  - pose proof (split_cons_nonempty sep s) as Hne.
    destruct (Py.split sep s) as [|p ps] eqn:Hs; [done|]. split.
    + cbn. cbn in IHj. by rewrite IHj.
    + by constructor.
  - destruct (Py.split sep s) as [|p ps] eqn:Hs; [by destruct (split_cons_nonempty sep s)|].
    apply Forall_cons in IHf as [Hp Hps]. split.
    + cbn in *. destruct ps as [|q ps]; [by rewrite IHj|].
      rewrite append_String. by rewrite IHj.
    + constructor; [|done]. cbn. by rewrite decide_False.
Qed.

(** ** Facts about floats out of range *)

Lemma digits2_log2 p : Zdigits2 (Zpos p) = Z.succ (Z.log2 (Zpos p)).
Proof.
  assert (∀ q, digits2_pos q = Pos.size q) as Hsize.
  { induction q as [q IH|q IH|]; cbn; by rewrite ?IH. }
  destruct p as [p|p|]; cbn [Zdigits2 digits2_pos Z.log2]; rewrite ?Hsize; lia.
Qed.

Lemma shr_1_digits s : Zdigits2 (shr_m (shr_1 s)) = Z.max 0 (Zdigits2 (shr_m s) - 1).
Proof. destruct s as [[|[p|p|]|[p|p|]] r t]; cbn; lia. Qed.

Lemma shr_1_sign s : (0 ≤ shr_m s)%Z → (0 ≤ shr_m (shr_1 s))%Z.
Proof. destruct s as [[|[p|p|]|[p|p|]] r t]; cbn; lia. Qed.

Lemma iter_shr_1 n s :
  Zdigits2 (shr_m (SpecFloat.iter_pos shr_1 n s)) = Z.max 0 (Zdigits2 (shr_m s) - Zpos n)
  ∧ ((0 ≤ shr_m s)%Z → (0 ≤ shr_m (SpecFloat.iter_pos shr_1 n s))%Z).
Proof.
  revert s. induction n as [n IH|n IH|]; intros s; cbn [SpecFloat.iter_pos].
  - destruct (IH (shr_1 s)) as [Hd Hs]. destruct (IH (SpecFloat.iter_pos shr_1 n (shr_1 s))) as [Hd' Hs'].
    split.
    + rewrite Hd', Hd, shr_1_digits. lia.
    + intros ?. by apply Hs', Hs, shr_1_sign.
  - destruct (IH s) as [Hd Hs]. destruct (IH (SpecFloat.iter_pos shr_1 n s)) as [Hd' Hs']. split.
    + rewrite Hd', Hd. lia.
    + intros ?. by apply Hs', Hs.
  - split; [by rewrite shr_1_digits|apply shr_1_sign].
Qed.

Lemma digits2_pos_mantissa m : (0 < m)%Z → ∃ p, m = Zpos p.
Proof. destruct m; [lia| |lia]. by eexists. Qed.

Lemma digits2_zero m : (0 ≤ m)%Z → (0 < Zdigits2 m)%Z → (0 < m)%Z.
Proof. destruct m; cbn; lia. Qed.

(** A value of at least [2 ^ 1024] rounds to an infinity. *)
Lemma binary_round_aux_out_of_range sx (m : positive) e l :
  (1024 < Zdigits2 (Zpos m) + e)%Z →
  binary_round_aux Float.prec Float.emax sx (Zpos m) e l = S754_infinity sx.
Proof.
  intros Hbig. unfold binary_round_aux.
  (* the first shift *)
  assert (∃ mrs e', shr_fexp Float.prec Float.emax (Zpos m) e l = (mrs, e')
            ∧ (0 < shr_m mrs)%Z ∧ (Zdigits2 (shr_m mrs) ≤ 53)%Z
            ∧ (1024 < Zdigits2 (shr_m mrs) + e')%Z) as (mrs & e' & -> & Hpos & Hd & Hbig').
  { unfold shr_fexp, shr, fexp, emin, Float.prec, Float.emax.
    assert (shr_m (shr_record_of_loc (Zpos m) l) = Zpos m) as Hm
      by (by destruct l as [|[]]).
    destruct (Z.max (Zdigits2 (Zpos m) + e - 53) (3 - 1024 - 53) - e)%Z as [|n|n] eqn:Hn.
    - eexists _, _. split; [done|]. rewrite Hm. split; [lia|]. split; lia.
    - destruct (iter_shr_1 n (shr_record_of_loc (Zpos m) l)) as [Hdn Hsn].
      rewrite Hm in Hdn, Hsn.
      eexists _, _. split; [done|]. split_and!.
      + apply digits2_zero; [apply Hsn; lia|]. rewrite Hdn. lia.
      + rewrite Hdn. lia.
      + rewrite Hdn. lia.
    - eexists _, _. split; [done|]. rewrite Hm. split; [lia|]. split; lia. }
  destruct (digits2_pos_mantissa _ Hpos) as [m1 Hm1].
  (* rounding *)
  set (m2 := round_nearest_even (shr_m mrs) (loc_of_shr_record mrs)).
  assert ((m2 = shr_m mrs ∨ m2 = shr_m mrs + 1)%Z) as Hm2.
  { unfold m2, round_nearest_even.
    destruct (loc_of_shr_record mrs) as [|[]]; [tauto| |tauto..].
    destruct (Z.even (shr_m mrs)); tauto. }
  assert ((0 < m2)%Z) as Hpos2 by lia.
  destruct (digits2_pos_mantissa _ Hpos2) as [p2 Hp2].
  assert ((Zdigits2 (shr_m mrs) ≤ Zdigits2 m2 ≤ Zdigits2 (shr_m mrs) + 1)%Z) as Hd2.
  { rewrite Hp2, Hm1, !digits2_log2. rewrite Hm1, Hp2 in Hm2.
    destruct Hm2 as [->|Hm2]; [lia|]. rewrite Hm2, Z.add_1_r.
    pose proof (Z.log2_succ_le (Zpos m1)).
    pose proof (Z.log2_le_mono (Zpos m1) (Z.succ (Zpos m1))). lia. }
  (* the second shift *)
  unfold shr_fexp, shr, fexp, emin, Float.prec, Float.emax.
  cbn [shr_record_of_loc].
  destruct (Z.max (Zdigits2 m2 + e' - 53) (3 - 1024 - 53) - e')%Z as [|n|n] eqn:Hn.
  - cbn [shr_m]. rewrite Hp2. destruct (Z.leb_spec e' (1024 - 53)); [lia|done].
  - assert (n = 1%positive) as -> by lia.
    cbn [SpecFloat.iter_pos].
    pose proof (shr_1_digits {| shr_m := m2; shr_r := false; shr_s := false |}) as Hd1.
    pose proof (shr_1_sign {| shr_m := m2; shr_r := false; shr_s := false |}) as Hs1.
    cbn [shr_m] in Hd1, Hs1 |- *.
    destruct (shr_m (shr_1 {| shr_m := m2; shr_r := false; shr_s := false |})) as [|m3|m3].
    + cbn in Hd1. lia.
    + destruct (Z.leb_spec (e' + 1) (1024 - 53)); [lia|done].
    + lia.
  - cbn [shr_m]. rewrite Hp2. destruct (Z.leb_spec e' (1024 - 53)); [lia|done].
Qed.

(** An int of absolute value [2 ^ 1024] or more is too large for a float. *)
Lemma of_int_out_of_range n :
  (2 ^ 1024 ≤ Z.abs n)%Z → Float.of_int n = Raise OverflowError.
Proof.
  intros Hn. unfold Float.of_int, Float.nearest, binary_normalize.
  assert (∀ m sx, (2 ^ 1024 ≤ Zpos m)%Z →
            binary_round Float.prec Float.emax sx m 0 = S754_infinity sx) as Hround.
  { intros m sx Hm. unfold binary_round, shl_align.
    assert ((1024 < Zdigits2 (Zpos m))%Z) as Hd.
    { rewrite digits2_log2. apply Z.lt_succ_r, Z.log2_le_pow2; lia. }
    change (Zpos (digits2_pos m)) with (Zdigits2 (Zpos m)).
    unfold fexp, emin, Float.prec, Float.emax.
    destruct (Z.max (Zdigits2 (Zpos m) + 0 - 53) (3 - 1024 - 53) - 0)%Z eqn:Hs; [lia| |lia].
    apply binary_round_aux_out_of_range. lia. }
  destruct n as [|m|m]; [done|..]; by rewrite Hround.
Qed.

(** The quotient of two ints that is [2 ^ 1024] or more in absolute value
    is too large for a float. *)
Lemma truediv_out_of_range a b :
  (Zpos b * 2 ^ 1024 ≤ Z.abs a)%Z → Float.truediv a b = Raise OverflowError.
Proof.
  intros Ha. unfold Float.truediv.
  assert (∀ m sx, (Zpos b * 2 ^ 1024 ≤ Zpos m)%Z →
            SFdiv Float.prec Float.emax (S754_finite sx m 0) (S754_finite false b 0)
            = S754_infinity (xorb sx false)) as Hdiv.
  { intros m sx Hm. unfold SFdiv, SFdiv_core_binary.
    assert ((Zdigits2 (Zpos b) + 1024 ≤ Zdigits2 (Zpos m))%Z) as Hd.
    { rewrite !digits2_log2.
      enough (Z.log2 (Zpos b) + 1024 ≤ Z.log2 (Zpos m))%Z by lia.
      apply Z.log2_le_pow2; [lia|]. rewrite Z.pow_add_r by (done || apply Z.log2_nonneg).
      pose proof (Z.log2_spec (Zpos b) ltac:(lia)). nia. }
    unfold fexp, emin, Float.prec, Float.emax.
    rewrite !Z.add_0_r, Z.sub_0_r.
    rewrite (Z.min_r _ 0) by lia. change (0 - 0)%Z with 0%Z. cbv iota.
    change IntDef.Z.div_eucl with Z.div_eucl.
    pose proof (Z.div_eucl_eq (Zpos m) (Zpos b) ltac:(lia)) as Heq.
    pose proof (Z.mod_pos_bound (Zpos m) (Zpos b) ltac:(lia)) as Hr.
    unfold Z.modulo in Hr.
    destruct (Z.div_eucl (Zpos m) (Zpos b)) as [q r].
    assert ((2 ^ 1024 ≤ q)%Z) as Hq by nia.
    destruct (digits2_pos_mantissa q ltac:(lia)) as [pq ->].
    apply binary_round_aux_out_of_range.
    rewrite digits2_log2. enough (1024 ≤ Z.log2 (Zpos pq))%Z by lia.
    apply Z.log2_le_pow2; lia. }
  destruct a as [|m|m]; cbn [Float.whole].
  - cbn in Ha. lia.
  - by rewrite Hdiv.
  - by rewrite Hdiv.
Qed.


(** ** Facts about floats in range *)

Lemma digits2_le m k : (0 ≤ m < 2 ^ k)%Z → (0 ≤ k)%Z → (Zdigits2 m ≤ k)%Z.
Proof.
  intros [Hm Hlt] Hk. destruct m as [|p|p]; [done| |lia].
  rewrite digits2_log2. enough (Z.log2 (Zpos p) < k)%Z by lia.
  apply Z.log2_lt_pow2; lia.
Qed.

Lemma digits2_nonneg m : (0 ≤ Zdigits2 m)%Z.
Proof. destruct m; cbn; lia. Qed.

Lemma digits2_succ m : (0 ≤ m)%Z → (Zdigits2 (m + 1) ≤ Zdigits2 m + 1)%Z.
Proof.
  intros Hm. destruct m as [|p|p]; [done| |lia].
  change (Zpos p + 1)%Z with (Zpos (p + 1)). rewrite !digits2_log2.
  pose proof (Z.log2_succ_le (Zpos p)). rewrite <- Z.add_1_r in H.
  change (Zpos p + 1)%Z with (Zpos (p + 1)) in H. lia.
Qed.

(** A value below [2 ^ 1023] does not round to an infinity. *)
Lemma binary_round_aux_in_range sx (m : Z) e l :
  (0 ≤ m)%Z → (e ≤ 0)%Z → (Zdigits2 m + e ≤ 1023)%Z →
  Float.in_range (binary_round_aux Float.prec Float.emax sx m e l)
  = Ok (binary_round_aux Float.prec Float.emax sx m e l).
Proof.
  intros Hm He Hsmall. unfold binary_round_aux.
  assert (∃ mrs e', shr_fexp Float.prec Float.emax m e l = (mrs, e')
            ∧ (0 ≤ shr_m mrs)%Z ∧ (e' ≤ 970)%Z
            ∧ (Zdigits2 (shr_m mrs) + e' ≤ 1023)%Z) as (mrs & e' & -> & Hpos & He' & Hd).
  { unfold shr_fexp, shr, fexp, emin, Float.prec, Float.emax.
    assert (shr_m (shr_record_of_loc m l) = m) as Hrec by (by destruct l as [|[]]).
    destruct (Z.max (Zdigits2 m + e - 53) (3 - 1024 - 53) - e)%Z as [|n|n] eqn:Hn.
    - eexists _, _. split; [done|]. rewrite Hrec. lia.
    - destruct (iter_shr_1 n (shr_record_of_loc m l)) as [Hdn Hsn].
      rewrite Hrec in Hdn, Hsn.
      eexists _, _. split; [done|]. rewrite Hdn. split; [auto|]. lia.
    - eexists _, _. split; [done|]. rewrite Hrec. lia. }
  set (m2 := round_nearest_even (shr_m mrs) (loc_of_shr_record mrs)).
  assert ((m2 = shr_m mrs ∨ m2 = shr_m mrs + 1)%Z) as Hm2.
  { unfold m2, round_nearest_even.
    destruct (loc_of_shr_record mrs) as [|[]]; [tauto| |tauto..].
    destruct (Z.even (shr_m mrs)); tauto. }
  assert ((Zdigits2 m2 ≤ Zdigits2 (shr_m mrs) + 1)%Z) as Hd2.
  { destruct Hm2 as [->| ->]; [lia|by apply digits2_succ]. }
  pose proof (digits2_nonneg m2).
  unfold shr_fexp, shr, fexp, emin, Float.prec, Float.emax.
  cbn [shr_record_of_loc].
  destruct (Z.max (Zdigits2 m2 + e' - 53) (3 - 1024 - 53) - e')%Z as [|n|n] eqn:Hn.
  - cbn [shr_m]. destruct m2; [done| |done].
    destruct (Z.leb_spec e' (1024 - 53)); [done|lia].
  - destruct (shr_m (SpecFloat.iter_pos shr_1 n
                       {| shr_m := m2; shr_r := false; shr_s := false |})); [done| |done].
    destruct (Z.leb_spec (e' + Z.pos n) (1024 - 53)); [done|lia].
  - cbn [shr_m]. destruct m2; [done| |done].
    destruct (Z.leb_spec e' (1024 - 53)); [done|lia].
Qed.

Lemma digits2_shift m d :
  Zdigits2 (Zpos (Pos.iter xO m d)) = (Zdigits2 (Zpos m) + Zpos d)%Z.
Proof.
  induction d as [|d IH] using Pos.peano_ind.
  - cbn [Pos.iter Zdigits2 digits2_pos]. lia.
  - rewrite Pos.iter_succ. cbn [Zdigits2 digits2_pos] in *. lia.
Qed.

(** An int below [2 ^ 1023] in absolute value has a float. *)
Lemma of_int_in_range n :
  (Z.abs n < 2 ^ 1023)%Z → ∃ x, Float.of_int n = Ok x.
Proof.
  intros Hn. unfold Float.of_int, Float.nearest, binary_normalize.
  assert (∀ m sx, (Zpos m < 2 ^ 1023)%Z →
            Float.in_range (binary_round Float.prec Float.emax sx m 0)
            = Ok (binary_round Float.prec Float.emax sx m 0)) as Hround.
  { intros m sx Hm. unfold binary_round, shl_align.
    change (Zpos (digits2_pos m)) with (Zdigits2 (Zpos m)).
    assert ((Zdigits2 (Zpos m) ≤ 1023)%Z) as Hd by (apply digits2_le; lia).
    unfold fexp, emin, Float.prec, Float.emax.
    destruct (Z.max (Zdigits2 (Zpos m) + 0 - 53) (3 - 1024 - 53) - 0)%Z as [|d|d] eqn:Hs.
    - apply binary_round_aux_in_range; lia.
    - apply binary_round_aux_in_range; lia.
    - apply binary_round_aux_in_range; [lia|lia|]. rewrite digits2_shift. lia. }
  destruct n as [|m|m]; [by eexists|..]; eexists; apply Hround; lia.
Qed.

(** The quotient of two ints that is below [2 ^ 1023] in absolute value
    has a float. *)
Lemma truediv_in_range a b :
  (Z.abs a < Zpos b * 2 ^ 1023)%Z → ∃ x, Float.truediv a b = Ok x.
Proof.
  intros Ha. unfold Float.truediv.
  assert (∀ m sx, (Zpos m < Zpos b * 2 ^ 1023)%Z →
            Float.in_range (SFdiv Float.prec Float.emax (S754_finite sx m 0)
                              (S754_finite false b 0))
            = Ok (SFdiv Float.prec Float.emax (S754_finite sx m 0)
                    (S754_finite false b 0))) as Hdiv.
  { intros m sx Hm. unfold SFdiv, SFdiv_core_binary.
    set (e' := Z.min _ _). assert ((e' ≤ 0)%Z) as He' by (subst e'; lia).
    set (m' := match (0 - 0 - e')%Z with
               | 0%Z => Zpos m
               | Zpos _ => Z.shiftl (Zpos m) (0 - 0 - e')
               | Zneg _ => 0%Z
               end).
    assert (m' = (Zpos m * 2 ^ (- e'))%Z) as Hm'.
    { subst m'. destruct (0 - 0 - e')%Z eqn:Hs; [|rewrite Z.shiftl_mul_pow2 by lia|lia].
      - replace (- e')%Z with 0%Z by lia. lia.
      - f_equal. f_equal. lia. }
    change IntDef.Z.div_eucl with Z.div_eucl.
    pose proof (Z.div_eucl_eq m' (Zpos b) ltac:(lia)) as Heq.
    pose proof (Z.mod_pos_bound m' (Zpos b) ltac:(lia)) as Hr.
    unfold Z.modulo in Hr.
    destruct (Z.div_eucl m' (Zpos b)) as [q r].
    assert ((0 < 2 ^ (- e'))%Z) as Hpow by (apply Z.pow_pos_nonneg; lia).
    assert ((0 ≤ q)%Z) as Hq by nia.
    assert ((q < 2 ^ (1023 - e'))%Z) as Hq'.
    { replace (1023 - e')%Z with (1023 + - e')%Z by lia.
      rewrite Z.pow_add_r by lia. nia. }
    apply binary_round_aux_in_range; [done..|].
    enough (Zdigits2 q ≤ 1023 - e')%Z by lia. apply digits2_le; lia. }
  destruct a as [|m|m]; cbn [Float.whole]; [by eexists|..]; eexists; apply Hdiv; lia.
Qed.

Lemma has_char_append_sep sep a b : Py.has_char sep (a +:+ String sep b) = true.
Proof.
  induction a as [|c a IH].
  - change (Py.has_char sep (String sep b) = true). cbn. by rewrite decide_True.
  - rewrite append_String. cbn. by destruct (decide (c = sep)).
Qed.

Lemma in_range_cases x :
  Float.in_range x = Ok x ∨ Float.in_range x = Raise OverflowError.
Proof. destruct x; by (left + right). Qed.

Lemma truediv_cases a b :
  (∃ x, Float.truediv a b = Ok x) ∨ Float.truediv a b = Raise OverflowError.
Proof. unfold Float.truediv. destruct (in_range_cases (SFdiv Float.prec Float.emax (Float.whole a) (S754_finite false b 0))); eauto. Qed.

Lemma of_int_cases n :
  (∃ x, Float.of_int n = Ok x) ∨ Float.of_int n = Raise OverflowError.
Proof. unfold Float.of_int. destruct (in_range_cases (Float.nearest n)); eauto. Qed.

Lemma int_add_cases n x :
  (∃ y, Float.int_add n x = Ok y) ∨ Float.int_add n x = Raise OverflowError.
Proof. unfold Float.int_add. destruct (of_int_cases n) as [[y ->]| ->]; cbn; eauto. Qed.

Lemma int_mul_cases n x :
  (∃ y, Float.int_mul n x = Ok y) ∨ Float.int_mul n x = Raise OverflowError.
Proof. unfold Float.int_mul. destruct (of_int_cases n) as [[y ->]| ->]; cbn; eauto. Qed.

Section TimeLimitFacts.
Variable int : string → option Z.

Lemma parse_hms h m s hh mm ss :
  no_colon h → no_colon m → no_colon s →
  int h = Some hh → int m = Some mm → int s = Some ss →
  parse_time_limit int (h +:+ ":" +:+ m +:+ ":" +:+ s)
  = (minutes_60 ← Float.truediv mm 60;
     hours_minutes ← Float.int_add hh minutes_60;
     seconds_3600 ← Float.truediv ss 3600;
     Ok (Float.add hours_minutes seconds_3600)).
Proof.
  intros Hh Hm Hs Ih Im Is. unfold parse_time_limit.
  change (":" +:+ m +:+ ":" +:+ s) with (String ":" (m +:+ String ":" s)).
  rewrite !split_append_sep, split_no_sep by done. by rewrite Ih, Im, Is.
Qed.

Lemma parse_ms m s mm ss :
  no_colon m → no_colon s → int m = Some mm → int s = Some ss →
  parse_time_limit int (m +:+ ":" +:+ s)
  = (minutes_60 ← Float.truediv mm 60;
     seconds_3600 ← Float.truediv ss 3600;
     Ok (Float.add minutes_60 seconds_3600)).
Proof.
  intros Hm Hs Im Is. unfold parse_time_limit.
  change (":" +:+ s) with (String ":" s).
  rewrite split_append_sep, split_no_sep by done. by rewrite Im, Is.
Qed.

Lemma parse_minutes m mm :
  no_colon m → int m = Some mm →
  parse_time_limit int m = Float.truediv mm 60.
Proof.
  intros Hm Im. unfold parse_time_limit. rewrite split_no_sep by done. by rewrite Im.
Qed.

Lemma parse_default time_str :
  ¬ fits_shape int time_str → parse_time_limit int time_str = Ok Float.one.
Proof.
  intros Hfit. unfold parse_time_limit.
  destruct (split_join ":" time_str) as [Hjoin Hall].
  destruct (Py.split ":" time_str) as [|a [|b [|c [|d rest]]]]; [done| | |..]; [| | |done].
  - apply Forall_cons in Hall as [Ha _]. cbn in Hjoin. subst a.
    destruct (int time_str) eqn:Hi; [|done]. destruct Hfit. right; right.
    split; [done|]. by rewrite Hi.
  - apply Forall_cons in Hall as [Ha Hall]. apply Forall_cons in Hall as [Hb _].
    cbn in Hjoin. destruct (int a) eqn:Hia; [|done]. destruct (int b) eqn:Hib; [|done].
    destruct Hfit. right; left. exists a, b. rewrite Hia, Hib. done.
  - apply Forall_cons in Hall as [Ha Hall]. apply Forall_cons in Hall as [Hb Hall].
    apply Forall_cons in Hall as [Hc _]. cbn in Hjoin.
    destruct (int a) eqn:Hia; [|done]. destruct (int b) eqn:Hib; [|done].
    destruct (int c) eqn:Hic; [|done].
    destruct Hfit. left. exists a, b, c. rewrite Hia, Hib, Hic. done.
Qed.

(** No exception but [OverflowError] leaves the function. *)
Lemma parse_time_limit_cases time_str :
  (∃ x, parse_time_limit int time_str = Ok x)
  ∨ parse_time_limit int time_str = Raise OverflowError.
Proof.
  unfold parse_time_limit.
  destruct (Py.split ":" time_str) as [|a [|b [|c [|d rest]]]]; [by eauto| | |..]; [| | |by eauto].
  - destruct (int a); [|by eauto]. apply truediv_cases.
  - destruct (int a); [|by eauto]. destruct (int b); [|by eauto].
    destruct (truediv_cases z 60) as [[x ->]| ->]; [|by right].
    destruct (truediv_cases z0 3600) as [[y ->]| ->]; [|by right].
    cbn. eauto.
  - destruct (int a); [|by eauto]. destruct (int b); [|by eauto].
    destruct (int c); [|by eauto].
    destruct (truediv_cases z0 60) as [[x ->]| ->]; [|by right].
    cbn [mbind result_bind].
    destruct (int_add_cases z x) as [[y ->]| ->]; [|by right].
    cbn [mbind result_bind].
    destruct (truediv_cases z1 3600) as [[y' ->]| ->]; [|by right].
    cbn. eauto.
Qed.

(** With fields in range the function returns. *)
Lemma parse_time_limit_in_range time_str :
  fields_in_range int time_str → ∃ x, parse_time_limit int time_str = Ok x.
Proof.
  unfold fields_in_range, parse_time_limit. intros Hrange.
  assert (∀ field n (b : positive), field ∈ Py.split ":" time_str → int field = Some n →
            ∃ x, Float.truediv n b = Ok x) as Hdiv.
  { intros field n b Hin Hint. apply truediv_in_range.
    specialize (Hrange field n Hin Hint). nia. }
  assert (∀ field n y, field ∈ Py.split ":" time_str → int field = Some n →
            ∃ x, Float.int_add n y = Ok x) as Hadd.
  { intros field n y Hin Hint. unfold Float.int_add.
    destruct (of_int_in_range n (Hrange field n Hin Hint)) as [x ->]. by eexists. }
  destruct (Py.split ":" time_str) as [|a [|b [|c [|d rest]]]]; [by eauto| | |..];
    [| | |by eauto].
  - destruct (int a) as [mm|] eqn:Ha; [|by eauto]. apply (Hdiv a); [left|done].
  - destruct (int a) as [mm|] eqn:Ha; [|by eauto].
    destruct (int b) as [ss|] eqn:Hb; [|by eauto].
    destruct (Hdiv a mm 60%positive ltac:(left) Ha) as [x ->].
    destruct (Hdiv b ss 3600%positive ltac:(right; left) Hb) as [y ->].
    cbn. by eexists.
  - destruct (int a) as [hh|] eqn:Ha; [|by eauto].
    destruct (int b) as [mm|] eqn:Hb; [|by eauto].
    destruct (int c) as [ss|] eqn:Hc; [|by eauto].
    destruct (Hdiv b mm 60%positive ltac:(right; left) Hb) as [x ->].
    cbn [mbind result_bind].
    destruct (Hadd a hh x ltac:(left) Ha) as [y ->].
    cbn [mbind result_bind].
    destruct (Hdiv c ss 3600%positive ltac:(right; right; left) Hc) as [z ->].
    cbn. by eexists.
Qed.
End TimeLimitFacts.

(** C8. The code on every input string, and at the failing inputs.  On an
    input that fits none of the three shapes [parse_time_limit] returns the
    default of 1.0 hour; on an input of one of the shapes it evaluates the
    float expression of that shape.  The expression has no value when a
    field is too large for a float: the division and the conversion of
    the int raise [OverflowError], which no handler catches, so the
    function raises instead of returning.  No other exception leaves it.
    A bare integer of at least [60 * 2 ^ 1024] in absolute value is such an
    input; with every field below [2 ^ 1023] in absolute value the function
    returns. *)
Theorem parse_time_limit_overflow (int : string → option Z) (time_str : string) :
  (∀ h m s hh mm ss,
     time_str = h +:+ ":" +:+ m +:+ ":" +:+ s →
     no_colon h → no_colon m → no_colon s →
     int h = Some hh → int m = Some mm → int s = Some ss →
     parse_time_limit int time_str
     = (minutes_60 ← Float.truediv mm 60;
        hours_minutes ← Float.int_add hh minutes_60;
        seconds_3600 ← Float.truediv ss 3600;
        Ok (Float.add hours_minutes seconds_3600)))
  ∧ (∀ m s mm ss,
       time_str = m +:+ ":" +:+ s → no_colon m → no_colon s →
       int m = Some mm → int s = Some ss →
       parse_time_limit int time_str
       = (minutes_60 ← Float.truediv mm 60;
          seconds_3600 ← Float.truediv ss 3600;
          Ok (Float.add minutes_60 seconds_3600)))
  ∧ (∀ mm, no_colon time_str → int time_str = Some mm →
       parse_time_limit int time_str = Float.truediv mm 60)
  ∧ (¬ fits_shape int time_str → parse_time_limit int time_str = Ok Float.one)
  ∧ ((∃ x, parse_time_limit int time_str = Ok x)
     ∨ parse_time_limit int time_str = Raise OverflowError)
  ∧ (∀ mm, no_colon time_str → int time_str = Some mm →
       (60 * 2 ^ 1024 ≤ Z.abs mm)%Z →
       parse_time_limit int time_str = Raise OverflowError)
  ∧ (fields_in_range int time_str → ∃ x, parse_time_limit int time_str = Ok x).
Proof.
  split_and!.
  - intros h m s hh mm ss ->. apply parse_hms.
  - intros m s mm ss ->. apply parse_ms.
  - intros mm. apply parse_minutes.
  - apply parse_default.
  - apply parse_time_limit_cases.
  - intros mm Hm Im Hbig. rewrite (parse_minutes int _ mm) by done.
    by apply truediv_out_of_range.
  - apply parse_time_limit_in_range.
Qed.

Lemma parse_time_limit_overflow_witness :
  parse_time_limit int_decimal many_nines = Raise OverflowError
  ∧ parse_time_limit int_decimal "45" = Float.truediv 45 60
  ∧ parse_time_limit int_decimal "soon" = Ok Float.one.
Proof.
  split_and!.
  - apply (proj1 (proj2 (proj2 (proj2 (proj2 (proj2
             (parse_time_limit_overflow int_decimal many_nines)))))) (10 ^ 400 - 1)%Z).
    + reflexivity.
    + vm_compute. reflexivity.
    + vm_compute. discriminate.
  - by apply (proj1 (proj2 (proj2 (parse_time_limit_overflow int_decimal "45")))).
  - apply (proj1 (proj2 (proj2 (proj2 (parse_time_limit_overflow int_decimal "soon"))))).
    intros [(h & m & s & Heq & _)|[(m & s & Heq & _)|[_ [z Hz]]]].
    + apply (f_equal (Py.has_char ":")) in Heq.
      change (":" +:+ m +:+ ":" +:+ s) with (String ":" (m +:+ ":" +:+ s)) in Heq.
      rewrite has_char_append_sep in Heq. vm_compute in Heq. discriminate.
    + apply (f_equal (Py.has_char ":")) in Heq.
      change (":" +:+ s) with (String ":" s) in Heq.
      rewrite has_char_append_sep in Heq. vm_compute in Heq. discriminate.
    + vm_compute in Hz. discriminate.
Defined.

(** The values on the three shapes, as floats: 1 h 30 min, 90 min 30 s (a
    float, not the rational 181/120), and 45 min. *)
Example parse_time_limit_values :
  parse_time_limit int_decimal "01:30:00" = Ok (S754_finite false 6755399441055744 (-52))
  ∧ parse_time_limit int_decimal "90:30" = Ok (S754_finite false 6792929437950498 (-52))
  ∧ parse_time_limit int_decimal "45" = Ok (S754_finite false 6755399441055744 (-53)).
Proof. by vm_compute. Qed.

(** ** Facts about the submission driver *)

Lemma startswith_append p s : Py.startswith p (p +:+ s) = true.
Proof.
  induction p as [|c p IH]; [done|]. rewrite append_String. cbn.
  by rewrite decide_True.
Qed.

Lemma recorded_by_app initial tr new dep job_id :
  recorded_by initial tr dep job_id → recorded_by initial (tr ++ new) dep job_id.
Proof.
  intros [?|(cmd & out & Hin & Hid)]; [by left|right].
  exists cmd, out. split; [|done]. apply elem_of_app. by left.
Qed.

Section DriverFacts.
Variable run_group_id : string.
Variable trigger : list event → list string → trigger_result.
Variable input : list event → string → string.
Variable self : Submitter.
Variable jobs_to_run : gset string.

Lemma events_ok_app tr new :
  events_ok run_group_id self jobs_to_run tr →
  (∀ j ev, new !! j = Some ev →
     constraint_ok run_group_id self jobs_to_run (tr ++ take j new) ev) →
  events_ok run_group_id self jobs_to_run (tr ++ new).
Proof.
  intros Hold Hnew i ev Hi. apply lookup_app_Some in Hi as [Hi|[Hlen Hi]].
  - rewrite take_app_le by (apply Nat.lt_le_incl; by eapply lookup_lt_Some).
    by apply Hold.
  - rewrite take_app_ge by done. by apply Hnew.
Qed.

Lemma events_ok_snoc_asked tr prompt reply :
  events_ok run_group_id self jobs_to_run tr →
  events_ok run_group_id self jobs_to_run (tr ++ [Asked prompt reply]).
Proof.
  intros Hold. apply events_ok_app; [done|].
  intros j ev Hj. apply list_lookup_singleton_Some in Hj as [_ <-]. done.
Qed.

Lemma dep_job_ids_elem_of (s : Submitter) active job_id :
  job_id ∈ dep_job_ids s active →
  ∃ dep, dep ∈ active ∧ submitted_jobs s !! dep = Some job_id.
Proof. unfold dep_job_ids. intros (dep & ? & ?)%list_elem_of_omap. eauto. Qed.

Lemma dep_job_ids_nil (s : Submitter) active :
  (∀ dep, dep ∈ active → is_Some (submitted_jobs s !! dep)) →
  dep_job_ids s active = [] → active = [].
Proof.
  intros Hall Hnil. destruct active as [|dep active]; [done|].
  destruct (Hall dep) as [job_id Hid]; [left|].
  unfold dep_job_ids in Hnil. cbn in Hnil. by rewrite Hid in Hnil.
Qed.

(** The command that [submit_job] builds in a state of the run. *)
Lemma dependency_args_ok (p : progress) job_key config :
  driver_inv run_group_id self jobs_to_run p →
  dry_run self = false →
  Py.get (job_configs self) job_key = Some config →
  ∀ outcome,
    constraint_ok run_group_id self jobs_to_run (trace p)
      (Submitted job_key
         (base_command run_group_id config
          ++ dependency_args (submitter p) job_key (Some jobs_to_run)) outcome).
Proof.
  intros (_ & _ & Hdeps & Hrec & _) Hdry Hcfg outcome. unfold constraint_ok.
  pose (active := active_deps (submitter p) job_key jobs_to_run).
  assert (∀ dep, dep ∈ active →
            dep ∈ Py.get_list (dependencies self) job_key ∧ dep ∈ jobs_to_run
            ∧ is_Some (submitted_jobs (submitter p) !! dep)) as Hactive.
  { intros dep [[? ?] Hd]%list_elem_of_filter. by rewrite Hdeps in Hd. }
  exists config, (dep_job_ids (submitter p) active). split; [done|]. split_and!.
  - f_equal. unfold dependency_args. fold active. destruct active as [|d active'] eqn:Hact; [done|].
    destruct (dep_job_ids (submitter p) (d :: active')) eqn:Hids; [|done].
    apply dep_job_ids_nil in Hids; [done|]. intros dep Hd. by apply Hactive.
  - intros job_id (dep & Hd & Hid)%dep_job_ids_elem_of.
    destruct (Hactive dep Hd) as (? & ? & _). exists dep. split_and!; [done..|].
    by apply Hrec.
  - intros Hnone. destruct active as [|d active'] eqn:Hact; [done|]. exfalso.
    destruct (Hactive d) as (? & ? & [job_id Hid]); [left|].
    eapply Hnone; [done..|]. by apply Hrec.
Qed.

(** One call of [submit_job] in a state of the run. *)
Lemma submit_job_inv (p : progress) job_key :
  driver_inv run_group_id self jobs_to_run p →
  let r := submit_job run_group_id trigger input (submitter p) (trace p) job_key
             (Some jobs_to_run) in
  r.1 ≠ OutOfFuel
  ∧ (∃ new, r.2 = trace p ++ new)
  ∧ events_ok run_group_id self jobs_to_run r.2
  ∧ (dry_run self = false → ∀ job_id,
       r.1 = Ok job_id → Py.startswith "failed_" job_id = false →
       ∃ cmd stdout, Submitted job_key cmd (Completed stdout) ∈ r.2
                     ∧ id_from_output stdout job_id).
Proof.
  intros Hinv. pose proof Hinv as (Hdry & Hcfg & Hdeps & Hrec & Hev).
  unfold submit_job. rewrite Hcfg.
  destruct (Py.get (job_configs self) job_key) as [config|] eqn:Hget; cbn zeta.
  2:{ cbn. split_and!; [done|exists []; by rewrite app_nil_r|done|done]. }
  rewrite Hdry. destruct (dry_run self) eqn:Hd.
  { cbn. split_and!; [done|by eexists| |done].
    apply events_ok_app; [done|].
    intros j ev Hj. apply list_lookup_singleton_Some in Hj as [_ <-]. done. }
  set (cmd := base_command run_group_id config
              ++ dependency_args (submitter p) job_key (Some jobs_to_run)).
  assert (∀ outcome, events_ok run_group_id self jobs_to_run
            (trace p ++ [Submitted job_key cmd outcome])) as Hsub.
  { intros outcome. apply events_ok_app; [done|].
    intros j ev Hj. apply list_lookup_singleton_Some in Hj as [-> <-].
    cbn [take]. rewrite app_nil_r. by apply dependency_args_ok. }
  destruct (trigger (trace p) cmd) as [stdout| |] eqn:Htrig.
  - destruct (find_job_id stdout) as [found|] eqn:Hfind; cbn.
    + split_and!; [done|by eexists|done|]. intros _ job_id [= <-] _.
      exists cmd, stdout. split; [apply elem_of_app; right; left|by left].
    + split_and!; [done|by eexists|done|]. intros _ job_id [= <-] _.
      exists cmd, stdout. split; [apply elem_of_app; right; left|].
      right. split; [done|by eexists].
  - destruct (answered_yes _); cbn.
    + split_and!; [done|rewrite <- app_assoc; by eexists| |].
      * by apply events_ok_snoc_asked.
      * intros _ job_id [= <-] Hf. exfalso. revert Hf.
        generalize (pretty (size (submitted_jobs (submitter p)))). by intros s.
    + split_and!; [done|rewrite <- app_assoc; by eexists| |done].
      by apply events_ok_snoc_asked.
  - cbn. split_and!; [done|by eexists|done|done].
Qed.

Lemma submit_batch_inv batch (p : progress) n :
  driver_inv run_group_id self jobs_to_run p →
  driver_inv run_group_id self jobs_to_run
    (submit_batch run_group_id trigger input jobs_to_run batch p n).1.
Proof.
  revert p n. induction batch as [|job_key batch IH]; intros p n Hinv; [done|].
  cbn [submit_batch].
  destruct (submit_job_inv p job_key Hinv) as (Hfuel & [new Hnew] & Hev & Hok).
  destruct Hinv as (Hdry & Hcfg & Hdeps & Hrec & _).
  destruct (submit_job run_group_id trigger input (submitter p) (trace p) job_key
              (Some jobs_to_run)) as [r tr] eqn:Hrun.
  cbn [fst snd] in *. subst tr. destruct r as [job_id|e|]; [| |done].
  - destruct (Py.startswith "failed_" job_id) eqn:Hfailed; apply IH.
    + split_and!; cbn; [done..| |done].
      intros Hd dep id Hid. by apply recorded_by_app, Hrec.
    + split_and!; cbn; [done..| |done].
      intros Hd dep id Hid. destruct (decide (job_key = dep)) as [->|Hne].
      * rewrite lookup_insert_eq in Hid. injection Hid as <-.
        destruct (Hok Hd job_id eq_refl Hfailed) as (cmd & out & ? & ?).
        right. by exists cmd, out.
      * rewrite lookup_insert_ne in Hid by done. by apply recorded_by_app, Hrec.
  - assert (∀ reply, driver_inv run_group_id self jobs_to_run
        {| submitter := submitter p;
           trace := (trace p ++ new) ++ [Asked prompt_unexpected reply];
           submitted_count := submitted_count p;
           failed_count := S (failed_count p) |}) as Hasked.
    { intros reply. split_and!; cbn; [done..| |by apply events_ok_snoc_asked].
      intros Hd dep id Hid. rewrite <- app_assoc. by apply recorded_by_app, Hrec. }
    destruct (is_Exception e).
    + destruct (answered_yes _); [apply IH|]; apply Hasked.
    + split_and!; cbn; [done..| |done].
      intros Hd dep id Hid. by apply recorded_by_app, Hrec.
Qed.

Lemma submit_batches_inv order (p : progress) :
  driver_inv run_group_id self jobs_to_run p →
  driver_inv run_group_id self jobs_to_run
    (submit_batches run_group_id trigger input jobs_to_run order p).
Proof.
  revert p. induction order as [|batch order IH]; intros p Hinv; [done|].
  cbn [submit_batches].
  pose proof (submit_batch_inv batch p 0 Hinv) as Hbatch.
  destruct (submit_batch run_group_id trigger input jobs_to_run batch p 0) as [p' n].
  cbn [fst snd] in *. destruct (decide (length batch / 2 < n)); [|by apply IH].
  destruct Hbatch as (Hdry & Hcfg & Hdeps & Hrec & Hev).
  assert (∀ reply, driver_inv run_group_id self jobs_to_run
        {| submitter := submitter p';
           trace := trace p' ++ [Asked prompt_batch_failed reply];
           submitted_count := submitted_count p';
           failed_count := failed_count p' |}) as Hasked.
  { intros reply. split_and!; cbn; [done..| |by apply events_ok_snoc_asked].
    intros Hd dep id Hid. by apply recorded_by_app, Hrec. }
  destruct (answered_yes _); [apply IH|]; apply Hasked.
Qed.

Lemma run_pipeline_inv :
  ∃ outcome p,
    run_pipeline run_group_id trigger input self jobs_to_run = Some (outcome, p)
    ∧ driver_inv run_group_id self jobs_to_run p.
Proof.
  unfold run_pipeline.
  assert (∀ tr, events_ok run_group_id self jobs_to_run tr →
            (∀ ev, ev ∈ tr → ∃ q a, ev = Asked q a) →
            driver_inv run_group_id self jobs_to_run
              {| submitter := self; trace := tr;
                 submitted_count := 0; failed_count := 0 |}) as Hstart.
  { intros tr Hev Hasked. split_and!; cbn; [done..| |done].
    intros _ dep id Hid. by left. }
  assert (events_ok run_group_id self jobs_to_run []) as Hnil by (by intros i ev ?).
  destruct (decide (jobs_to_run = ∅)).
  { eexists _, _. split; [done|]. apply Hstart; [done|]. by intros ev ?%elem_of_nil. }
  set (tr := if dry_run self then [] else [Asked prompt_confirm (input [] prompt_confirm)]).
  assert (driver_inv run_group_id self jobs_to_run
            {| submitter := self; trace := tr;
               submitted_count := 0; failed_count := 0 |}) as Hconfirmed.
  { apply Hstart; subst tr; destruct (dry_run self); try done.
    - by apply (events_ok_snoc_asked []).
    - by intros ev ?%elem_of_nil.
    - intros ev ->%list_elem_of_singleton. by eexists _, _. }
  destruct (negb (dry_run self) && negb (answered_yes _)).
  { eexists _, _. split; [done|]. exact Hconfirmed. }
  destruct (execution_order_total (dependencies self) jobs_to_run) as (order & Hord & _).
  unfold get_execution_order, get_execution_order_fuel, run_set_of. rewrite Hord.
  cbn. eexists _, _. split; [done|]. by apply submit_batches_inv.
Qed.
End DriverFacts.

(** C4. In every run, whatever the submission script and the user do, the
    command of each submission consists of the fixed arguments of the job and
    a dependency part built from a list of external identifiers.  Each of
    these identifiers is the one recorded for a dependency of the job that is
    in the run set and was recorded before the command was issued: it was in
    the map when the run began (empty for a fresh submitter), or an earlier
    call of the script for that dependency completed and gave it.  A
    dependency that is outside the run set, or whose submission failed, is
    not named; when no dependency in the run set is recorded, the command
    has no dependency part at all. *)
Theorem submission_constraints run_group_id trigger input (self : Submitter)
    (jobs_to_run : gset string) :
  ∃ outcome p,
    run_pipeline run_group_id trigger input self jobs_to_run = Some (outcome, p)
    ∧ ∀ i job_key cmd res,
        trace p !! i = Some (Submitted job_key cmd res) →
        ∃ config ids,
          Py.get (job_configs self) job_key = Some config
          ∧ cmd = base_command run_group_id config
                  ++ match ids with [] => [] | _ => dependency_clause ids end
          ∧ (∀ job_id, job_id ∈ ids →
               ∃ dep, dep ∈ Py.get_list (dependencies self) job_key
                      ∧ dep ∈ jobs_to_run
                      ∧ recorded_by (submitted_jobs self) (take i (trace p)) dep job_id)
          ∧ ((∀ dep job_id, dep ∈ Py.get_list (dependencies self) job_key →
                dep ∈ jobs_to_run →
                ¬ recorded_by (submitted_jobs self) (take i (trace p)) dep job_id) →
             ids = []).
Proof.
  destruct (run_pipeline_inv run_group_id trigger input self jobs_to_run)
    as (outcome & p & Hrun & _ & _ & _ & _ & Hev).
  exists outcome, p. split; [done|]. intros i job_key cmd res Hi.
  exact (Hev i _ Hi).
Qed.

(** The scenario of the specification: when every submission completes, the
    command for [b:z] waits for the identifier given for [a:x]. *)
Example scenario_dependency_chained :
  (λ r, (r.1, trace r.2))
    <$> run_pipeline "grp" trigger_accepts confirm_then_decline
          registry_scenario run_set_scenario
  = Some (Finished true,
          [Asked prompt_confirm "y";
           Submitted "a:y" (base_command "grp" (default_config "a" "y"))
             (Completed "Submitted batch job 4242");
           Submitted "a:x" (base_command "grp" (default_config "a" "x"))
             (Completed "Submitted batch job 4242");
           Submitted "b:z"
             (base_command "grp" (default_config "b" "z")
              ++ ["--dependency"; "afterok:4242"])
             (Completed "Submitted batch job 4242")]).
Proof. vm_compute. reflexivity. Qed.

(** C5, the code at the failing input. Registry [a:x], [a:y], [b:z] with
    [b:z] depending on [a:x]; the script fails for the jobs of stage [a]; the
    user confirms the plan and answers no to every later prompt.  The first
    job of the first batch fails, the user declines twice, and the run goes
    on to the second batch and submits [b:z], in whichever order the first
    batch is taken. *)
Theorem submission_continues_after_decline :
  (λ r, (r.1, trace r.2))
    <$> run_pipeline "grp" trigger_stage_a_fails confirm_then_decline
          registry_scenario run_set_scenario
  = Some (Finished false,
          [Asked prompt_confirm "y";
           Submitted "a:y" (base_command "grp" (default_config "a" "y")) Failed;
           Asked prompt_job_failed "n";
           Asked prompt_unexpected "n";
           Submitted "b:z" (base_command "grp" (default_config "b" "z"))
             (Completed "Submitted batch job 4242")])
  ∧ trace (submit_batches "grp" trigger_stage_a_fails confirm_then_decline
             run_set_scenario [["a:x"; "a:y"]; ["b:z"]]
             {| submitter := registry_scenario; trace := [];
                submitted_count := 0; failed_count := 0 |})
    = [Submitted "a:x" (base_command "grp" (default_config "a" "x")) Failed;
       Asked prompt_job_failed "n";
       Asked prompt_unexpected "n";
       Submitted "b:z" (base_command "grp" (default_config "b" "z"))
         (Completed "Submitted batch job 4242")].
Proof. split; vm_compute; reflexivity. Qed.

(** ** The properties on the scenario of the specification *)

Ltac decide_closed := apply (bool_decide_unpack _); vm_compute; exact I.

Lemma scenario_wf_dependencies : wf_dependencies (dependencies registry_scenario).
Proof. split; decide_closed. Qed.

Lemma scenario_acyclic :
  acyclic (dependencies registry_scenario)
    (run_set_of registry_scenario (Some run_set_scenario)).
Proof.
  apply (acyclic_of_rank _ _ rank_scenario).
  intros j d [_ Hd]. unfold valid_deps in Hd.
  apply list_elem_of_filter in Hd as [_ Hd].
  unfold Py.get_list in Hd. cbn in Hd.
  destruct (decide ("b:z" = j)) as [<-|Hne]; cbn in Hd.
  - apply list_elem_of_singleton in Hd as ->. vm_compute. lia.
  - by apply elem_of_nil in Hd.
Qed.

Lemma get_execution_order_topological_witness :
  ∃ order,
    get_execution_order registry_scenario (Some run_set_scenario) = Some order
    ∧ (∀ j, j ∈ concat order ↔ j ∈ run_set_scenario)
    ∧ NoDup (concat order).
Proof.
  destruct (get_execution_order_topological registry_scenario (Some run_set_scenario)
              scenario_wf_dependencies scenario_acyclic)
    as (order & Hrun & Hall & Hnd & _).
  exists order. split_and!; [exact Hrun|exact Hall|exact Hnd].
Defined.

Example scenario_batches :
  get_execution_order registry_scenario (Some {[ "a:x"; "b:z" ]})
  = Some [["a:x"]; ["b:z"]].
Proof. vm_compute. reflexivity. Qed.

Lemma cycle_keys_nodup : NoDup (dependencies registry_cycle).*1.
Proof. decide_closed. Qed.

Lemma cycle_on_cycle :
  tc (dep_edge (dependencies registry_cycle) (run_set_of registry_cycle None)) "a:x" "a:x".
Proof.
  apply tc_l with "b:z"; [|apply tc_once].
  - split; [decide_closed|]. apply list_elem_of_filter. split; decide_closed.
  - split; [decide_closed|]. apply list_elem_of_filter. split; decide_closed.
Qed.

Lemma get_execution_order_terminates_witness :
  ∃ order,
    get_execution_order registry_cycle None = Some order
    ∧ NoDup (concat order) ∧ "a:x" ∉ concat order.
Proof.
  destruct (get_execution_order_terminates registry_cycle None)
    as (order & Hrun & _ & Hnd & _ & Hcyc).
  exists order. split_and!; [exact Hrun|exact Hnd|].
  exact (Hcyc cycle_keys_nodup "a:x" cycle_on_cycle).
Defined.

Example cycle_batches :
  get_execution_order registry_cycle None = Some [["a:y"]].
Proof. vm_compute. reflexivity. Qed.

Lemma scenario_run_set :
  filter_jobs_by_status fnmatch_nothing re_compile_error registry_scenario
    status_scenario false None
  = Ok {[ "a:x"; "b:z" ]}.
Proof. vm_compute. reflexivity. Qed.

Lemma filter_jobs_by_status_run_set_witness :
  ∃ target_jobs : gset string,
    target_jobs = list_to_set (job_keys registry_scenario)
    ∧ (∀ j, j ∈ ({[ "a:x"; "b:z" ]} : gset string) → j ∈ target_jobs).
Proof.
  destruct (proj2 (filter_jobs_by_status_run_set fnmatch_nothing re_compile_error
                     registry_scenario status_scenario None)
              {[ "a:x"; "b:z" ]} scenario_run_set)
    as (target_jobs & Htarget & Hsub & _).
  exists target_jobs. split; [exact Htarget|exact Hsub].
Defined.

Lemma scenario_target :
  get_target_jobs fnmatch_nothing re_compile_error registry_ghost "b"
  = Ok {[ "a:x"; "b:z" ]}.
Proof. vm_compute. reflexivity. Qed.

Lemma get_target_jobs_in_registry_witness :
  ("a:x" ∈ job_keys registry_ghost
   ∧ is_Some (Py.get (job_configs registry_ghost) "a:x"))
  ∧ ("b:z" ∈ job_keys registry_ghost
     ∧ is_Some (Py.get (job_configs registry_ghost) "b:z")).
Proof.
  split.
  - apply (proj2 (get_target_jobs_in_registry fnmatch_nothing re_compile_error
                    registry_ghost "b") {[ "a:x"; "b:z" ]} scenario_target).
    set_solver.
  - apply (proj2 (get_target_jobs_in_registry fnmatch_nothing re_compile_error
                    registry_ghost "b") {[ "a:x"; "b:z" ]} scenario_target).
    set_solver.
Defined.

Lemma scenario_target_step :
  (get_target_jobs_step fnmatch_nothing re_compile_error registry_scenario "b").1
  = Ok {[ "a:x"; "b:z" ]}.
Proof. vm_compute. reflexivity. Qed.

Lemma get_target_jobs_idempotent_witness :
  deps_closed registry_scenario {[ "a:x"; "b:z" ]}
  ∧ add_all_dependencies registry_scenario (S (length (job_keys registry_scenario)))
      (elements ({[ "a:x"; "b:z" ]} : gset string))
    = Ok {[ "a:x"; "b:z" ]}.
Proof.
  destruct (get_target_jobs_idempotent fnmatch_nothing re_compile_error
              registry_scenario "b") as (_ & _ & _ & _ & Hfix).
  exact (Hfix {[ "a:x"; "b:z" ]} scenario_target_step).
Defined.

(** ** Facts about the dependency graph builder *)

Lemma add_dependency_keys deps_of dependent_job dep_job :
  (add_dependency deps_of dependent_job dep_job).*1
  = if decide (dependent_job ∈ deps_of.*1) then deps_of.*1
    else deps_of.*1 ++ [dependent_job].
Proof.
  induction deps_of as [|[k vs] d IH]; [done|]. cbn.
  destruct (decide (k = dependent_job)) as [->|Hne]; cbn.
  - rewrite decide_True by left. done.
  - rewrite IH. destruct (decide (dependent_job ∈ d.*1)) as [Hin|Hnin].
    + rewrite decide_True by (by right). done.
    + rewrite decide_False; [done|]. intros [?|?]%elem_of_cons; congruence.
Qed.

(** The builder keeps the dependency mapping a dict of duplicate-free lists. *)
Lemma add_dependency_wf deps_of dependent_job dep_job :
  wf_dependencies deps_of →
  wf_dependencies (add_dependency deps_of dependent_job dep_job).
Proof.
  intros [Hkeys Hlists]. split.
  - rewrite add_dependency_keys. destruct (decide (dependent_job ∈ deps_of.*1)); [done|].
    apply NoDup_app. split_and!; [done| |apply NoDup_singleton].
    intros x Hx ->%list_elem_of_singleton. done.
  - clear Hkeys. induction deps_of as [|[k vs] d IH]; cbn.
    + repeat constructor. by intros ?%elem_of_nil.
    + apply Forall_cons in Hlists as [Hvs Hd]. cbn in Hvs.
      destruct (decide (k = dependent_job)) as [->|Hne]; cbn.
      * constructor; [|done]. cbn. destruct (decide (dep_job ∈ vs)); [done|].
        apply NoDup_app. split_and!; [done| |apply NoDup_singleton].
        intros x Hx ->%list_elem_of_singleton. done.
      * constructor; [done|auto].
Qed.

Lemma add_edges_wf deps_of dep_jobs dependent_jobs :
  wf_dependencies deps_of →
  wf_dependencies (add_edges deps_of dep_jobs dependent_jobs).
Proof.
  unfold add_edges. revert deps_of.
  induction dep_jobs as [|dep_job dep_jobs IH]; intros deps_of Hwf; [done|].
  cbn [foldl]. apply IH. clear IH. revert deps_of Hwf.
  induction dependent_jobs as [|dependent_job dependent_jobs IH]; intros deps_of Hwf; [done|].
  cbn [foldl]. apply IH. by apply add_dependency_wf.
Qed.

Lemma parse_dot_lines_wf self lines self' :
  wf_dependencies (dependencies self) →
  parse_dot_lines self lines = Ok self' →
  wf_dependencies (dependencies self') ∧ job_configs self' = job_configs self.
Proof.
  revert self. induction lines as [|line lines IH]; intros self Hwf Hrun.
  - cbn in Hrun. by injection Hrun as <-.
  - cbn [parse_dot_lines] in Hrun. destruct (Edge.search line) as [edge|]; [|by apply IH].
    destruct (_find_matching_jobs self edge.1) as [dep_jobs| |]; cbn in Hrun; [|done..].
    destruct (_find_matching_jobs self edge.2) as [dependent_jobs| |]; cbn in Hrun; [|done..].
    apply IH in Hrun; [done|]. cbn. by apply add_edges_wf.
Qed.

(** Whatever the graph dump, the mapping that [_parse_dot_output] builds from
    the empty one is well formed. *)
Lemma _parse_dot_output_wf self dot_text self' :
  dependencies self = [] →
  _parse_dot_output self dot_text = Ok self' →
  wf_dependencies (dependencies self').
Proof.
  intros Hempty Hrun. eapply parse_dot_lines_wf; [|exact Hrun].
  rewrite Hempty. split; constructor.
Qed.

(** The scenario of the specification: the graph dump with the single edge
    from [a@x] to [b@z] gives the mapping in which [b:z] depends on [a:x]. *)
Example scenario_graph :
  _parse_dot_output (submitter_of [("a", "x"); ("a", "y"); ("b", "z")] [])
    ("strict digraph {" +:+ String "010" (quoted "a@x" +:+ " -> " +:+ quoted "b@z" +:+ ";")
     +:+ String "010" "}")
  = Ok registry_scenario.
Proof. vm_compute. reflexivity. Qed.

(** ** Shape of the schedule *)

Section ScheduleShape.
Variable deps_of : list (string * list string).
Variable all_jobs : gset string.

(** A job enters the queue only while a job of the current batch that it
    lists as a dependency is being removed. *)
Lemma on_completed_queued c st item j :
  item ∈ deps_of →
  j ∈ (on_completed all_jobs c st item).2 →
  j ∈ st.2 ∨ (j ∈ all_jobs ∧ ∃ deps, (j, deps) ∈ deps_of ∧ c ∈ deps).
Proof.
  intros Hitem. unfold on_completed.
  destruct (decide (item.1 ∈ all_jobs ∧ c ∈ item.2)) as [[Hin Hc]|]; [|by left].
  cbn zeta. destruct (decide _); cbn [snd]; [|by left].
  rewrite elem_of_app, list_elem_of_singleton. intros [?| ->]; [by left|right].
  split; [done|]. exists item.2. by destruct item.
Qed.

Lemma foldl_on_completed_queued c l st j :
  (∀ item, item ∈ l → item ∈ deps_of) →
  j ∈ (foldl (on_completed all_jobs c) st l).2 →
  j ∈ st.2 ∨ (j ∈ all_jobs ∧ ∃ deps, (j, deps) ∈ deps_of ∧ c ∈ deps).
Proof.
  revert st. induction l as [|item l IH]; intros st Hl Hj; [by left|].
  cbn [foldl] in Hj. apply IH in Hj as [Hj|Hj]; [|by right|].
  - eapply on_completed_queued; [|exact Hj]. apply Hl. left.
  - intros item' ?. apply Hl. by right.
Qed.

Lemma process_batch_queued in_degree batch j :
  j ∈ (process_batch deps_of all_jobs in_degree batch).2 →
  j ∈ all_jobs ∧ ∃ c deps, c ∈ batch ∧ (j, deps) ∈ deps_of ∧ c ∈ deps.
Proof.
  unfold process_batch.
  enough (∀ st, j ∈ (foldl (complete_job deps_of all_jobs) st batch).2 →
            j ∈ st.2 ∨ (j ∈ all_jobs ∧ ∃ c deps, c ∈ batch ∧ (j, deps) ∈ deps_of ∧ c ∈ deps))
    as Hgen.
  { intros [Hj|Hj]%Hgen; [by apply elem_of_nil in Hj|done]. }
  induction batch as [|c batch IH]; intros st Hj; [by left|].
  cbn [foldl] in Hj. apply IH in Hj as [Hj|(? & c' & deps & ? & ? & ?)].
  - apply foldl_on_completed_queued in Hj as [?|(? & deps & ? & ?)]; [by left| |done].
    right. split; [done|]. exists c, deps. split_and!; [left|done..].
  - right. split; [done|]. exists c', deps. split_and!; [by right|done..].
Qed.

Lemma schedule_loop_shape fuel in_degree queue order order' :
  schedule_loop deps_of all_jobs fuel in_degree queue order = Some order' →
  Forall (λ b, b ≠ []) order →
  levelled_from deps_of order →
  (order ≠ [] → ∀ j, j ∈ queue →
     ∃ b' c deps, last order = Some b' ∧ c ∈ b' ∧ (j, deps) ∈ deps_of ∧ c ∈ deps) →
  Forall (λ b, b ≠ []) order'
  ∧ levelled_from deps_of order'
  ∧ order `prefix_of` order'
  ∧ (queue ≠ [] → order' !! length order = Some queue).
Proof.
  revert in_degree queue order.
  induction fuel as [|fuel IH]; intros in_degree queue order Hrun Hne Hlev Hq.
  - destruct queue; [|done]. cbn in Hrun. by simplify_eq.
  - destruct queue as [|q queue]; [cbn in Hrun; by simplify_eq|].
    cbn [schedule_loop] in Hrun. apply IH in Hrun as (Hne' & Hlev' & Hpre & _).
    + split_and!; [done..| |].
      * etrans; [|exact Hpre]. by apply prefix_app_r.
      * intros _. destruct Hpre as [k ->]. rewrite <- app_assoc.
        rewrite lookup_app_r by done. by rewrite Nat.sub_diag.
    + apply Forall_app. split; [done|]. by repeat constructor.
    + intros i b j Hi Hj. apply lookup_app_Some in Hi as [Hi|[Hlen Hi]].
      * destruct (Hlev i b j Hi Hj) as (b' & c & deps & Hi' & ?).
        exists b', c, deps. split; [|done]. by apply lookup_app_l_Some.
      * apply list_lookup_singleton_Some in Hi as [Hi <-].
        destruct order as [|b0 order _] using rev_ind; [cbn in Hi; lia|].
        destruct (Hq ltac:(by destruct order) j Hj) as (b' & c & deps & Hlast & ?).
        rewrite last_snoc in Hlast. injection Hlast as <-.
        exists b0, c, deps. split; [|done].
        rewrite length_app in Hi, Hlen. cbn [length] in Hi, Hlen.
        replace i with (length order) by lia.
        rewrite <- app_assoc. cbn [app]. by apply list_lookup_middle.
    + intros _ j Hj. apply process_batch_queued in Hj as (_ & c & deps & ? & ? & ?).
      exists (q :: queue), c, deps. rewrite last_snoc. done.
Qed.

Lemma execution_order_shape fuel order :
  execution_order_fuel deps_of all_jobs fuel = Some order →
  Forall (λ b, b ≠ []) order
  ∧ levelled_from deps_of order
  ∧ ∀ b, order !! 0 = Some b →
      b = initial_queue all_jobs (initial_in_degree deps_of all_jobs).
Proof.
  intros Hrun. unfold execution_order_fuel in Hrun.
  pose proof Hrun as Hrun'.
  apply schedule_loop_shape in Hrun as (Hne & Hlev & _ & Hfirst).
  - split_and!; [done..|]. intros b Hb.
    destruct (initial_queue all_jobs (initial_in_degree deps_of all_jobs)) as [|q queue] eqn:Hq.
    + destruct fuel; cbn in Hrun'; by simplify_eq.
    + cbn in Hfirst. rewrite Hfirst in Hb by done. by simplify_eq.
  - constructor.
  - by intros i b j ?.
  - done.
Qed.

End ScheduleShape.

(** X1. For every run set and every dependency mapping, no batch of the
    schedule is empty, so the schedule has at most as many batches as the
    run set has jobs. *)
Theorem get_execution_order_batches_nonempty (self : Submitter)
    (jobs_to_include : option (gset string)) :
  ∃ order,
    get_execution_order self jobs_to_include = Some order
    ∧ Forall (λ batch, batch ≠ []) order
    ∧ length order ≤ size (run_set_of self jobs_to_include).
Proof.
  destruct (execution_order_total (dependencies self) (run_set_of self jobs_to_include))
    as (order & Hrun & _ & Hnd & Hin).
  destruct (execution_order_shape _ _ _ _ Hrun) as (Hne & _).
  exists order. split_and!; [done..|].
  trans (length (concat order)).
  - clear Hrun Hnd Hin. induction Hne as [|b order Hb _ IH]; [done|].
    cbn. rewrite length_app. destruct b; [done|]. cbn. lia.
  - rewrite <- (size_list_to_set (C := gset string)) by done.
    apply subseteq_size. intros j Hj%elem_of_list_to_set. by apply Hin.
Qed.

(** X2. The schedule puts every job as early as its dependencies allow:
    a job of any batch after the first lists, in the dependency mapping, a
    job of the batch just before; and (the mapping being a dict) the first
    batch holds exactly the jobs of the run set that have no dependency in
    the run set. *)
Theorem get_execution_order_levels (self : Submitter)
    (jobs_to_include : option (gset string)) :
  ∃ order,
    get_execution_order self jobs_to_include = Some order
    ∧ (∀ i batch job, order !! S i = Some batch → job ∈ batch →
         ∃ previous dep, order !! i = Some previous ∧ dep ∈ previous
                         ∧ depends_on self job dep)
    ∧ (NoDup (dependencies self).*1 →
       ∀ batch job, order !! 0 = Some batch →
         job ∈ batch ↔
           job ∈ run_set_of self jobs_to_include
           ∧ valid_deps (dependencies self) (run_set_of self jobs_to_include) job = []).
Proof.
  destruct (execution_order_total (dependencies self) (run_set_of self jobs_to_include))
    as (order & Hrun & _).
  destruct (execution_order_shape _ _ _ _ Hrun) as (_ & Hlev & Hfirst).
  exists order. split_and!; [done| |].
  - intros i batch job Hi Hj. destruct (Hlev i batch job Hi Hj) as (b' & c & deps & ? & ? & ? & ?).
    exists b', c. split_and!; [done..|]. by exists deps.
  - intros Hkeys batch job ->%Hfirst. unfold initial_queue.
    rewrite list_elem_of_filter, elem_of_elements. split.
    + intros [Hz Hj]. split; [done|]. rewrite initial_in_degree_spec in Hz by done.
      by destruct (valid_deps _ _ job).
    + intros [Hj Hnil]. split; [|done]. rewrite initial_in_degree_spec by done.
      by rewrite Hnil.
Qed.
(** ** Facts about name resolution for the graph builder *)

Lemma unique_matches_spec seen matches :
  NoDup (unique_matches seen matches)
  ∧ ∀ m, m ∈ unique_matches seen matches ↔ m ∈ matches ∧ m ∉ seen.
Proof.
  revert seen. induction matches as [|x ms IH]; intros seen; cbn [unique_matches].
  - split; [constructor|]. intros m. split; [by intros ?%elem_of_nil|].
    by intros [?%elem_of_nil _].
  - destruct (decide (x ∈ seen)) as [Hx|Hx].
    + destruct (IH seen) as [Hnd Hiff]. split; [done|].
      intros m. rewrite Hiff, elem_of_cons. split; [intros [? ?]; auto|].
      intros [[->|?] ?]; done.
    + destruct (IH ({[x]} ∪ seen)) as [Hnd Hiff]. split.
      * constructor; [|done]. rewrite Hiff. intros [_ Hn]. apply Hn.
        apply elem_of_union. left. by apply elem_of_singleton.
      * intros m. rewrite !elem_of_cons, Hiff, not_elem_of_union, not_elem_of_singleton.
        split.
        -- intros [->|(? & ? & ?)]; auto.
        -- intros [[->|?] ?]; [by left|]. destruct (decide (m = x)); [by left|by right].
Qed.

Lemma keys_where_sublist test keys l :
  keys_where test keys = Ok l → l `sublist_of` keys.
Proof.
  revert l. induction keys as [|k keys IH]; intros l; cbn [keys_where].
  - by intros [= <-].
  - destruct (split_job_key k) as [parts| |]; cbn [mbind result_bind]; [|done..].
    destruct (keys_where test keys) as [rest| |]; cbn [mbind result_bind]; [|done..].
    intros [= <-]. destruct (test _ _); [apply sublist_skip|apply sublist_cons]; auto.
Qed.

(** The resolver of the graph builder returns registered jobs only, each
    once. *)
Lemma find_matching_jobs_registered self dvc_node l :
  _find_matching_jobs self dvc_node = Ok l →
  (∀ job_key, job_key ∈ l → job_key ∈ job_keys self)
  ∧ (NoDup (job_keys self) → NoDup l).
Proof.
  unfold _find_matching_jobs.
  generalize (Py.strip is_quote (Py.strip Py.is_space dvc_node)). intros cleaned. cbv zeta.
  destruct (decide (cleaned ∈ job_keys self)) as [Hin|_].
  { intros [= <-]. split; [by intros k ->%list_elem_of_singleton|].
    intros _. apply NoDup_singleton. }
  destruct (Py.has_char "@" cleaned
            && bool_decide (Py.replace "@" ":" cleaned ∈ job_keys self)) eqn:Hat.
  { intros [= <-]. apply andb_true_iff in Hat as [_ Hin%bool_decide_eq_true_1].
    split; [by intros k ->%list_elem_of_singleton|]. intros _. apply NoDup_singleton. }
  match goal with |- context [unique_matches ∅ (?m ++ _)] => set (matches := m) end.
  assert (∀ k, k ∈ matches → k ∈ job_keys self) as Hmatches.
  { subst matches.
    destruct (Py.has_char "_" cleaned && negb (Py.has_char ":" cleaned));
      [|by intros k ?%elem_of_nil].
    by intros k [_ ?]%list_elem_of_filter. }
  clearbody matches.
  match goal with |- context [mbind _ ?m] => destruct m as [stage_matches| |] eqn:Hstage end;
    cbn [mbind result_bind]; [|done..].
  assert (stage_matches `sublist_of` job_keys self) as Hsub.
  { destruct (negb (Py.has_char "@" cleaned) && negb (Py.has_char ":" cleaned)) in Hstage.
    - by eapply keys_where_sublist.
    - injection Hstage as <-. apply sublist_nil_l. }
  destruct stage_matches as [|m ms].
  - match goal with |- context [mbind _ ?m] => destruct m as [partial| |] eqn:Hpartial end;
      cbn [mbind result_bind]; [|done..].
    intros [= <-]. destruct (unique_matches_spec ∅ (matches ++ partial)) as [Hnd Hiff].
    split; [|done]. intros k [Hk _]%Hiff. apply elem_of_app in Hk as [Hk|Hk]; [auto|].
    by eapply keys_where_elem_of.
  - intros [= <-]. split.
    + intros k Hk. by eapply elem_of_sublist.
    + intros Hnd. by eapply sublist_NoDup.
Qed.

(** ** Further facts about the dependency graph builder *)

(** The builder reads the registry only. *)
Lemma find_matching_jobs_with_dependencies self deps_of dvc_node :
  _find_matching_jobs (with_dependencies self deps_of) dvc_node
  = _find_matching_jobs self dvc_node.
Proof. reflexivity. Qed.

Lemma with_dependencies_id self : with_dependencies self (dependencies self) = self.
Proof. by destruct self. Qed.

Lemma add_dependency_within jobs deps_of dependent_job dep_job :
  edges_within jobs deps_of → dependent_job ∈ jobs → dep_job ∈ jobs →
  edges_within jobs (add_dependency deps_of dependent_job dep_job).
Proof.
  intros Hin Hk Hv. induction deps_of as [|[k vs] d IH]; cbn [add_dependency fst snd].
  - intros item ->%list_elem_of_singleton. split; [done|].
    by intros dep ->%list_elem_of_singleton.
  - assert (edges_within jobs d) as Hd by (intros item ?; apply Hin; by right).
    destruct (Hin (k, vs)) as [Hk' Hvs]; [left|]. cbn [fst snd] in *.
    destruct (decide (k = dependent_job)) as [->|Hne].
    + intros item [->|Hitem]%elem_of_cons; [|apply Hin; by right].
      split; [done|]. cbn [snd]. destruct (decide (dep_job ∈ vs)); [done|].
      intros dep [?| ->%list_elem_of_singleton]%elem_of_app; auto.
    + intros item [->|Hitem]%elem_of_cons; [by split|]. by apply IH.
Qed.

Lemma add_edges_within jobs deps_of dep_jobs dependent_jobs :
  edges_within jobs deps_of →
  (∀ j, j ∈ dep_jobs → j ∈ jobs) → (∀ j, j ∈ dependent_jobs → j ∈ jobs) →
  edges_within jobs (add_edges deps_of dep_jobs dependent_jobs).
Proof.
  unfold add_edges. revert deps_of.
  induction dep_jobs as [|dep_job dep_jobs IH]; intros deps_of Hin Hdeps Hdependents; [done|].
  cbn [foldl]. apply IH; [|intros j ?; apply Hdeps; by right|done].
  assert (dep_job ∈ jobs) as Hdep by (apply Hdeps; left).
  clear IH Hdeps. revert deps_of Hin.
  induction dependent_jobs as [|dependent_job dependent_jobs IH]; intros deps_of Hin; [done|].
  cbn [foldl]. apply IH; [intros j ?; apply Hdependents; by right|].
  apply add_dependency_within; [done| |done]. apply Hdependents. left.
Qed.

Lemma parse_dot_lines_within self lines self' :
  edges_within (job_keys self) (dependencies self) →
  parse_dot_lines self lines = Ok self' →
  edges_within (job_keys self) (dependencies self').
Proof.
  revert self. induction lines as [|line lines IH]; intros self Hin Hrun.
  - cbn in Hrun. by injection Hrun as <-.
  - cbn [parse_dot_lines] in Hrun. destruct (Edge.search line) as [edge|]; [|by apply IH].
    destruct (_find_matching_jobs self edge.1) as [dep_jobs| |] eqn:Hdep;
      cbn [mbind result_bind] in Hrun; [|done..].
    destruct (_find_matching_jobs self edge.2) as [dependent_jobs| |] eqn:Hdependent;
      cbn [mbind result_bind] in Hrun; [|done..].
    apply IH in Hrun; [done|]. cbn [dependencies with_dependencies].
    apply add_edges_within; [done| |].
    + by apply (find_matching_jobs_registered self edge.1).
    + by apply (find_matching_jobs_registered self edge.2).
Qed.

(** *** Parsing the same graph dump again *)

Lemma add_dependency_has_edge deps_of dependent_job dep_job :
  has_edge (add_dependency deps_of dependent_job dep_job) dependent_job dep_job.
Proof.
  unfold has_edge.
  induction deps_of as [|[k vs] d IH]; cbn [add_dependency fst snd Py.get].
  - rewrite decide_True by done. eexists; split; [done|left].
  - destruct (decide (k = dependent_job)) as [->|Hne]; cbn [Py.get].
    + rewrite decide_True by done. eexists; split; [done|].
      destruct (decide (dep_job ∈ vs)); [done|]. apply elem_of_app. right. left.
    + by rewrite decide_False.
Qed.

Lemma add_dependency_mono deps_of dependent_job dep_job k v :
  has_edge deps_of k v → has_edge (add_dependency deps_of dependent_job dep_job) k v.
Proof.
  unfold has_edge.
  induction deps_of as [|[k' vs] d IH]; cbn [add_dependency fst snd Py.get].
  - by intros (? & ? & _).
  - destruct (decide (k' = dependent_job)) as [->|Hne]; cbn [Py.get].
    + destruct (decide (dependent_job = k)) as [->|Hne']; [|done].
      intros (deps & [= <-] & Hv). eexists; split; [done|].
      destruct (decide (dep_job ∈ vs)); [done|]. apply elem_of_app. by left.
    + destruct (decide (k' = k)); [done|]. apply IH.
Qed.

Lemma add_dependency_present deps_of dependent_job dep_job :
  has_edge deps_of dependent_job dep_job →
  add_dependency deps_of dependent_job dep_job = deps_of.
Proof.
  unfold has_edge.
  induction deps_of as [|[k vs] d IH]; cbn [add_dependency fst snd Py.get].
  - by intros (? & ? & _).
  - destruct (decide (k = dependent_job)) as [->|Hne].
    + intros (deps & [= <-] & Hv). by rewrite decide_True.
    + intros H. by rewrite IH.
Qed.

Lemma add_edges_mono deps_of dep_jobs dependent_jobs k v :
  has_edge deps_of k v → has_edge (add_edges deps_of dep_jobs dependent_jobs) k v.
Proof.
  unfold add_edges. revert deps_of.
  induction dep_jobs as [|dep_job dep_jobs IH]; intros deps_of Hkv; [done|].
  cbn [foldl]. apply IH. clear IH. revert deps_of Hkv.
  induction dependent_jobs as [|dependent_job dependent_jobs IH]; intros deps_of Hkv; [done|].
  cbn [foldl]. apply IH. by apply add_dependency_mono.
Qed.

Lemma add_edges_covers deps_of dep_jobs dependent_jobs :
  covers (add_edges deps_of dep_jobs dependent_jobs) dep_jobs dependent_jobs.
Proof.
  unfold add_edges. revert deps_of.
  induction dep_jobs as [|dep_job dep_jobs IH]; intros deps_of; [by intros ? ? ?%elem_of_nil|].
  cbn [foldl]. intros d k [->|Hd]%elem_of_cons Hk; [|by apply IH].
  apply (add_edges_mono _ dep_jobs dependent_jobs). clear IH. revert deps_of.
  induction dependent_jobs as [|dependent_job dependent_jobs IH]; intros deps_of;
    [by apply elem_of_nil in Hk|].
  cbn [foldl]. apply elem_of_cons in Hk as [->|Hk]; [|by apply IH].
  clear IH. generalize (add_dependency_has_edge deps_of dependent_job dep_job).
  generalize (add_dependency deps_of dependent_job dep_job). clear deps_of.
  induction dependent_jobs as [|j dependent_jobs IH]; intros deps_of Hkv; [done|].
  cbn [foldl]. apply IH. by apply add_dependency_mono.
Qed.

Lemma add_edges_present deps_of dep_jobs dependent_jobs :
  covers deps_of dep_jobs dependent_jobs →
  add_edges deps_of dep_jobs dependent_jobs = deps_of.
Proof.
  unfold add_edges. induction dep_jobs as [|dep_job dep_jobs IH]; intros Hc; [done|].
  cbn [foldl].
  assert (foldl (λ acc' dependent_job, add_dependency acc' dependent_job dep_job)
            deps_of dependent_jobs = deps_of) as ->.
  { assert (∀ j, j ∈ dependent_jobs → has_edge deps_of j dep_job) as Hall.
    { intros j Hj. apply Hc; [left|done]. }
    clear Hc IH. induction dependent_jobs as [|j dependent_jobs IH]; [done|].
    cbn [foldl]. rewrite add_dependency_present by (apply Hall; left).
    apply IH. intros j' ?. apply Hall. by right. }
  apply IH. intros d k ? ?. apply Hc; [by right|done].
Qed.

(** What the loop over the lines leaves: the registry as it was, the edges
    that were there, and every edge that a line gives; on a mapping that
    has the edges of all the lines already, the loop changes nothing. *)
Lemma parse_dot_lines_again self lines self' :
  parse_dot_lines self lines = Ok self' →
  job_configs self' = job_configs self
  ∧ (∀ k v, has_edge (dependencies self) k v → has_edge (dependencies self') k v)
  ∧ ∀ other,
      job_configs other = job_configs self →
      (∀ k v, has_edge (dependencies self') k v → has_edge (dependencies other) k v) →
      parse_dot_lines other lines = Ok other.
Proof.
  revert self. induction lines as [|line lines IH]; intros self Hrun.
  - cbn in Hrun. injection Hrun as <-. done.
  - cbn [parse_dot_lines] in Hrun |- *. destruct (Edge.search line) as [edge|] eqn:Hedge.
    2:{ destruct (IH self Hrun) as (Hcfg & Hmono & Hagain). split_and!; [done..|].
        intros other Ho Hother. by apply Hagain. }
    destruct (_find_matching_jobs self edge.1) as [dep_jobs| |] eqn:Hdep;
      cbn [mbind result_bind] in Hrun; [|done..].
    destruct (_find_matching_jobs self edge.2) as [dependent_jobs| |] eqn:Hdependent;
      cbn [mbind result_bind] in Hrun; [|done..].
    destruct (IH _ Hrun) as (Hcfg & Hmono & Hagain). cbn [job_configs dependencies with_dependencies] in *.
    split_and!; [done| |].
    + intros k v Hkv. by apply Hmono, add_edges_mono.
    + intros other Ho Hother.
      assert (∀ n, _find_matching_jobs other n = _find_matching_jobs self n) as Hsame.
      { intros n. unfold _find_matching_jobs, job_keys. by rewrite Ho. }
      rewrite !Hsame, Hdep, Hdependent. cbn [mbind result_bind].
      rewrite add_edges_present.
      * rewrite with_dependencies_id. by apply Hagain.
      * intros d k Hd Hk. apply Hother, Hmono. by apply add_edges_covers.
Qed.

(** *** The edge pattern *)

Lemma append_assoc_String (a : string) c b : (a +:+ String c EmptyString) +:+ b = a +:+ String c b.
Proof. induction a as [|x a IH]; [done|]. rewrite !append_String. by rewrite IH. Qed.

Lemma span_body_quote a rest :
  no_quote a →
  Fallback.span_body (a +:+ String "034" rest) = (a, String "034" rest).
Proof.
  unfold no_quote. induction a as [|c a IH]; intros Ha.
  - done.
  - cbn [Py.has_char] in Ha. destruct (decide (c = "034"%char)) as [|Hne]; [done|].
    rewrite append_String. cbn [Fallback.span_body]. rewrite decide_False by done.
    by rewrite IH.
Qed.

Lemma lstrip_all_space gap s :
  all_space gap → Py.lstrip Py.is_space (gap +:+ s) = Py.lstrip Py.is_space s.
Proof.
  unfold all_space. induction gap as [|c gap IH]; intros Hgap; [done|].
  rewrite append_String. cbn [Py.lstrip] in *. destruct (Py.is_space c); [auto|done].
Qed.

Lemma non_empty_true s : s ≠ EmptyString → Fallback.non_empty s = true.
Proof. by destruct s. Qed.

Lemma edge_here_quoted dependency gap1 gap2 dependent rest :
  no_quote dependency → dependency ≠ EmptyString →
  no_quote dependent → dependent ≠ EmptyString →
  all_space gap1 → all_space gap2 →
  Edge.edge_here (quoted dependency +:+ gap1 +:+ "->" +:+ gap2 +:+ quoted dependent +:+ rest)
  = Some (dependency, dependent).
Proof.
  intros Hq1 Hne1 Hq2 Hne2 Hg1 Hg2. unfold quoted.
  rewrite !append_String, !append_assoc_String. unfold Edge.edge_here.
  rewrite decide_True by done. rewrite span_body_quote by done. cbn [fst snd].
  rewrite (lstrip_all_space gap1) by done.
  cbn [Py.lstrip Py.is_space strip_prefix]. rewrite !decide_True by done.
  change (EmptyString +:+ ?s) with s.
  rewrite (lstrip_all_space gap2) by done.
  cbn [Py.lstrip Py.is_space].
  rewrite span_body_quote by done. cbn [fst snd].
  rewrite bool_decide_eq_true_2 by done. by rewrite !non_empty_true.
Qed.

Lemma search_skip before line :
  no_quote before →
  Edge.search (before +:+ line) = Edge.search line.
Proof.
  unfold no_quote. induction before as [|c before IH]; intros Hb; [done|].
  cbn [Py.has_char] in Hb. destruct (decide (c = "034"%char)) as [|Hne]; [done|].
  rewrite append_String. cbn [Edge.search]. unfold Edge.edge_here at 1.
  rewrite decide_False by done. auto.
Qed.

Lemma search_here line edge : Edge.edge_here line = Some edge → Edge.search line = Some edge.
Proof. intros H. destruct line; cbn [Edge.search]; by rewrite H. Qed.

Lemma add_dependency_nonempty deps_of dependent_job dep_job :
  Forall (λ item, item.2 ≠ []) deps_of →
  Forall (λ item, item.2 ≠ []) (add_dependency deps_of dependent_job dep_job).
Proof.
  induction deps_of as [|[k vs] d IH]; cbn [add_dependency fst snd]; intros Hall.
  - by repeat constructor.
  - apply Forall_cons in Hall as [Hvs Hd]. cbn [snd] in Hvs.
    destruct (decide (k = dependent_job)).
    + constructor; [|done]. cbn [snd]. destruct (decide (dep_job ∈ vs)); [done|].
      by destruct vs.
    + constructor; [done|auto].
Qed.

Lemma add_edges_nonempty deps_of dep_jobs dependent_jobs :
  Forall (λ item, item.2 ≠ []) deps_of →
  Forall (λ item, item.2 ≠ []) (add_edges deps_of dep_jobs dependent_jobs).
Proof.
  unfold add_edges. revert deps_of.
  induction dep_jobs as [|dep_job dep_jobs IH]; intros deps_of Hall; [done|].
  cbn [foldl]. apply IH. clear IH. revert deps_of Hall.
  induction dependent_jobs as [|dependent_job dependent_jobs IH]; intros deps_of Hall; [done|].
  cbn [foldl]. apply IH. by apply add_dependency_nonempty.
Qed.

Lemma parse_dot_lines_nonempty self lines self' :
  Forall (λ item, item.2 ≠ []) (dependencies self) →
  parse_dot_lines self lines = Ok self' →
  Forall (λ item, item.2 ≠ []) (dependencies self').
Proof.
  revert self. induction lines as [|line lines IH]; intros self Hall Hrun.
  - cbn in Hrun. by injection Hrun as <-.
  - cbn [parse_dot_lines] in Hrun.
    destruct (Edge.search line) as [edge|]; [|by apply (IH self)].
    destruct (_find_matching_jobs self edge.1) as [dep_jobs| |];
      cbn [mbind result_bind] in Hrun; [|done..].
    destruct (_find_matching_jobs self edge.2) as [dependent_jobs| |];
      cbn [mbind result_bind] in Hrun; [|done..].
    apply IH in Hrun; [done|]. by apply add_edges_nonempty.
Qed.

Lemma load_dependencies_parse self run self' :
  load_dependencies_from_dvc self run = Ok self' →
  ∃ stdout, run = DagExited 0 stdout ∧ stdout ≠ EmptyString
            ∧ _parse_dot_output self stdout = Ok self'.
Proof.
  destruct run as [|returncode stdout]; [done|]. cbn [load_dependencies_from_dvc].
  destruct (bool_decide (returncode = 0%Z)) eqn:Hrc; [|done].
  apply bool_decide_eq_true_1 in Hrc as ->.
  destruct stdout; [done|]. cbn [andb Fallback.non_empty]. intros Hrun.
  eexists. split_and!; [done..].
Qed.

(** X3. Whatever name the graph builder's resolver is given, every job it
    returns is a key of the registry, and (the registry being a dict) no job
    is returned twice. *)
Theorem find_matching_jobs_in_registry (self : Submitter) (dvc_node : string)
    (matches : list string) :
  _find_matching_jobs self dvc_node = Ok matches →
  (∀ job_key, job_key ∈ matches → job_key ∈ job_keys self)
  ∧ (NoDup (job_keys self) → NoDup matches).
Proof. apply find_matching_jobs_registered. Qed.

Lemma find_matching_jobs_in_registry_witness :
  (∀ job_key, job_key ∈ ["a:x"; "a:y"] → job_key ∈ job_keys registry_fresh)
  ∧ (NoDup (job_keys registry_fresh) → NoDup ["a:x"; "a:y"]).
Proof.
  apply (find_matching_jobs_in_registry registry_fresh "a" ["a:x"; "a:y"]).
  vm_compute. reflexivity.
Defined.

(** X4. Loading the graph into a submitter that has no dependencies yet
    succeeds only for a query that exited with status 0 and a non-empty
    output.  It leaves the registry as it was and builds a mapping that is a
    dict of duplicate-free lists in which every key and every listed
    dependency is a registered job and no key has an empty list. *)
Theorem load_dependencies_registered (self : Submitter) (run : dag_run)
    (loaded : Submitter) :
  dependencies self = [] →
  load_dependencies_from_dvc self run = Ok loaded →
  (∃ stdout, run = DagExited 0 stdout ∧ stdout ≠ EmptyString)
  ∧ job_configs loaded = job_configs self
  ∧ wf_dependencies (dependencies loaded)
  ∧ ∀ job deps, (job, deps) ∈ dependencies loaded →
      job ∈ job_keys self ∧ deps ≠ [] ∧ ∀ dep, dep ∈ deps → dep ∈ job_keys self.
Proof.
  intros Hempty (stdout & -> & Hout & Hrun)%load_dependencies_parse.
  unfold _parse_dot_output in Hrun.
  destruct (parse_dot_lines_wf self _ _ ltac:(rewrite Hempty; split; constructor) Hrun)
    as [Hwf Hcfg].
  split_and!; [by exists stdout|done..|].
  intros job deps Hin.
  pose proof (parse_dot_lines_within self _ _
                ltac:(rewrite Hempty; by intros ? ?%elem_of_nil) Hrun (job, deps) Hin)
    as [Hjob Hdeps].
  pose proof (parse_dot_lines_nonempty self _ _ ltac:(rewrite Hempty; constructor) Hrun)
    as Hne.
  rewrite Forall_forall in Hne. split_and!; [done|by apply (Hne (job, deps))|done].
Qed.

Lemma load_dependencies_registered_witness :
  (∃ stdout, dag_scenario = DagExited 0 stdout ∧ stdout ≠ EmptyString)
  ∧ job_configs registry_scenario = job_configs registry_fresh
  ∧ wf_dependencies (dependencies registry_scenario)
  ∧ ∀ job deps, (job, deps) ∈ dependencies registry_scenario →
      job ∈ job_keys registry_fresh ∧ deps ≠ []
      ∧ ∀ dep, dep ∈ deps → dep ∈ job_keys registry_fresh.
Proof.
  apply (load_dependencies_registered registry_fresh dag_scenario registry_scenario).
  - reflexivity.
  - vm_compute. reflexivity.
Defined.

(** X5. Loading the same graph a second time, into the submitter that the
    first load left, changes nothing: every edge of the dump is already
    there, so no key and no dependency is added twice. *)
Theorem load_dependencies_twice (self : Submitter) (run : dag_run) (loaded : Submitter) :
  load_dependencies_from_dvc self run = Ok loaded →
  load_dependencies_from_dvc loaded run = Ok loaded.
Proof.
  intros (stdout & -> & Hout & Hrun)%load_dependencies_parse.
  cbn [load_dependencies_from_dvc]. rewrite bool_decide_eq_true_2 by done.
  rewrite non_empty_true by done. cbn [andb].
  unfold _parse_dot_output in *.
  destruct (parse_dot_lines_again self _ _ Hrun) as (Hcfg & _ & Hagain).
  by apply Hagain.
Qed.

Lemma load_dependencies_twice_witness :
  load_dependencies_from_dvc registry_scenario dag_scenario = Ok registry_scenario.
Proof.
  apply (load_dependencies_twice registry_fresh dag_scenario registry_scenario).
  vm_compute. reflexivity.
Defined.

(** X6. The edge pattern of the graph builder finds, in a line that has no
    quote before the edge, the two names of the edge as written: a quoted
    non-empty name, an arrow with any white space around it, and a second
    quoted non-empty name, whatever follows. *)
Theorem edge_search_round_trip (before dependency gap1 gap2 dependent rest : string) :
  no_quote before →
  no_quote dependency → dependency ≠ EmptyString →
  no_quote dependent → dependent ≠ EmptyString →
  all_space gap1 → all_space gap2 →
  Edge.search (before +:+ quoted dependency +:+ gap1 +:+ "->" +:+ gap2
               +:+ quoted dependent +:+ rest)
  = Some (dependency, dependent).
Proof.
  intros Hb Hq1 Hne1 Hq2 Hne2 Hg1 Hg2. rewrite search_skip by done.
  by apply search_here, edge_here_quoted.
Qed.

Lemma edge_search_round_trip_witness :
  Edge.search ("  " +:+ quoted "prep@a" +:+ " " +:+ "->" +:+ "  "
               +:+ quoted "train@b" +:+ ";")
  = Some ("prep@a", "train@b").
Proof.
  apply (edge_search_round_trip "  " "prep@a" " " "  " "train@b" ";");
    reflexivity || discriminate.
Defined.

(** ** Further facts about the staleness resolver *)

Lemma dvc_stage_to_job_keys_cases self dvc_stage :
  (∃ l, _dvc_stage_to_job_keys self dvc_stage = Ok l)
  ∨ _dvc_stage_to_job_keys self dvc_stage = Raise ValueError.
Proof.
  unfold _dvc_stage_to_job_keys. destruct (Py.has_char "@" dvc_stage).
  - left. by eexists.
  - apply keys_where_cases.
Qed.

Lemma changed_job_keys_cases self changed_stages :
  (∃ s, changed_job_keys self changed_stages = Ok s)
  ∨ changed_job_keys self changed_stages = Raise ValueError.
Proof.
  induction changed_stages as [|name names IH]; [left; by eexists|].
  cbn [changed_job_keys].
  destruct (dvc_stage_to_job_keys_cases self name) as [[l ->]| ->];
    cbn [mbind result_bind]; [|by right].
  destruct IH as [[s ->]| ->]; cbn [mbind result_bind]; [left; by eexists|by right].
Qed.

Lemma mark_all_jobs_keys self changed : (mark_all_jobs self changed).*1 = job_keys self.
Proof.
  unfold mark_all_jobs. rewrite <- list_fmap_compose. apply list_fmap_id.
Qed.

Lemma fmap_const_keys {A} (keys : list string) (v : A) :
  ((λ job_key, (job_key, v)) <$> keys).*1 = keys.
Proof. rewrite <- list_fmap_compose. apply list_fmap_id. Qed.

Lemma parse_dvc_status_json_cases json_loads self status_output :
  (∃ job_status, _parse_dvc_status_json json_loads self status_output = Ok job_status
                 ∧ job_status.*1 = job_keys self)
  ∨ (∃ e, _parse_dvc_status_json json_loads self status_output = Raise e
          ∧ is_Exception e = true).
Proof.
  unfold _parse_dvc_status_json, _fallback_parse_dvc_output.
  destruct (json_loads _) as [|keys|].
  - destruct (changed_job_keys_cases self (Fallback.changed_stages status_output))
      as [[s ->]| ->]; cbn [mbind result_bind].
    + left. eexists. split; [done|]. apply mark_all_jobs_keys.
    + right. by eexists.
  - destruct (changed_job_keys_cases self keys) as [[s ->]| ->]; cbn [mbind result_bind].
    + left. eexists. split; [done|]. apply mark_all_jobs_keys.
    + right. by eexists.
  - right. by eexists.
Qed.

(** X7. [check_job_status] always answers.  It raises only when the oracle
    is missing ([RuntimeError]) or the query was interrupted
    ([KeyboardInterrupt]); every other failure, of the query or of the
    parsing, ends in a status.  A returned status gives one verdict to each
    registered job, in the order of the registry. *)
Theorem check_job_status_total json_loads (self : Submitter) (run : status_run) :
  match check_job_status json_loads self run with
  | Ok job_status =>
      job_status.*1 = job_keys self
      ∧ ∃ returncode json_content, run = DvcExited returncode json_content
  | Raise e =>
      (run = DvcNotFound ∧ e = RuntimeError)
      ∨ (run = DvcInterrupted ∧ e = KeyboardInterrupt)
  | OutOfFuel => False
  end.
Proof.
  destruct run as [| |returncode json_content]; cbn [check_job_status]; [by left|by right|].
  destruct (decide (returncode ≠ 0%Z)).
  { split; [apply fmap_const_keys|by eexists _, _]. }
  destruct (decide (Py.strip Py.is_space json_content = EmptyString)).
  { split; [apply fmap_const_keys|by eexists _, _]. }
  destruct (parse_dvc_status_json_cases json_loads self json_content)
    as [(job_status & -> & Hkeys)|(e & -> & ->)].
  - split; [done|by eexists _, _].
  - split; [apply fmap_const_keys|by eexists _, _].
Qed.

(** *** Finding the JSON text *)

Lemma split_join_lines sep lines :
  lines ≠ [] → Forall (λ l, Py.has_char sep l = false) lines →
  Py.split sep (Py.join (String sep EmptyString) lines) = lines.
Proof.
  induction lines as [|l lines IH]; [done|]. intros _ Hall.
  apply Forall_cons in Hall as [Hl Hall]. destruct lines as [|l' lines].
  - cbn [Py.join]. by apply split_no_sep.
  - cbn [Py.join]. change (String sep EmptyString +:+ ?s) with (String sep s).
    rewrite split_append_sep by done. f_equal. by apply IH.
Qed.

Lemma from_json_start_skip noise lines :
  Forall (λ l, opens_json l = false) noise →
  from_json_start (noise ++ lines) = from_json_start lines.
Proof.
  induction noise as [|l noise IH]; [done|]. intros [Hl Hall]%Forall_cons.
  cbn [app from_json_start]. unfold opens_json in Hl. rewrite Hl. auto.
Qed.

Lemma from_json_start_none lines :
  Forall (λ l, opens_json l = false) lines → from_json_start lines = None.
Proof.
  intros Hall. rewrite <- (app_nil_r lines). by rewrite from_json_start_skip.
Qed.

(** X8. The status parser skips what comes before the JSON text: when the
    output consists of lines of which none opens an object, followed by
    lines of which the first does, the text handed to [json.loads] is
    exactly the second part; and an output without a line that opens an
    object is handed over whole. *)
Theorem json_text_of_skips_noise :
  (∀ (noise : list string) (first : string) (rest : list string),
     Forall one_line noise → Forall one_line (first :: rest) →
     Forall (λ line, opens_json line = false) noise →
     opens_json first = true →
     json_text_of (Py.join (String "010" EmptyString) (noise ++ first :: rest))
     = Py.join (String "010" EmptyString) (first :: rest))
  ∧ (∀ status_output,
       Forall (λ line, opens_json line = false) (Py.split "010" status_output) →
       json_text_of status_output = status_output).
Proof.
  split.
  - intros noise first rest Hnoise Hjson Hskip Hopen.
    unfold json_text_of. rewrite split_join_lines.
    + rewrite from_json_start_skip by done. cbn [from_json_start].
      unfold opens_json in Hopen. by rewrite Hopen.
    + by destruct noise.
    + apply Forall_app. split; [exact Hnoise|exact Hjson].
  - intros status_output Hnone. unfold json_text_of.
    by rewrite from_json_start_none.
Qed.

Lemma json_text_of_skips_noise_witness :
  json_text_of (Py.join (String "010" EmptyString)
                  (["Collecting"; "  done"] ++ ["  {"; "}"]))
  = Py.join (String "010" EmptyString) ["  {"; "}"]
  ∧ json_text_of "no json here" = "no json here".
Proof.
  split.
  - apply (proj1 json_text_of_skips_noise ["Collecting"; "  done"] "  {" ["}"]).
    + repeat constructor.
    + repeat constructor.
    + repeat constructor.
    + reflexivity.
  - apply (proj2 json_text_of_skips_noise "no json here"). repeat constructor.
Defined.

(** *** The verdicts from a JSON object *)

Lemma dvc_stage_to_job_keys_spec self name :
  wf_registry self →
  ∃ l, _dvc_stage_to_job_keys self name = Ok l
    ∧ ∀ job_key, job_key ∈ l ↔ job_key ∈ job_keys self ∧ names_job name job_key.
Proof.
  intros Hwf. unfold _dvc_stage_to_job_keys, names_job.
  destruct (Py.has_char "@" name).
  - eexists. split; [done|]. intros job_key.
    destruct (decide (Py.replace "@" ":" name ∈ job_keys self)) as [Hin|Hnin].
    + rewrite list_elem_of_singleton. split; [by intros ->|by intros [_ <-]].
    + split; [by intros ?%elem_of_nil|]. intros [Hin <-]. done.
  - destruct (keys_where_spec
      (λ stage step, bool_decide (name = stage) || bool_decide (name = step))
      (job_keys self) Hwf) as (l & -> & Hiff).
    exists l. split; [done|]. intros job_key. rewrite Hiff. split.
    + intros [? (stage & step & Hk & Ht)]. split; [done|]. exists stage, step.
      split; [done|].
      apply orb_true_iff in Ht as [?%bool_decide_eq_true_1|?%bool_decide_eq_true_1]; auto.
    + intros [? (stage & step & Hk & Ht)]. split; [done|]. exists stage, step.
      split; [done|]. apply orb_true_iff.
      destruct Ht as [->| ->]; [left|right]; by apply bool_decide_eq_true_2.
Qed.

Lemma changed_job_keys_spec self names :
  wf_registry self →
  ∃ changed, changed_job_keys self names = Ok changed
    ∧ ∀ job_key, job_key ∈ changed ↔
        job_key ∈ job_keys self ∧ ∃ name, name ∈ names ∧ names_job name job_key.
Proof.
  intros Hwf. induction names as [|name names (changed & IH & Hiff)].
  - exists ∅. split; [done|]. intros job_key. split; [by intros ?%elem_of_empty|].
    by intros [_ (? & ?%elem_of_nil & _)].
  - destruct (dvc_stage_to_job_keys_spec self name Hwf) as (l & Hl & Hliff).
    cbn [changed_job_keys]. rewrite Hl, IH. cbn [mbind result_bind].
    eexists. split; [done|]. intros job_key.
    rewrite elem_of_union, elem_of_list_to_set, Hliff, Hiff. split.
    + intros [[? ?]|[? (name' & ? & ?)]].
      * split; [done|]. exists name. split; [left|done].
      * split; [done|]. exists name'. split; [by right|done].
    + intros [? (name' & [->|?]%elem_of_cons & ?)]; [by left|right].
      split; [done|]. by exists name'.
Qed.

Lemma mark_all_jobs_needs_run self changed job_key :
  (job_key, NeedsRun) ∈ mark_all_jobs self changed
  ↔ job_key ∈ job_keys self ∧ job_key ∈ changed.
Proof.
  unfold mark_all_jobs. rewrite list_elem_of_fmap. split.
  - intros (k & Heq & Hk). destruct (decide (k ∈ changed)); by simplify_eq.
  - intros [Hk Hc]. exists job_key. by rewrite decide_True.
Qed.

(** X9. When the status query succeeds and its output decodes to a JSON
    object, in a registry of well-formed identities a job is marked as
    needing to run exactly when a key of the object names it: a key with an
    at-sign names the job whose identity it is with the colon for the
    at-sign, a bare key names every job of which it is the stage or the
    step.  Every other registered job is marked as cached. *)
Theorem json_status_verdicts json_loads (self : Submitter) (status_output : string)
    (keys : list string) :
  wf_registry self →
  Py.strip Py.is_space status_output ≠ EmptyString →
  json_loads (json_text_of status_output) = JSONObject keys →
  ∃ job_status,
    check_job_status json_loads self (DvcExited 0 status_output) = Ok job_status
    ∧ job_status.*1 = job_keys self
    ∧ ∀ job_key,
        (job_key, NeedsRun) ∈ job_status
        ↔ job_key ∈ job_keys self ∧ ∃ name, name ∈ keys ∧ names_job name job_key.
Proof.
  intros Hwf Hne Hjson. cbn [check_job_status].
  rewrite decide_False by (intros ?; done). rewrite decide_False by done.
  unfold _parse_dvc_status_json. rewrite Hjson.
  destruct (changed_job_keys_spec self keys Hwf) as (changed & -> & Hiff).
  cbn [mbind result_bind]. eexists. split_and!; [done|apply mark_all_jobs_keys|].
  intros job_key. rewrite mark_all_jobs_needs_run, Hiff. naive_solver.
Qed.

Lemma registry_scenario_wf : wf_registry registry_scenario.
Proof.
  intros k Hk. vm_compute in Hk.
  repeat (apply elem_of_cons in Hk as [->|Hk]; [by eexists _, _|]).
  by apply elem_of_nil in Hk.
Qed.

Lemma json_status_verdicts_witness :
  ∃ job_status,
    check_job_status json_a_x registry_scenario (DvcExited 0 "{}") = Ok job_status
    ∧ job_status.*1 = job_keys registry_scenario
    ∧ ∀ job_key,
        (job_key, NeedsRun) ∈ job_status
        ↔ job_key ∈ job_keys registry_scenario
          ∧ ∃ name, name ∈ ["a@x"] ∧ names_job name job_key.
Proof.
  apply (json_status_verdicts json_a_x registry_scenario "{}" ["a@x"]).
  - exact registry_scenario_wf.
  - vm_compute. discriminate.
  - reflexivity.
Defined.
(** ** Further facts about the run-set derivation *)

Section RunSetLeast.
Variable self : Submitter.
Variable target_jobs : gset string.
Variable P : string → Prop.
Hypothesis P_closed :
  ∀ job dep, P dep → depends_on self job dep → job ∈ target_jobs → P job.

Lemma add_dependents_least fuel c (s s' : gset string) :
  (∀ j, j ∈ s → P j) → P c →
  add_dependents self target_jobs fuel c s = Ok s' →
  ∀ j, j ∈ s' → P j.
Proof.
  revert c s s'. induction fuel as [|fuel IHf]; intros c s s' Hs Hc; [done|].
  cbn [add_dependents].
  enough (∀ l (a r : gset string),
    (∀ item, item ∈ l → item ∈ dependencies self) → (∀ j, j ∈ a → P j) →
    foldl (λ acc (item : string * list string),
             jobs_with_deps ← acc;
             if decide (c ∈ item.2 ∧ (item.1 ∉ jobs_with_deps) ∧ item.1 ∈ target_jobs)
             then add_dependents self target_jobs fuel item.1 ({[item.1]} ∪ jobs_with_deps)
             else Ok jobs_with_deps) (Ok a) l = Ok r →
    ∀ j, j ∈ r → P j) as Hgen.
  { intros Hrun. by eapply (Hgen (dependencies self) s s'). }
  induction l as [|[k deps] l IH]; intros a r Hl Ha Hrun.
  - cbn in Hrun. by injection Hrun as <-.
  - cbn [foldl] in Hrun. cbn [mbind result_bind fst snd] in Hrun.
    assert (∀ item, item ∈ l → item ∈ dependencies self) as Hl'
      by (intros item ?; apply Hl; by right).
    destruct (decide (c ∈ deps ∧ (k ∉ a) ∧ k ∈ target_jobs)) as [(Hcd & _ & Hkt)|_];
      [|by eapply IH].
    assert (P k) as Hk.
    { apply (P_closed k c); [done| |done]. exists deps. split; [|done]. apply Hl. left. }
    destruct (add_dependents self target_jobs fuel k ({[k]} ∪ a)) as [a'| |] eqn:Hk'.
    + eapply (IH a'); [done| |done].
      eapply (IHf k ({[k]} ∪ a)); [|done|done].
      intros j [->%elem_of_singleton|?]%elem_of_union; auto.
    + by rewrite foldl_result_raise in Hrun.
    + by rewrite foldl_result_out_of_fuel in Hrun.
Qed.

Lemma cascade_all_least fuel (s0 r : gset string) :
  (∀ j, j ∈ s0 → P j) →
  foldl (λ acc job, jobs_with_deps ← acc;
           add_dependents self target_jobs fuel job jobs_with_deps)
    (Ok s0) (elements s0) = Ok r →
  ∀ j, j ∈ r → P j.
Proof.
  intros Hs0.
  enough (∀ l (a : gset string), (∀ j, j ∈ l → P j) → (∀ j, j ∈ a → P j) →
    foldl (λ acc job, jobs_with_deps ← acc;
             add_dependents self target_jobs fuel job jobs_with_deps) (Ok a) l = Ok r →
    ∀ j, j ∈ r → P j) as Hgen.
  { apply Hgen; [|done]. intros j Hj%elem_of_elements. auto. }
  induction l as [|c l IH]; intros a Hl Ha Hrun.
  - cbn in Hrun. by injection Hrun as <-.
  - cbn [foldl] in Hrun. cbn [mbind result_bind] in Hrun.
    destruct (add_dependents self target_jobs fuel c a) as [a'| |] eqn:Hc.
    + eapply (IH a'); [intros j ?; apply Hl; by right| |done].
      eapply add_dependents_least; [done| |done]. apply Hl. left.
    + by rewrite foldl_result_raise in Hrun.
    + by rewrite foldl_result_out_of_fuel in Hrun.
Qed.
End RunSetLeast.

Lemma elem_of_needs_run_in job_status (t : gset string) j :
  j ∈ needs_run_in job_status t ↔ (j, NeedsRun) ∈ job_status ∧ j ∈ t.
Proof.
  unfold needs_run_in. rewrite elem_of_list_to_set, list_elem_of_filter, list_elem_of_fmap.
  split.
  - intros [Ht ([k v] & -> & [Hv ?]%list_elem_of_filter)]. cbn in *. by subst.
  - intros [Hin Ht]. split; [done|]. exists (j, NeedsRun). split; [done|].
    by apply list_elem_of_filter.
Qed.

(** What [filter_jobs_by_status] computes, in one statement. *)
Lemma filter_jobs_by_status_cases fnmatch re_compile self job_status target_pattern :
  (filter_jobs_by_status fnmatch re_compile self job_status false target_pattern
     = Raise ValueError
   ∧ filter_jobs_by_status fnmatch re_compile self job_status true target_pattern
     = Raise ValueError)
  ∨ ∃ t r,
      match pattern_given target_pattern with
      | Some pattern => get_target_jobs fnmatch re_compile self pattern = Ok t
      | None => t = list_to_set (job_keys self)
      end
      ∧ filter_jobs_by_status fnmatch re_compile self job_status true target_pattern = Ok t
      ∧ filter_jobs_by_status fnmatch re_compile self job_status false target_pattern = Ok r
      ∧ t ⊆ registry self ∧ needs_run_in job_status t ⊆ r ∧ r ⊆ t
      ∧ dependents_closed self t r
      ∧ ∀ P : string → Prop,
          (∀ job dep, P dep → depends_on self job dep → job ∈ t → P job) →
          (∀ j, (j, NeedsRun) ∈ job_status → j ∈ t → P j) →
          ∀ j, j ∈ r → P j.
Proof.
  destruct (target_set_spec fnmatch re_compile self target_pattern) as [Hraise|(t & Ht & Hreg)].
  { left. unfold filter_jobs_by_status, filter_jobs_by_status_fuel. by rewrite Hraise. }
  right.
  destruct (cascade_all_spec self t (S (length (job_keys self))) (needs_run_in job_status t))
    as (r & Hr & Hbase & Hsub & Hclosed).
  { eapply Nat.le_lt_trans; [apply subseteq_size, Hreg|apply registry_size_lt]. }
  { apply needs_run_in_subseteq. }
  exists t, r. split_and!; try done.
  - unfold target_set_fuel in Ht. destruct (pattern_given target_pattern); [done|].
    by injection Ht as <-.
  - unfold filter_jobs_by_status, filter_jobs_by_status_fuel. by rewrite Ht.
  - unfold filter_jobs_by_status, filter_jobs_by_status_fuel. by rewrite Ht.
  - intros P Hclosed' Hstale. eapply cascade_all_least; [exact Hclosed'| |exact Hr].
    intros j [? ?]%elem_of_needs_run_in. auto.
Qed.

(** X10. The run set holds no job without a reason: whatever property holds
    for the target jobs that need to run, and passes from a job to the
    target jobs that list it as a dependency, holds for every job of the run
    set.  So each job of the run set needs to run itself or depends,
    directly or through other jobs, on one that does. *)
Theorem filter_jobs_by_status_least fnmatch re_compile (self : Submitter)
    (job_status : list (string * Verdict)) (target_pattern : option string)
    (run_set : gset string) :
  filter_jobs_by_status fnmatch re_compile self job_status false target_pattern
    = Ok run_set →
  ∃ target_jobs,
    match pattern_given target_pattern with
    | Some pattern => get_target_jobs fnmatch re_compile self pattern = Ok target_jobs
    | None => target_jobs = list_to_set (job_keys self)
    end
    ∧ (∀ P : string → Prop,
         (∀ j, (j, NeedsRun) ∈ job_status → j ∈ target_jobs → P j) →
         (∀ job dep, P dep → depends_on self job dep → job ∈ target_jobs → P job) →
         ∀ j, j ∈ run_set → P j)
    ∧ ∀ j, j ∈ run_set →
        ∃ stale, (stale, NeedsRun) ∈ job_status ∧ stale ∈ target_jobs
                 ∧ rtc (λ job dep, depends_on self job dep) j stale.
Proof.
  intros Hrun.
  destruct (filter_jobs_by_status_cases fnmatch re_compile self job_status target_pattern)
    as [[Hr _]|(t & r & Ht & _ & Hr & _ & _ & _ & _ & Hleast)]; [congruence|].
  rewrite Hr in Hrun. injection Hrun as <-. exists t. split_and!; [done| |].
  - intros P Hstale Hclosed. by apply Hleast.
  - apply Hleast.
    + intros job dep (stale & ? & ? & Hreach) Hdep Hjob. exists stale.
      split_and!; [done..|]. by eapply rtc_l.
    + intros j ? ?. by exists j.
Qed.

Lemma filter_jobs_by_status_least_witness :
  ∃ target_jobs : gset string,
    target_jobs = list_to_set (job_keys registry_scenario)
    ∧ ∀ j, j ∈ ({[ "a:x"; "b:z" ]} : gset string) →
        ∃ stale, (stale, NeedsRun) ∈ status_scenario ∧ stale ∈ target_jobs
                 ∧ rtc (λ job dep, depends_on registry_scenario job dep) j stale.
Proof.
  destruct (filter_jobs_by_status_least fnmatch_nothing re_compile_error registry_scenario
              status_scenario None {[ "a:x"; "b:z" ]} scenario_run_set)
    as (target_jobs & Htarget & _ & Hreach).
  exists target_jobs. split; [exact Htarget|exact Hreach].
Defined.

(** X11. When the status query fails (a non-zero exit status), every job is
    taken to need a run, and the run set derived from this status is the
    whole target set: the same as with [include_cached]. *)
Theorem failed_query_runs_whole_target json_loads fnmatch re_compile (self : Submitter)
    (returncode : Z) (json_content : string) :
  returncode ≠ 0%Z →
  ∃ job_status,
    check_job_status json_loads self (DvcExited returncode json_content) = Ok job_status
    ∧ ∀ target_pattern,
        filter_jobs_by_status fnmatch re_compile self job_status false target_pattern
        = filter_jobs_by_status fnmatch re_compile self job_status true target_pattern.
Proof.
  intros Hrc. rewrite check_job_status_failed_query by done.
  eexists. split; [done|]. intros target_pattern.
  destruct (filter_jobs_by_status_cases fnmatch re_compile self
              ((λ job_key, (job_key, NeedsRun)) <$> job_keys self) target_pattern)
    as [[-> ->]|(t & r & _ & -> & -> & Hreg & Hbase & Hsub & _)]; [done|].
  f_equal. apply set_eq. intros j. split; [apply Hsub|].
  intros Hj. apply Hbase, elem_of_needs_run_in. split; [|done].
  apply list_elem_of_fmap. exists j. split; [done|].
  by apply Hreg, elem_of_list_to_set in Hj.
Qed.

Lemma failed_query_runs_whole_target_witness :
  ∃ job_status,
    check_job_status json_reject registry_scenario (DvcExited 1 "") = Ok job_status
    ∧ ∀ target_pattern,
        filter_jobs_by_status fnmatch_nothing re_compile_error registry_scenario
          job_status false target_pattern
        = filter_jobs_by_status fnmatch_nothing re_compile_error registry_scenario
            job_status true target_pattern.
Proof.
  apply (failed_query_runs_whole_target json_reject fnmatch_nothing re_compile_error
           registry_scenario 1 "").
  discriminate.
Defined.

(** X13. A target set returned by [get_target_jobs] is the least set that
    holds the jobs matching the pattern, of which there is at least one, and
    is closed under registered dependencies. *)
Theorem get_target_jobs_least_closure fnmatch re_compile (self : Submitter)
    (pattern : string) (target_jobs : gset string) :
  get_target_jobs fnmatch re_compile self pattern = Ok target_jobs →
  ∃ matching,
    _find_target_jobs_by_pattern fnmatch re_compile self pattern = Ok matching
    ∧ matching ≠ []
    ∧ (∀ m, m ∈ matching → m ∈ target_jobs)
    ∧ deps_closed self target_jobs
    ∧ ∀ C : gset string,
        deps_closed self C → (∀ m, m ∈ matching → m ∈ C) → target_jobs ⊆ C.
Proof.
  intros Hrun.
  destruct (get_target_jobs_spec fnmatch re_compile self pattern)
    as [Hr|(matching & t & Hfind & Hr & _ & Hin & Hclosed & Hleast)]; [congruence|].
  rewrite Hr in Hrun. injection Hrun as <-. exists matching. split_and!; [done| |done..].
  intros ->. unfold get_target_jobs, get_target_jobs_fuel in Hr. by rewrite Hfind in Hr.
Qed.

Lemma get_target_jobs_least_closure_witness :
  ∃ matching,
    _find_target_jobs_by_pattern fnmatch_nothing re_compile_error registry_ghost "b"
      = Ok matching
    ∧ matching ≠ []
    ∧ (∀ m, m ∈ matching → m ∈ ({[ "a:x"; "b:z" ]} : gset string))
    ∧ deps_closed registry_ghost {[ "a:x"; "b:z" ]}
    ∧ ∀ C : gset string,
        deps_closed registry_ghost C → (∀ m, m ∈ matching → m ∈ C) →
        ({[ "a:x"; "b:z" ]} : gset string) ⊆ C.
Proof.
  exact (get_target_jobs_least_closure fnmatch_nothing re_compile_error registry_ghost
           "b" {[ "a:x"; "b:z" ]} scenario_target).
Defined.
(** ** Further facts about pattern matching *)

Lemma sort_keys_sorted keys : StronglySorted String.le (sort_keys keys).
Proof. apply StronglySorted_merge_sort; apply _. Qed.

Lemma sort_keys_elem_of keys k : k ∈ sort_keys keys ↔ k ∈ keys.
Proof. unfold sort_keys. by rewrite merge_sort_Permutation. Qed.

Lemma sort_keys_nodup keys : NoDup keys → NoDup (sort_keys keys).
Proof. unfold sort_keys. by rewrite merge_sort_Permutation. Qed.

Lemma find_target_sorted fnmatch re_compile self pattern matching :
  _find_target_jobs_by_pattern fnmatch re_compile self pattern = Ok matching →
  StronglySorted String.le matching ∧ (NoDup (job_keys self) → NoDup matching).
Proof.
  unfold _find_target_jobs_by_pattern.
  destruct (decide (pattern ∈ job_keys self)) as [Hp|_].
  { intros [= <-]. split; [by repeat constructor|]. intros _. apply NoDup_singleton. }
  destruct (any_char_in _ pattern).
  { intros [= <-]. split; [apply sort_keys_sorted|].
    intros Hnd. by apply sort_keys_nodup, NoDup_filter. }
  destruct (any_char_in _ pattern).
  { destruct (re_compile pattern); [|done]. intros [= <-].
    split; [apply sort_keys_sorted|]. intros Hnd. by apply sort_keys_nodup, NoDup_filter. }
  destruct (keys_where _ (job_keys self)) as [stage_matches| |] eqn:Hkw;
    cbn [mbind result_bind]; [|done..].
  destruct stage_matches as [|m ms].
  - intros [= <-]. split; [apply sort_keys_sorted|].
    intros Hnd. by apply sort_keys_nodup, NoDup_filter.
  - intros [= <-]. split; [apply sort_keys_sorted|].
    intros Hnd. apply sort_keys_nodup. eapply sublist_NoDup; [exact Hnd|].
    by eapply keys_where_sublist.
Qed.

(** X14. The jobs that [_find_target_jobs_by_pattern] returns are
    registered jobs, in ascending order of their keys, and (the registry
    being a dict) without repetition. *)
Theorem find_target_jobs_sorted fnmatch re_compile (self : Submitter) (pattern : string)
    (matching : list string) :
  _find_target_jobs_by_pattern fnmatch re_compile self pattern = Ok matching →
  (∀ job_key, job_key ∈ matching → job_key ∈ job_keys self)
  ∧ StronglySorted String.le matching
  ∧ (NoDup (job_keys self) → NoDup matching).
Proof.
  intros Hfind. split.
  - intros job_key. by eapply find_target_elem_of.
  - by eapply find_target_sorted.
Qed.

Lemma find_target_jobs_sorted_witness :
  (∀ job_key, job_key ∈ ["a:x"; "a:y"] → job_key ∈ job_keys registry_scenario)
  ∧ StronglySorted String.le ["a:x"; "a:y"]
  ∧ (NoDup (job_keys registry_scenario) → NoDup ["a:x"; "a:y"]).
Proof.
  apply (find_target_jobs_sorted fnmatch_nothing re_compile_error registry_scenario "a").
  vm_compute. reflexivity.
Defined.

(** X15. A pattern without wildcard or regex characters that is not itself
    a job key selects, in a registry of well-formed identities, the jobs of
    the stage of that name when there is such a stage, and only then falls
    back to the jobs whose key contains the pattern: a stage name never
    selects a job of another stage. *)
Theorem plain_pattern_selects_stage fnmatch re_compile (self : Submitter)
    (pattern : string) :
  wf_registry self →
  pattern ∉ job_keys self →
  any_char_in ["*"; "?"; "["; "]"]%char pattern = false →
  any_char_in ["^"; "$"; "("; ")"; "|"; "+"; "{"; "}"]%char pattern = false →
  ∃ matching,
    _find_target_jobs_by_pattern fnmatch re_compile self pattern = Ok matching
    ∧ (is_stage self pattern →
       ∀ job_key, job_key ∈ matching ↔
         job_key ∈ job_keys self ∧ ∃ step, split_job_key job_key = Ok (pattern, step))
    ∧ (¬ is_stage self pattern →
       ∀ job_key, job_key ∈ matching ↔
         job_key ∈ job_keys self ∧ Py.contains pattern job_key = true).
Proof.
  intros Hwf Hkey Hwild Hregex. unfold _find_target_jobs_by_pattern.
  rewrite decide_False by done. rewrite Hwild, Hregex.
  destruct (keys_where_spec (λ stage _, bool_decide (stage = pattern)) (job_keys self) Hwf)
    as (l & -> & Hiff). cbn [mbind result_bind].
  assert (∀ k, k ∈ l ↔ k ∈ job_keys self ∧ ∃ step, split_job_key k = Ok (pattern, step))
    as Hstage.
  { intros k. rewrite Hiff. split.
    - intros [? (stage & step & Hk & ->%bool_decide_eq_true_1)]. eauto.
    - intros [? (step & Hk)]. split; [done|]. exists pattern, step.
      by rewrite bool_decide_eq_true_2. }
  destruct l as [|m l].
  - eexists. split; [done|]. split.
    + intros (k & step & Hk & Hsplit). exfalso. eapply elem_of_nil, Hstage. eauto.
    + intros _ job_key. rewrite sort_keys_elem_of, list_elem_of_filter.
      split; intros [? ?]; split; try done; by apply Is_true_true.
  - eexists. split; [done|]. split.
    + intros _ job_key. by rewrite sort_keys_elem_of.
    + intros Hno. destruct Hno. destruct (proj1 (Hstage m)) as [? [step ?]]; [left|].
      by exists m, step.
Qed.

Lemma plain_pattern_selects_stage_witness :
  ∃ matching,
    _find_target_jobs_by_pattern fnmatch_nothing re_compile_error registry_scenario "a"
      = Ok matching
    ∧ (is_stage registry_scenario "a" →
       ∀ job_key, job_key ∈ matching ↔
         job_key ∈ job_keys registry_scenario
         ∧ ∃ step, split_job_key job_key = Ok ("a", step))
    ∧ (¬ is_stage registry_scenario "a" →
       ∀ job_key, job_key ∈ matching ↔
         job_key ∈ job_keys registry_scenario ∧ Py.contains "a" job_key = true).
Proof.
  apply (plain_pattern_selects_stage fnmatch_nothing re_compile_error registry_scenario "a").
  - exact registry_scenario_wf.
  - vm_compute. intros H. repeat (apply elem_of_cons in H as [H|H]; [discriminate|]).
    by apply elem_of_nil in H.
  - reflexivity.
  - reflexivity.
Defined.
(** ** Further facts about name resolution *)

Lemma split_length_cons sep c s :
  c ≠ sep → length (Py.split sep (String c s)) = length (Py.split sep s).
Proof.
  intros Hne. cbn [Py.split]. rewrite decide_False by done.
  pose proof (split_cons_nonempty sep s). by destruct (Py.split sep s).
Qed.

Lemma split_length_app sep a b :
  length (Py.split sep (a +:+ String sep b))
  = length (Py.split sep a) + length (Py.split sep b).
Proof.
  induction a as [|c a IH].
  - change (EmptyString +:+ String sep b) with (String sep b). cbn [Py.split].
    by rewrite decide_True.
  - rewrite append_String. destruct (decide (c = sep)) as [->|Hne].
    + cbn [Py.split]. rewrite !decide_True by done. cbn [length]. by rewrite IH.
    + by rewrite !split_length_cons, IH.
Qed.

Lemma split_length_one sep s :
  length (Py.split sep s) = 1 → Py.has_char sep s = false.
Proof.
  induction s as [|c s IH]; [done|]. cbn [Py.has_char].
  destruct (decide (c = sep)) as [->|Hne].
  - cbn [Py.split]. rewrite decide_True by done. cbn [length].
    pose proof (split_cons_nonempty sep s). destruct (Py.split sep s); [done|]. cbn. lia.
  - rewrite split_length_cons by done. auto.
Qed.

Lemma has_char_app c a b : Py.has_char c (a +:+ b) = Py.has_char c a || Py.has_char c b.
Proof.
  induction a as [|x a IH]; [done|]. rewrite append_String. cbn [Py.has_char].
  by destruct (decide (x = c)).
Qed.

Lemma replace_app x y a b : Py.replace x y (a +:+ b) = Py.replace x y a +:+ Py.replace x y b.
Proof.
  induction a as [|c a IH]; [done|]. rewrite append_String. cbn [Py.replace].
  by rewrite IH.
Qed.

Lemma replace_absent x y s : Py.has_char x s = false → Py.replace x y s = s.
Proof.
  induction s as [|c s IH]; [done|]. cbn [Py.has_char Py.replace].
  destruct (decide (c = x)); [done|]. intros. by rewrite IH.
Qed.

(** The stage and the step of a well-formed key have no colon. *)
Lemma wf_key_parts self stage_name step_name :
  wf_registry self → stage_name +:+ ":" +:+ step_name ∈ job_keys self →
  Py.has_char ":" stage_name = false ∧ Py.has_char ":" step_name = false.
Proof.
  intros Hwf Hin. destruct (Hwf _ Hin) as (s1 & s2 & Hsplit).
  unfold split_job_key in Hsplit.
  assert (length (Py.split ":" (stage_name +:+ ":" +:+ step_name)) = 2) as Hlen.
  { destruct (Py.split ":" (stage_name +:+ ":" +:+ step_name)) as [|? [|? [|? ?]]]; done. }
  change (":" +:+ step_name) with (String ":" step_name) in Hlen.
  rewrite split_length_app in Hlen.
  pose proof (split_cons_nonempty ":" stage_name).
  pose proof (split_cons_nonempty ":" step_name).
  split; apply split_length_one.
  - destruct (Py.split ":" stage_name), (Py.split ":" step_name); cbn in *; try done; lia.
  - destruct (Py.split ":" stage_name), (Py.split ":" step_name); cbn in *; try done; lia.
Qed.

(** X16. In a registry of well-formed identities, the oracle's name
    [stage@step] of a registered job [stage:step] resolves to exactly that
    job, in the resolver of the graph builder (also when the name comes
    with white space or quotes around it) and in the resolver of the
    status parser. *)
Theorem at_name_resolves (self : Submitter) (stage_name step_name dvc_node : string) :
  wf_registry self →
  stage_name +:+ ":" +:+ step_name ∈ job_keys self →
  Py.has_char "@" stage_name = false → Py.has_char "@" step_name = false →
  Py.strip is_quote (Py.strip Py.is_space dvc_node) = stage_name +:+ "@" +:+ step_name →
  _find_matching_jobs self dvc_node = Ok [stage_name +:+ ":" +:+ step_name]
  ∧ _dvc_stage_to_job_keys self (stage_name +:+ "@" +:+ step_name)
    = Ok [stage_name +:+ ":" +:+ step_name].
Proof.
  intros Hwf Hin Hat1 Hat2 Hclean.
  destruct (wf_key_parts self stage_name step_name Hwf Hin) as [Hc1 Hc2].
  assert (Py.has_char "@" (stage_name +:+ "@" +:+ step_name) = true) as Hat.
  { change ("@" +:+ step_name) with (String "@" step_name). apply has_char_append_sep. }
  assert (Py.replace "@" ":" (stage_name +:+ "@" +:+ step_name)
          = stage_name +:+ ":" +:+ step_name) as Hrep.
  { rewrite replace_app. change ("@" +:+ step_name) with (String "@" step_name).
    cbn [Py.replace]. rewrite decide_True by done.
    by rewrite !replace_absent. }
  split.
  - unfold _find_matching_jobs. rewrite Hclean. cbv zeta.
    rewrite decide_False.
    + rewrite Hat, Hrep. by rewrite bool_decide_eq_true_2.
    + apply wf_registry_not_key; [done|]. unfold split_job_key.
      rewrite split_no_sep; [done|].
      change ("@" +:+ step_name) with (String "@" step_name).
      rewrite has_char_app. cbn [Py.has_char]. rewrite Hc1, Hc2.
      by rewrite decide_False.
  - unfold _dvc_stage_to_job_keys. rewrite Hat, Hrep. by rewrite decide_True.
Qed.

Lemma at_name_resolves_witness :
  _find_matching_jobs registry_scenario (" " +:+ quoted "b@z") = Ok ["b:z"]
  ∧ _dvc_stage_to_job_keys registry_scenario "b@z" = Ok ["b:z"].
Proof.
  apply (at_name_resolves registry_scenario "b" "z" (" " +:+ quoted "b@z")).
  - exact registry_scenario_wf.
  - vm_compute. right. right. left.
  - reflexivity.
  - reflexivity.
  - reflexivity.
Defined.

(** ** Facts about the identifier in the script's output *)

Lemma take_digits_all_digits s : all_digits (take_digits s) = true.
Proof.
  induction s as [|c s IH]; [done|]. cbn [take_digits].
  destruct (is_digit c) eqn:Hc; [|done]. cbn [all_digits]. by rewrite Hc.
Qed.

Lemma take_digits_app digits rest :
  all_digits digits = true → starts_with_digit rest = false →
  take_digits (digits +:+ rest) = digits.
Proof.
  induction digits as [|c digits IH]; intros Hd Hr.
  - change (EmptyString +:+ rest) with rest. by destruct rest as [|c rest]; [|cbn in *; rewrite Hr].
  - rewrite append_String. cbn [all_digits take_digits] in *.
    apply andb_true_iff in Hd as [-> Hd]. by rewrite IH.
Qed.

Lemma find_job_id_unfold c stdout :
  find_job_id (String c stdout)
  = match strip_prefix "Submitted batch job " (String c stdout) with
    | Some rest =>
        match take_digits rest with
        | EmptyString => find_job_id stdout
        | digits => Some digits
        end
    | None => find_job_id stdout
    end.
Proof.
  cbn [find_job_id]. destruct (strip_prefix _ (String c stdout)) as [rest|]; [|done].
  by destruct (take_digits rest).
Qed.

Lemma find_job_id_digits stdout job_id :
  find_job_id stdout = Some job_id →
  job_id ≠ EmptyString ∧ all_digits job_id = true.
Proof.
  induction stdout as [|c stdout IH]; [done|]. rewrite find_job_id_unfold.
  destruct (strip_prefix _ (String c stdout)) as [rest|]; [|done].
  pose proof (take_digits_all_digits rest) as Hd.
  destruct (take_digits rest) as [|d digits]; [done|]. by intros [= <-].
Qed.

Lemma find_job_id_skip before stdout :
  Py.has_char "S" before = false →
  find_job_id (before +:+ stdout) = find_job_id stdout.
Proof.
  induction before as [|c before IH]; intros Hb; [done|].
  cbn [Py.has_char] in Hb. destruct (decide (c = "S"%char)) as [|Hne]; [done|].
  rewrite append_String, find_job_id_unfold.
  cbn [strip_prefix]. rewrite decide_False by done. auto.
Qed.

Lemma strip_prefix_app p s : strip_prefix p (p +:+ s) = Some s.
Proof.
  induction p as [|c p IH]; [by destruct s|]. rewrite append_String. cbn [strip_prefix].
  by rewrite decide_True.
Qed.

Lemma digit_not_f c s : is_digit c = true → Py.startswith "failed_" (String c s) = false.
Proof.
  intros Hc. cbn [Py.startswith]. destruct (decide ("f"%char = c)) as [<-|]; [|done].
  vm_compute in Hc. discriminate.
Qed.

(** X17. The identifier that [submit_job] reads from the output of the
    submission script: the digits that follow the first occurrence of the
    phrase [Submitted batch job] followed by a digit.  Whatever the output,
    a found identifier is a non-empty string of decimal digits; and from an
    output that has no capital S before the phrase, the digits after the
    phrase are found as written. *)
Theorem find_job_id_round_trip :
  (∀ stdout job_id, find_job_id stdout = Some job_id →
     job_id ≠ EmptyString ∧ all_digits job_id = true)
  ∧ (∀ before digits rest,
       Py.has_char "S" before = false →
       digits ≠ EmptyString → all_digits digits = true →
       starts_with_digit rest = false →
       find_job_id (before +:+ "Submitted batch job " +:+ digits +:+ rest) = Some digits).
Proof.
  split; [apply find_job_id_digits|].
  intros before digits rest Hb Hne Hd Hr. rewrite find_job_id_skip by done.
  change ("Submitted batch job " +:+ digits +:+ rest)
    with (String "S" ("ubmitted batch job " +:+ digits +:+ rest)).
  rewrite find_job_id_unfold.
  change (String "S" ("ubmitted batch job " +:+ digits +:+ rest))
    with ("Submitted batch job " +:+ digits +:+ rest).
  rewrite strip_prefix_app, take_digits_app by done. by destruct digits.
Qed.

Lemma find_job_id_round_trip_witness :
  (find_job_id "Submitted batch job 4242" = Some "4242" →
   "4242" ≠ EmptyString ∧ all_digits "4242" = true)
  ∧ find_job_id ("sbatch: ok" +:+ "Submitted batch job " +:+ "4242"
                 +:+ String "010" EmptyString)
    = Some "4242".
Proof.
  split.
  - apply (proj1 find_job_id_round_trip).
  - apply (proj2 find_job_id_round_trip "sbatch: ok" "4242" (String "010" EmptyString));
      reflexivity || discriminate.
Defined.
(** ** Further facts about the submission driver *)

Lemma get_registered {V} (d : list (string * V)) k : k ∈ d.*1 → is_Some (Py.get d k).
Proof.
  induction d as [|[k' v] d IH]; [by intros ?%elem_of_nil|]. cbn [Py.get].
  destruct (decide (k' = k)); [by eexists|].
  intros [?|?]%elem_of_cons; [by simplify_eq/=|auto].
Qed.

Lemma not_failed_fake s : Py.startswith "failed_" ("fake_" +:+ s) = false.
Proof. reflexivity. Qed.

Lemma not_failed_unknown s : Py.startswith "failed_" ("unknown_" +:+ s) = false.
Proof. reflexivity. Qed.

Lemma not_failed_found stdout job_id :
  find_job_id stdout = Some job_id → Py.startswith "failed_" job_id = false.
Proof.
  intros [Hne Hd]%find_job_id_digits. destruct job_id as [|c job_id]; [done|].
  cbn [all_digits] in Hd. apply andb_true_iff in Hd as [Hc _]. by apply digit_not_f.
Qed.

(** X18. [submit_job] returns an identifier that starts with [failed_]
    exactly when the submission script was called and failed (and the user
    chose to go on): an identifier read from the output of a completed call,
    or made up for one without identifier or for a preview, never starts
    with it.  So [run_pipeline], which tells failure by this prefix, counts a
    completed submission as submitted and records it. *)
Theorem submit_job_failed_marker run_group_id trigger input (self : Submitter)
    (tr : list event) (job_key : string) (jobs_to_run : option (gset string))
    (job_id : string) :
  (submit_job run_group_id trigger input self tr job_key jobs_to_run).1 = Ok job_id →
  Py.startswith "failed_" job_id = true
  ↔ dry_run self = false
    ∧ ∃ config,
        Py.get (job_configs self) job_key = Some config
        ∧ trigger tr (base_command run_group_id config
                      ++ dependency_args self job_key jobs_to_run) = Failed.
Proof.
  unfold submit_job. destruct (Py.get (job_configs self) job_key) as [config|]; [|done].
  destruct (dry_run self).
  { cbn [fst]. intros [= <-]. rewrite not_failed_fake. split; [done|]. by intros [? _]. }
  destruct (trigger tr _) as [stdout| |] eqn:Htrigger.
  - destruct (find_job_id stdout) as [found|] eqn:Hfound; cbn [fst]; intros [= <-].
    + rewrite (not_failed_found stdout) by done. split; [done|].
      intros [_ (config' & [= <-] & ?)]. congruence.
    + rewrite not_failed_unknown. split; [done|].
      intros [_ (config' & [= <-] & ?)]. congruence.
  - destruct (answered_yes _); cbn [fst]; [|done]. intros [= <-].
    rewrite startswith_append. split; [|done]. intros _. split; [done|]. by exists config.
  - done.
Qed.

Lemma submit_job_failed_marker_witness :
  Py.startswith "failed_" "4242" = true
  ↔ dry_run registry_scenario = false
    ∧ ∃ config,
        Py.get (job_configs registry_scenario) "a:x" = Some config
        ∧ trigger_accepts [] (base_command "grp" config
                              ++ dependency_args registry_scenario "a:x" None) = Failed.
Proof.
  apply (submit_job_failed_marker "grp" trigger_accepts confirm_then_decline
           registry_scenario [] "a:x" None "4242").
  reflexivity.
Defined.

(** *** Each job at most once *)

Section AttemptedOnce.
Variable run_group_id : string.
Variable trigger : list event → list string → trigger_result.
Variable input : list event → string → string.
Variable jobs_to_run : gset string.

Lemma submit_job_attempted (s : Submitter) tr job_key jobs :
  ∃ new, (submit_job run_group_id trigger input s tr job_key jobs).2 = tr ++ new
         ∧ omap attempted_job new `sublist_of` [job_key].
Proof.
  unfold submit_job. destruct (Py.get (job_configs s) job_key) as [config|].
  2:{ exists []. cbn. rewrite app_nil_r. split; [done|]. apply sublist_nil_l. }
  destruct (dry_run s).
  { eexists. split; [done|]. done. }
  destruct (trigger tr _) as [stdout| |].
  - destruct (find_job_id stdout); (eexists; split; [done|]); done.
  - destruct (answered_yes _); cbn [snd]; rewrite <- app_assoc;
      (eexists; split; [done|]); done.
  - eexists. split; [done|]. done.
Qed.

Lemma omap_attempted_asked l prompt reply :
  omap attempted_job (l ++ [Asked prompt reply]) = omap attempted_job l.
Proof. rewrite omap_app. cbn. by rewrite app_nil_r. Qed.

Lemma submit_batch_attempted batch (p : progress) n :
  let r := submit_batch run_group_id trigger input jobs_to_run batch p n in
  ∃ l, omap attempted_job (trace r.1) = omap attempted_job (trace p) ++ l
       ∧ l `sublist_of` batch
       ∧ submitted_count r.1 + failed_count r.1
         ≤ submitted_count p + failed_count p + length batch.
Proof.
  revert p n. induction batch as [|job_key batch IH]; intros p n.
  { exists []. cbn. rewrite app_nil_r. split_and!; [done|done|lia]. }
  cbn [submit_batch].
  destruct (submit_job_attempted (submitter p) (trace p) job_key (Some jobs_to_run))
    as (new & Hnew & Hsub).
  destruct (submit_job run_group_id trigger input (submitter p) (trace p) job_key
              (Some jobs_to_run)) as [r tr]. cbn [fst snd] in *. subst tr.
  assert (∀ l' rest, l' `sublist_of` rest →
            omap attempted_job new ++ l' `sublist_of` job_key :: rest) as Hcons.
  { intros l' rest Hl'. by apply (sublist_app _ [job_key]). }
  destruct r as [job_id|e|].
  - destruct (Py.startswith "failed_" job_id).
    + edestruct IH as (l & -> & Hl & Hcount). cbn [trace submitted_count failed_count] in *.
      exists (omap attempted_job new ++ l). rewrite omap_app, <- app_assoc.
      split_and!; [done|by apply Hcons|cbn [length]; lia].
    + edestruct IH as (l & -> & Hl & Hcount). cbn [trace submitted_count failed_count] in *.
      exists (omap attempted_job new ++ l). rewrite omap_app, <- app_assoc.
      split_and!; [done|by apply Hcons|cbn [length]; lia].
  - destruct (is_Exception e).
    + destruct (answered_yes _).
      * edestruct IH as (l & -> & Hl & Hcount). cbn [trace submitted_count failed_count] in *.
        exists (omap attempted_job new ++ l).
        rewrite omap_attempted_asked, omap_app, <- app_assoc.
        split_and!; [done|by apply Hcons|cbn [length]; lia].
      * cbn [fst trace submitted_count failed_count].
        exists (omap attempted_job new). rewrite omap_attempted_asked, omap_app.
        split_and!; [done| |cbn [length]; lia].
        rewrite <- (app_nil_r (omap attempted_job new)). apply Hcons, sublist_nil_l.
    + cbn [fst trace submitted_count failed_count].
      exists (omap attempted_job new). rewrite omap_app.
      split_and!; [done| |cbn [length]; lia].
      rewrite <- (app_nil_r (omap attempted_job new)). apply Hcons, sublist_nil_l.
  - exists []. cbn. rewrite app_nil_r. split_and!; [done|apply sublist_nil_l|lia].
Qed.

Lemma submit_batches_attempted order (p : progress) :
  let r := submit_batches run_group_id trigger input jobs_to_run order p in
  ∃ l, omap attempted_job (trace r) = omap attempted_job (trace p) ++ l
       ∧ l `sublist_of` concat order
       ∧ submitted_count r + failed_count r
         ≤ submitted_count p + failed_count p + length (concat order).
Proof.
  revert p. induction order as [|batch order IH]; intros p.
  { exists []. cbn. rewrite app_nil_r. split_and!; [done|done|lia]. }
  cbn [submit_batches concat].
  destruct (submit_batch_attempted batch p 0) as (l1 & Hl1 & Hsub1 & Hcount1).
  destruct (submit_batch run_group_id trigger input jobs_to_run batch p 0) as [p' n].
  cbn [fst snd] in *. rewrite length_app.
  destruct (decide (length batch / 2 < n)) as [Hhalf|Hhalf].
  - destruct (answered_yes _).
    + edestruct IH as (l & -> & Hl & Hcount). cbn [trace submitted_count failed_count] in *.
      exists (l1 ++ l). rewrite omap_attempted_asked, Hl1, <- app_assoc.
      split_and!; [done|by apply sublist_app|lia].
    + cbn [trace submitted_count failed_count]. exists l1.
      rewrite omap_attempted_asked. split_and!; [done| |lia].
      rewrite <- (app_nil_r l1). apply sublist_app; [done|apply sublist_nil_l].
  - edestruct IH as (l & -> & Hl & Hcount).
    exists (l1 ++ l). rewrite Hl1, <- app_assoc.
    split_and!; [done|by apply sublist_app|lia].
Qed.

End AttemptedOnce.

(** X19. In every run, whatever the submission script and the user do, no
    job is handed to the script (or announced in preview mode) twice, every
    job handed over is a job of the run set, and the two counters of the run
    together never exceed the number of jobs of the run set. *)
Theorem no_job_submitted_twice run_group_id trigger input (self : Submitter)
    (jobs_to_run : gset string) :
  ∃ outcome p,
    run_pipeline run_group_id trigger input self jobs_to_run = Some (outcome, p)
    ∧ NoDup (omap attempted_job (trace p))
    ∧ (∀ job_key, job_key ∈ omap attempted_job (trace p) → job_key ∈ jobs_to_run)
    ∧ submitted_count p + failed_count p ≤ size jobs_to_run.
Proof.
  unfold run_pipeline. destruct (decide (jobs_to_run = ∅)).
  { eexists _, _. split; [done|]. cbn. split_and!; [constructor| |lia].
    by intros ? ?%elem_of_nil. }
  destruct (negb (dry_run self) && negb (answered_yes _)).
  { eexists _, _. split; [done|]. cbn. destruct (dry_run self); cbn.
    - split_and!; [constructor|by intros ? ?%elem_of_nil|lia].
    - split_and!; [constructor|by intros ? ?%elem_of_nil|lia]. }
  destruct (execution_order_total (dependencies self) jobs_to_run)
    as (order & Hord & _ & Hnd & Hin).
  unfold get_execution_order, get_execution_order_fuel, run_set_of. rewrite Hord.
  cbn [mbind option_bind].
  match goal with |- context [submit_batches _ _ _ _ _ ?p0] => set (start := p0) end.
  destruct (submit_batches_attempted run_group_id trigger input jobs_to_run order start)
    as (l & Hl & Hsub & Hcount).
  assert (omap attempted_job (trace start) = []) as Hstart.
  { subst start. cbn. by destruct (dry_run self). }
  rewrite Hstart in Hl. cbn [app] in Hl.
  eexists _, _. split; [done|]. rewrite Hl. split_and!.
  - by eapply sublist_NoDup.
  - intros job_key Hj. apply Hin. by eapply elem_of_sublist.
  - subst start. cbn [submitted_count failed_count] in Hcount.
    rewrite <- (size_list_to_set (C := gset string) (concat order)) in Hcount by done.
    etrans; [exact Hcount|]. cbn. apply subseteq_size.
    intros j Hj%elem_of_list_to_set. by apply Hin.
Qed.

(** *** Preview mode *)

Section DryRun.
Variable run_group_id : string.
Variable trigger : list event → list string → trigger_result.
Variable input : list event → string → string.
Variable jobs_to_run : gset string.

Lemma submit_batch_dry batch (p : progress) n :
  dry_run (submitter p) = true →
  (∀ j, j ∈ batch → j ∈ job_keys (submitter p)) →
  let r := submit_batch run_group_id trigger input jobs_to_run batch p n in
  r.2 = n
  ∧ trace r.1 = trace p ++ (WouldSubmit <$> batch)
  ∧ submitted_count r.1 = submitted_count p + length batch
  ∧ failed_count r.1 = failed_count p
  ∧ dry_run (submitter r.1) = true
  ∧ job_configs (submitter r.1) = job_configs (submitter p)
  ∧ dependencies (submitter r.1) = dependencies (submitter p)
  ∧ ∀ j, (∃ k : nat, submitted_jobs (submitter p) !! j = Some ("fake_" +:+ pretty k))
         ∨ j ∈ batch →
         ∃ k : nat, submitted_jobs (submitter r.1) !! j = Some ("fake_" +:+ pretty k).
Proof.
  revert p n. induction batch as [|job_key batch IH]; intros p n Hdry Hreg.
  { cbn. rewrite app_nil_r. split_and!; [done..|lia|done|done|done|done|].
    intros j [?|?%elem_of_nil]; done. }
  cbn [submit_batch]. unfold submit_job.
  destruct (get_registered (job_configs (submitter p)) job_key) as [config ->].
  { apply Hreg. left. }
  rewrite Hdry. cbn [fst snd]. rewrite not_failed_fake.
  edestruct IH as (Hn & Htr & Hsub & Hfail & Hdry' & Hcfg & Hdeps & Hfake).
  3:{ rewrite Hn, Htr, Hsub, Hfail, Hdry', Hcfg, Hdeps.
      cbn [trace submitted_count failed_count submitter job_configs dependencies record_job].
      rewrite <- app_assoc. cbn [length]. split_and!; [done..|lia|done|done|done|done|].
      intros j Hj. apply Hfake. cbn [submitter submitted_jobs record_job].
      destruct (decide (job_key = j)) as [->|Hne].
      - left. rewrite lookup_insert_eq. by eexists.
      - destruct Hj as [Hj|[?|?]%elem_of_cons]; [|done|by right].
        left. by rewrite lookup_insert_ne. }
  - done.
  - intros j ?. apply Hreg. by right.
Qed.

Lemma submit_batches_dry order (p : progress) :
  dry_run (submitter p) = true →
  (∀ j, j ∈ concat order → j ∈ job_keys (submitter p)) →
  let r := submit_batches run_group_id trigger input jobs_to_run order p in
  trace r = trace p ++ (WouldSubmit <$> concat order)
  ∧ submitted_count r = submitted_count p + length (concat order)
  ∧ failed_count r = failed_count p
  ∧ ∀ j, j ∈ concat order →
         ∃ k : nat, submitted_jobs (submitter r) !! j = Some ("fake_" +:+ pretty k).
Proof.
  enough (dry_run (submitter p) = true →
    (∀ j, j ∈ concat order → j ∈ job_keys (submitter p)) →
    let r := submit_batches run_group_id trigger input jobs_to_run order p in
    trace r = trace p ++ (WouldSubmit <$> concat order)
    ∧ submitted_count r = submitted_count p + length (concat order)
    ∧ failed_count r = failed_count p
    ∧ ∀ j, (∃ k : nat, submitted_jobs (submitter p) !! j = Some ("fake_" +:+ pretty k))
           ∨ j ∈ concat order →
           ∃ k : nat, submitted_jobs (submitter r) !! j = Some ("fake_" +:+ pretty k)) as Hgen.
  { intros Hdry Hreg. destruct (Hgen Hdry Hreg) as (? & ? & ? & Hfake).
    split_and!; [done..|]. intros j ?. apply Hfake. by right. }
  revert p. induction order as [|batch order IH]; intros p Hdry Hreg.
  { cbn. rewrite app_nil_r. split_and!; [done|lia|done|]. intros j [?|?%elem_of_nil]; done. }
  cbn [submit_batches concat].
  destruct (submit_batch_dry batch p 0 Hdry)
    as (Hn & Htr & Hsub & Hfail & Hdry' & Hcfg & Hdeps & Hfake).
  { intros j ?. apply Hreg. cbn [concat]. apply elem_of_app. by left. }
  destruct (submit_batch run_group_id trigger input jobs_to_run batch p 0) as [p' n].
  cbn [fst snd] in *. subst n. rewrite decide_False by lia.
  destruct (IH p') as (Htr' & Hsub' & Hfail' & Hfake'); [done| |].
  { intros j ?. unfold job_keys. rewrite Hcfg. apply Hreg. cbn [concat].
    apply elem_of_app. by right. }
  rewrite Htr', Hsub', Hfail', Htr, Hsub, Hfail, fmap_app, length_app, <- app_assoc.
  split_and!; [done|lia|done|].
  intros j Hj. apply Hfake'. rewrite elem_of_app in Hj.
  destruct Hj as [?|[?|?]]; [left; apply Hfake; by left|left; apply Hfake; by right|by right].
Qed.

End DryRun.

(** *** A run in which every submission completes *)

Lemma filter_ext_elem {A} (P Q : A → Prop) `{!∀ x, Decision (P x)} `{!∀ x, Decision (Q x)}
    (l : list A) :
  (∀ x, x ∈ l → P x ↔ Q x) → filter P l = filter Q l.
Proof.
  induction l as [|x l IH]; intros Hext; [done|].
  rewrite !filter_cons. rewrite IH by (intros y ?; apply Hext; by right).
  destruct (decide (P x)) as [HP|HP], (decide (Q x)) as [HQ|HQ]; try done.
  - destruct HQ. apply Hext; [left|done].
  - destruct HP. apply Hext; [left|done].
Qed.

Lemma dep_job_ids_all (s : Submitter) active :
  (∀ dep, dep ∈ active → is_Some (submitted_jobs s !! dep)) →
  Forall2 (λ dep job_id, submitted_jobs s !! dep = Some job_id) active (dep_job_ids s active).
Proof.
  unfold dep_job_ids. induction active as [|dep active IH]; intros Hall; [constructor|].
  destruct (Hall dep) as [job_id Hid]; [left|]. cbn. rewrite Hid.
  constructor; [done|]. apply IH. intros d ?. apply Hall. by right.
Qed.

Section Completes.
Variable run_group_id : string.
Variable trigger : list event → list string → trigger_result.
Variable input : list event → string → string.
Variable self : Submitter.
Variable jobs_to_run : gset string.
Hypothesis not_preview : dry_run self = false.
Hypothesis completes : ∀ tr cmd, ∃ stdout, trigger tr cmd = Completed stdout.
Hypothesis registered : ∀ job_key, job_key ∈ jobs_to_run → job_key ∈ job_keys self.

Lemma submit_job_completes (p : progress) job_key :
  driver_inv run_group_id self jobs_to_run p →
  job_key ∈ jobs_to_run →
  ∃ config stdout job_id,
    Py.get (job_configs self) job_key = Some config
    ∧ submit_job run_group_id trigger input (submitter p) (trace p) job_key
        (Some jobs_to_run)
      = (Ok job_id,
         trace p ++ [Submitted job_key
                       (base_command run_group_id config
                        ++ dependency_args (submitter p) job_key (Some jobs_to_run))
                       (Completed stdout)])
    ∧ Py.startswith "failed_" job_id = false.
Proof.
  intros (Hdry & Hcfg & _) Hj. unfold submit_job. rewrite Hcfg, Hdry, not_preview.
  destruct (get_registered (job_configs self) job_key) as [config Hget].
  { by apply registered. }
  rewrite Hget. exists config.
  destruct (completes (trace p)
              (base_command run_group_id config
               ++ dependency_args (submitter p) job_key (Some jobs_to_run)))
    as [stdout ->].
  exists stdout. destruct (find_job_id stdout) as [found|] eqn:Hfound.
  - exists found. split_and!; [done..|]. by eapply not_failed_found.
  - eexists. split_and!; [done..|]. apply not_failed_unknown.
Qed.

Lemma submit_batch_completes (D : list string) batch (p : progress) n done :
  completes_inv run_group_id self jobs_to_run p done →
  (∀ d, d ∈ D → d ∈ done) →
  (∀ j, j ∈ batch →
     j ∈ jobs_to_run ∧ deps_done (dependencies self) jobs_to_run D j) →
  let r := submit_batch run_group_id trigger input jobs_to_run batch p n in
  r.2 = n ∧ completes_inv run_group_id self jobs_to_run r.1 (done ++ batch).
Proof.
  revert p n done. induction batch as [|job_key batch IH]; intros p n done Hinv HD Hbatch.
  { cbn. by rewrite app_nil_r. }
  destruct (Hbatch job_key) as [Hj Hdeps]; [left|].
  pose proof Hinv as (Hdrv & Hrec & Hwait & Hfail & Hatt & Hcount).
  destruct (submit_job_completes p job_key Hdrv Hj) as (config & stdout & job_id & Hget & Hsj & Hnf).
  pose proof (submit_batch_inv run_group_id trigger input self jobs_to_run [job_key] p n Hdrv)
    as Hdrv'.
  cbn [submit_batch] in Hdrv' |- *. rewrite Hsj in Hdrv' |- *. cbn [fst snd] in Hdrv' |- *.
  rewrite Hnf in Hdrv' |- *. cbn [fst] in Hdrv'.
  replace (done ++ job_key :: batch) with ((done ++ [job_key]) ++ batch)
    by (by rewrite <- app_assoc).
  apply IH.
  - split_and!; cbn [submitter trace failed_count submitted_count record_job submitted_jobs].
    + exact Hdrv'.
    + intros j [Hd| ->%list_elem_of_singleton]%elem_of_app.
      * destruct (decide (job_key = j)) as [->|Hne];
          [rewrite lookup_insert_eq; by eexists|].
        rewrite lookup_insert_ne by done. by apply Hrec.
      * rewrite lookup_insert_eq. by eexists.
    + intros i ev Hi. apply lookup_app_Some in Hi as [Hi|[Hlen Hi]].
      * rewrite take_app_le by (apply Nat.lt_le_incl; by eapply lookup_lt_Some).
        by apply Hwait.
      * apply list_lookup_singleton_Some in Hi as [Hi <-].
        replace i with (length (trace p)) by lia. rewrite take_app_length.
        destruct Hdrv as (_ & _ & Hdepeq & Hrecorded & _).
        exists config, (dep_job_ids (submitter p)
                          (active_deps (submitter p) job_key jobs_to_run)).
        assert (active_deps (submitter p) job_key jobs_to_run
                = valid_deps (dependencies self) jobs_to_run job_key) as Hactive.
        { unfold active_deps, valid_deps. rewrite Hdepeq. apply filter_ext_elem.
          intros dep Hdep. split; [by intros [? _]|]. intros Hin. split; [done|].
          apply Hrec, HD, Hdeps. unfold valid_deps. by apply list_elem_of_filter. }
        assert (Forall2 (λ dep id, submitted_jobs (submitter p) !! dep = Some id)
                  (active_deps (submitter p) job_key jobs_to_run)
                  (dep_job_ids (submitter p)
                     (active_deps (submitter p) job_key jobs_to_run))) as Hids.
        { apply dep_job_ids_all. rewrite Hactive. intros dep Hdep.
          by apply Hrec, HD, Hdeps. }
        split_and!; [done| |].
        -- f_equal. unfold dependency_args.
           destruct (active_deps (submitter p) job_key jobs_to_run) as [|d active];
             [done|].
           destruct (dep_job_ids (submitter p) (d :: active)); [|done].
           by inversion Hids.
        -- rewrite <- Hactive. eapply Forall2_impl; [exact Hids|].
           intros dep id Hid. by apply Hrecorded.
    + done.
    + rewrite omap_app, Hatt. done.
    + rewrite length_app, Hcount. cbn. lia.
  - intros d Hd. apply elem_of_app. left. by apply HD.
  - intros j ?. apply Hbatch. by right.
Qed.

Lemma submit_batches_completes order pre rest (p : progress) :
  order = pre ++ rest →
  batches_sound (dependencies self) jobs_to_run order →
  (∀ j, j ∈ concat order → j ∈ jobs_to_run) →
  completes_inv run_group_id self jobs_to_run p (concat pre) →
  completes_inv run_group_id self jobs_to_run
    (submit_batches run_group_id trigger input jobs_to_run rest p)
    (concat order).
Proof.
  intros Horder Hsound Hin. revert pre p Horder.
  induction rest as [|batch rest IH]; intros pre p -> Hinv.
  { cbn. by rewrite app_nil_r. }
  cbn [submit_batches].
  destruct (submit_batch_completes (concat pre) batch p 0 (concat pre) Hinv) as [Hn Hinv'];
    [done| |].
  { intros j Hj. split.
    - apply Hin. rewrite concat_app. cbn [concat]. rewrite !elem_of_app. right. by left.
    - pose proof (Hsound (length pre) batch j) as Hd.
      rewrite take_app_length in Hd. apply Hd; [|done]. by apply list_lookup_middle. }
  destruct (submit_batch run_group_id trigger input jobs_to_run batch p 0) as [p' n].
  cbn [fst snd] in *. subst n. rewrite decide_False by lia.
  apply (IH (pre ++ [batch])).
  - by rewrite <- app_assoc.
  - rewrite concat_app. cbn [concat]. by rewrite app_nil_r.
Qed.

End Completes.

(** X21. When no submission fails — the script completes every call, the
    user confirms the plan, the run set is made of registered jobs and the
    dependency mapping is a dict — the run hands every job of the schedule
    to the script exactly once, in the order of the batches, reports
    success, and the command of each job names, in order, the identifiers
    recorded for all the dependencies of the job that are in the run set:
    no job starts before a dependency that is run with it. *)
Theorem all_complete_waits_for_all run_group_id trigger input (self : Submitter)
    (jobs_to_run : gset string) :
  dry_run self = false →
  (∀ tr cmd, ∃ stdout, trigger tr cmd = Completed stdout) →
  answered_yes (input [] prompt_confirm) = true →
  jobs_to_run ≠ ∅ →
  (∀ job_key, job_key ∈ jobs_to_run → job_key ∈ job_keys self) →
  NoDup (dependencies self).*1 →
  ∃ order p,
    get_execution_order self (Some jobs_to_run) = Some order
    ∧ run_pipeline run_group_id trigger input self jobs_to_run = Some (Finished true, p)
    ∧ omap attempted_job (trace p) = concat order
    ∧ submitted_count p = length (concat order)
    ∧ (∀ job_key, job_key ∈ concat order →
         is_Some (submitted_jobs (submitter p) !! job_key))
    ∧ ∀ i ev, trace p !! i = Some ev →
        waits_for_all run_group_id self jobs_to_run (take i (trace p)) ev.
Proof.
  intros Hdry Hcompletes Hyes Hne Hreg Hkeys.
  destruct (execution_order_total (dependencies self) jobs_to_run)
    as (order & Hord & _ & Hnd & Hin).
  pose proof (execution_order_sound _ _ Hkeys _ _ Hord) as Hsound.
  unfold run_pipeline. rewrite decide_False by done. rewrite Hdry, Hyes. cbn [negb andb].
  unfold get_execution_order, get_execution_order_fuel, run_set_of. rewrite Hord.
  cbn [mbind option_bind].
  match goal with |- context [submit_batches _ _ _ _ _ ?p0] => set (start := p0) end.
  assert (completes_inv run_group_id self jobs_to_run start (concat [])) as Hstart.
  { subst start. split_and!; cbn; [|by intros ? ?%elem_of_nil| |done..].
    - split_and!; cbn; [done..| |].
      + intros _ dep id ?. by left.
      + by apply (events_ok_snoc_asked _ _ _ []).
    - intros [|i] ev Hi; simplify_eq/=; done. }
  pose proof (submit_batches_completes run_group_id trigger input self jobs_to_run
                Hdry Hcompletes Hreg order [] order start eq_refl Hsound Hin Hstart)
    as (Hdrv & Hrec & Hwait & Hfail & Hatt & Hcount).
  exists order. eexists. split; [done|]. rewrite Hfail. split_and!; done.
Qed.

Lemma all_complete_waits_for_all_witness :
  ∃ order p,
    get_execution_order registry_scenario (Some run_set_scenario) = Some order
    ∧ run_pipeline "grp" trigger_accepts confirm_then_decline registry_scenario
        run_set_scenario = Some (Finished true, p)
    ∧ omap attempted_job (trace p) = concat order
    ∧ submitted_count p = length (concat order)
    ∧ (∀ job_key, job_key ∈ concat order →
         is_Some (submitted_jobs (submitter p) !! job_key))
    ∧ ∀ i ev, trace p !! i = Some ev →
        waits_for_all "grp" registry_scenario run_set_scenario (take i (trace p)) ev.
Proof.
  apply (all_complete_waits_for_all "grp" trigger_accepts confirm_then_decline
           registry_scenario run_set_scenario).
  - reflexivity.
  - intros tr cmd. by eexists.
  - reflexivity.
  - intros H. apply (f_equal (λ s : gset string, bool_decide ("a:x" ∈ s))) in H.
    vm_compute in H. discriminate.
  - intros job_key Hj.
    apply (proj1 (elem_of_list_to_set (C := gset string) job_key
                    (job_keys registry_scenario))).
    revert job_key Hj.
    change (run_set_scenario ⊆ list_to_set (job_keys registry_scenario)).
    apply (bool_decide_unpack _). vm_compute. exact I.
  - apply (bool_decide_unpack _). vm_compute. exact I.
Defined.

(** ** Facts about loading the registry *)

Lemma set_item_keys {V} (d : list (string * V)) k v :
  (set_item d k v).*1 = if decide (k ∈ d.*1) then d.*1 else d.*1 ++ [k].
Proof.
  induction d as [|[k' v'] d IH]; [done|]. cbn [set_item fst fmap list_fmap].
  destruct (decide (k' = k)) as [->|Hne].
  - rewrite decide_True by left. done.
  - cbn [fmap list_fmap fst]. fold (fmap (M := list) (@fst string V)). rewrite IH.
    destruct (decide (k ∈ d.*1)) as [Hin|Hnin].
    + rewrite decide_True by (by right). done.
    + rewrite decide_False; [done|]. intros [?|?]%elem_of_cons; congruence.
Qed.

Lemma set_item_nodup {V} (d : list (string * V)) k v :
  NoDup d.*1 → NoDup (set_item d k v).*1.
Proof.
  intros Hnd. rewrite set_item_keys. destruct (decide (k ∈ d.*1)); [done|].
  apply NoDup_app. split_and!; [done| |apply NoDup_singleton].
  intros x Hx ->%list_elem_of_singleton. done.
Qed.

Lemma set_item_elem_of {V} (d : list (string * V)) k v item :
  item ∈ set_item d k v → item = (k, v) ∨ item ∈ d.
Proof.
  induction d as [|[k' v'] d IH]; cbn [set_item fst].
  - intros ->%list_elem_of_singleton. by left.
  - destruct (decide (k' = k)) as [->|Hne].
    + intros [->|?]%elem_of_cons; [by left|right; by right].
    + intros [->|[?|?]%IH]%elem_of_cons; [right; left|by left|right; by right].
Qed.

Lemma set_item_key {V} (d : list (string * V)) k v : k ∈ (set_item d k v).*1.
Proof.
  rewrite set_item_keys. destruct (decide (k ∈ d.*1)); [done|].
  apply elem_of_app. right. left.
Qed.

Lemma set_item_keeps_keys {V} (d : list (string * V)) k v k' :
  k' ∈ d.*1 → k' ∈ (set_item d k v).*1.
Proof.
  rewrite set_item_keys. destruct (decide (k ∈ d.*1)); [done|].
  intros. apply elem_of_app. by left.
Qed.

Lemma load_step_inv stages stage_name steps job_configs item :
  (stage_name, steps) ∈ default [] stages → item ∈ steps →
  loaded_inv stages job_configs →
  loaded_inv stages (load_step stage_name job_configs item).
Proof.
  intros Hstage Hitem [Hnd Hall]. unfold load_step. cbv zeta. split.
  - by apply set_item_nodup.
  - intros job_key config [[= -> ->]|Hin]%set_item_elem_of; [|by apply Hall].
    cbn [stage step job_config_from]. split; [done|]. exists item.2. split; [|done].
    exists steps. split; [done|]. by destruct item.
Qed.

Lemma load_stage_inv stages job_configs item :
  item ∈ default [] stages →
  loaded_inv stages job_configs →
  loaded_inv stages (load_stage job_configs item)
  ∧ (∀ k, k ∈ job_configs.*1 → k ∈ (load_stage job_configs item).*1)
  ∧ ∀ step_name config, (step_name, config) ∈ item.2 →
      item.1 +:+ ":" +:+ step_name ∈ (load_stage job_configs item).*1.
Proof.
  destruct item as [stage_name steps]. intros Hstage. unfold load_stage. cbn [fst snd].
  enough (∀ l job_configs, (∀ x, x ∈ l → x ∈ steps) →
    loaded_inv stages job_configs →
    loaded_inv stages (foldl (load_step stage_name) job_configs l)
    ∧ (∀ k, k ∈ job_configs.*1 → k ∈ (foldl (load_step stage_name) job_configs l).*1)
    ∧ ∀ step_name config, (step_name, config) ∈ l →
        stage_name +:+ ":" +:+ step_name
        ∈ (foldl (load_step stage_name) job_configs l).*1) as Hgen.
  { intros Hinv. by apply Hgen. }
  clear job_configs. induction l as [|x l IH]; intros job_configs Hl Hinv.
  { cbn. split_and!; [done..|]. by intros ? ? ?%elem_of_nil. }
  cbn [foldl]. destruct (IH (load_step stage_name job_configs x)) as (Hinv' & Hkeep & Hnew).
  { intros y ?. apply Hl. by right. }
  { eapply load_step_inv; [done| |done]. apply Hl. left. }
  split_and!; [done| |].
  - intros k Hk. apply Hkeep. unfold load_step. by apply set_item_keeps_keys.
  - intros step_name config [<-|Hin]%elem_of_cons; [|by eapply Hnew].
    apply Hkeep. unfold load_step. cbn [fst]. apply set_item_key.
Qed.

Lemma load_stages_inv stages job_configs :
  loaded_inv stages job_configs →
  loaded_inv stages (foldl load_stage job_configs (default [] stages))
  ∧ ∀ stage_name step_name config, step_of stages stage_name step_name config →
      stage_name +:+ ":" +:+ step_name
      ∈ (foldl load_stage job_configs (default [] stages)).*1.
Proof.
  enough (∀ l job_configs, (∀ x, x ∈ l → x ∈ default [] stages) →
    loaded_inv stages job_configs →
    loaded_inv stages (foldl load_stage job_configs l)
    ∧ (∀ k, k ∈ job_configs.*1 → k ∈ (foldl load_stage job_configs l).*1)
    ∧ ∀ stage_name steps step_name config,
        (stage_name, steps) ∈ l → (step_name, config) ∈ steps →
        stage_name +:+ ":" +:+ step_name ∈ (foldl load_stage job_configs l).*1) as Hgen.
  { intros Hinv. destruct (Hgen (default [] stages) job_configs) as (? & _ & Hnew); [done..|].
    split; [done|]. intros stage_name step_name config (steps & ? & ?). by eapply Hnew. }
  clear job_configs. induction l as [|x l IH]; intros job_configs Hl Hinv.
  { cbn. split_and!; [done..|]. by intros ? ? ? ? ?%elem_of_nil. }
  cbn [foldl].
  destruct (load_stage_inv stages job_configs x) as (Hinv1 & Hkeep1 & Hnew1);
    [apply Hl; left|done|].
  destruct (IH (load_stage job_configs x)) as (Hinv' & Hkeep & Hnew); [|done|].
  { intros y ?. apply Hl. by right. }
  split_and!; [done|auto|].
  intros stage_name steps step_name config [<-|Hin]%elem_of_cons Hstep; [|by eapply Hnew].
  apply Hkeep. by eapply (Hnew1 step_name config).
Qed.

(** X22. Loading the parameter file into a submitter whose registry is
    empty gives a registry with distinct keys in which every step of the
    file has its job, under the key [stage:step]; every job of the registry
    comes from a step of the file, has the stage and the step of its key,
    and has the settings of the [resources] section of the step when there
    is one (the settings written in the step itself are then ignored), of
    the step itself otherwise, with the defaults of [JobConfig] for the
    settings that are not given. *)
Theorem load_job_configs_entries (self : Submitter)
    (stages : option (list (string * list (string * step_config)))) :
  job_configs self = [] →
  NoDup (job_keys (load_job_configs self stages))
  ∧ (∀ stage_name step_name config,
       step_of stages stage_name step_name config →
       stage_name +:+ ":" +:+ step_name ∈ job_keys (load_job_configs self stages))
  ∧ ∀ job_key config,
      (job_key, config) ∈ job_configs (load_job_configs self stages) →
      job_key = stage config +:+ ":" +:+ step config
      ∧ ∃ from, step_of stages (stage config) (step config) from
                ∧ config = job_config_from (stage config) (step config)
                             (effective_settings from).
Proof.
  intros Hempty. unfold job_keys, load_job_configs. cbn [job_configs]. rewrite Hempty.
  destruct (load_stages_inv stages []) as ([Hnd Hall] & Hnew).
  { split; [constructor|]. by intros ? ? ?%elem_of_nil. }
  done.
Qed.

Lemma load_job_configs_entries_witness :
  NoDup (job_keys (load_job_configs submitter_init stages_scenario))
  ∧ (∀ stage_name step_name config,
       step_of stages_scenario stage_name step_name config →
       stage_name +:+ ":" +:+ step_name
       ∈ job_keys (load_job_configs submitter_init stages_scenario))
  ∧ ∀ job_key config,
      (job_key, config) ∈ job_configs (load_job_configs submitter_init stages_scenario) →
      job_key = stage config +:+ ":" +:+ step config
      ∧ ∃ from, step_of stages_scenario (stage config) (step config) from
                ∧ config = job_config_from (stage config) (step config)
                             (effective_settings from).
Proof.
  apply (load_job_configs_entries submitter_init stages_scenario). reflexivity.
Defined.

Example load_scenario :
  job_configs (load_job_configs submitter_init stages_scenario)
  = [("a:x", {| stage := "a"; step := "x"; gpus := 4; time_limit := "02:00:00";
               memory := "48g"; cpus := 8; partition := "long"; nodes := 1;
               ntasks := 1; ntasks_per_node := 1 |});
     ("a:y", default_config "a" "y");
     ("b:z", default_config "b" "z")].
Proof. reflexivity. Qed.

Lemma split_stage_step stage_name step_name :
  Py.has_char ":" stage_name = false → Py.has_char ":" step_name = false →
  split_job_key (stage_name +:+ ":" +:+ step_name) = Ok (stage_name, step_name).
Proof.
  intros H1 H2. unfold split_job_key.
  change (":" +:+ step_name) with (String ":" step_name).
  by rewrite split_append_sep, split_no_sep.
Qed.

Lemma split_length_two sep s :
  Py.has_char sep s = true → 2 ≤ length (Py.split sep s).
Proof.
  induction s as [|c s IH]; [done|]. cbn [Py.has_char].
  destruct (decide (c = sep)) as [->|Hne].
  - intros _. cbn [Py.split]. rewrite decide_True by done. cbn [length].
    pose proof (split_cons_nonempty sep s). destruct (Py.split sep s); [done|]. cbn. lia.
  - rewrite split_length_cons by done. auto.
Qed.

Lemma split_job_key_colon stage_name step_name :
  Py.has_char ":" stage_name || Py.has_char ":" step_name = true →
  split_job_key (stage_name +:+ ":" +:+ step_name) = Raise ValueError.
Proof.
  intros Hcolon. unfold split_job_key.
  assert (3 ≤ length (Py.split ":" (stage_name +:+ ":" +:+ step_name))) as Hlen.
  { change (":" +:+ step_name) with (String ":" step_name). rewrite split_length_app.
    pose proof (split_cons_nonempty ":" stage_name).
    pose proof (split_cons_nonempty ":" step_name).
    apply orb_true_iff in Hcolon as [Hc%split_length_two|Hc%split_length_two].
    - destruct (Py.split ":" step_name); [done|]. cbn [length]. lia.
    - destruct (Py.split ":" stage_name); [done|]. cbn [length]. lia. }
  destruct (Py.split ":" (stage_name +:+ ":" +:+ step_name)) as [|? [|? [|? ?]]];
    cbn [length] in Hlen; try lia. done.
Qed.

Lemma keys_where_raises test keys job_key :
  job_key ∈ keys → split_job_key job_key = Raise ValueError →
  keys_where test keys = Raise ValueError.
Proof.
  intros Hin Hsplit. induction keys as [|k keys IH]; [by apply elem_of_nil in Hin|].
  cbn [keys_where]. apply elem_of_cons in Hin as [<-|Hin].
  - by rewrite Hsplit.
  - rewrite (IH Hin). unfold split_job_key.
    by destruct (Py.split ":" k) as [|? [|? [|? ?]]].
Qed.

(** X23. The registry loaded from the parameter file into an empty one is
    a registry of well-formed identities (every key splits at its colon
    into a stage and a step) exactly when no stage name and no step name of
    the file contains a colon.  A step whose stage name or step name has a
    colon makes the status resolver raise [ValueError] on every name
    without an at-sign. *)
Theorem load_job_configs_wf (self : Submitter)
    (stages : option (list (string * list (string * step_config)))) :
  job_configs self = [] →
  (wf_registry (load_job_configs self stages)
   ↔ ∀ stage_name step_name config,
       step_of stages stage_name step_name config →
       Py.has_char ":" stage_name = false ∧ Py.has_char ":" step_name = false)
  ∧ ∀ stage_name step_name config,
      step_of stages stage_name step_name config →
      Py.has_char ":" stage_name || Py.has_char ":" step_name = true →
      ∀ dvc_stage, Py.has_char "@" dvc_stage = false →
        _dvc_stage_to_job_keys (load_job_configs self stages) dvc_stage
        = Raise ValueError.
Proof.
  intros Hempty.
  assert (loaded_inv stages (job_configs (load_job_configs self stages))
          ∧ ∀ stage_name step_name config, step_of stages stage_name step_name config →
              stage_name +:+ ":" +:+ step_name ∈ job_keys (load_job_configs self stages))
    as [[_ Hall] Hnew].
  { unfold job_keys, load_job_configs. cbn [job_configs]. rewrite Hempty.
    apply load_stages_inv. split; [constructor|]. by intros ? ? ?%elem_of_nil. }
  split; [split|].
  - intros Hwf stage_name step_name config Hstep.
    eapply wf_key_parts; [exact Hwf|]. by eapply Hnew.
  - intros Hnames job_key ([k config] & -> & Hin)%list_elem_of_fmap.
    destruct (Hall k config Hin) as (-> & from & Hstep & _). cbn [fst].
    destruct (Hnames _ _ _ Hstep). exists (stage config), (step config).
    by apply split_stage_step.
  - intros stage_name step_name config Hstep Hcolon dvc_stage Hat.
    unfold _dvc_stage_to_job_keys. rewrite Hat.
    eapply keys_where_raises; [by eapply Hnew|]. by apply split_job_key_colon.
Qed.

Lemma load_job_configs_wf_witness :
  (wf_registry (load_job_configs submitter_init stages_scenario)
   ↔ ∀ stage_name step_name config,
       step_of stages_scenario stage_name step_name config →
       Py.has_char ":" stage_name = false ∧ Py.has_char ":" step_name = false)
  ∧ ∀ stage_name step_name config,
      step_of stages_scenario stage_name step_name config →
      Py.has_char ":" stage_name || Py.has_char ":" step_name = true →
      ∀ dvc_stage, Py.has_char "@" dvc_stage = false →
        _dvc_stage_to_job_keys (load_job_configs submitter_init stages_scenario) dvc_stage
        = Raise ValueError.
Proof.
  apply (load_job_configs_wf submitter_init stages_scenario). reflexivity.
Defined.
(** ** Facts about the run group identifier *)

Lemma clean_group_safe user_group : all_safe (clean_group user_group) = true.
Proof.
  induction user_group as [|c s IH]; [done|]. cbn [clean_group all_safe].
  rewrite IH, andb_true_r. by destruct (is_safe_char c) eqn:Hc.
Qed.

Lemma clean_group_length user_group :
  String.length (clean_group user_group) = String.length user_group.
Proof. induction user_group as [|c s IH]; [done|]. cbn. by rewrite IH. Qed.

Lemma clean_group_fixes user_group :
  all_safe user_group = true → clean_group user_group = user_group.
Proof.
  induction user_group as [|c s IH]; [done|]. cbn [clean_group all_safe].
  intros [-> Hs]%andb_true_iff. by rewrite IH.
Qed.

(** X24. The run group that the user names is made safe for use as a
    branch name: the identifier has the length of the name, only letters,
    digits, underscore, dot and hyphen, and differs from the name only where
    the name has another character, which becomes an underscore; a name
    that is safe already is kept, so cleaning twice changes nothing more.
    It is the identifier of the first call with a non-empty name. *)
Theorem clean_group_is_safe (user_group : string) :
  all_safe (clean_group user_group) = true
  ∧ String.length (clean_group user_group) = String.length user_group
  ∧ (all_safe user_group = true → clean_group user_group = user_group)
  ∧ clean_group (clean_group user_group) = clean_group user_group
  ∧ (user_group ≠ EmptyString →
     ∀ date_part time_part commit,
       generate_run_group_id None (Some user_group) date_part time_part commit
       = (clean_group user_group, Some (clean_group user_group))).
Proof.
  split_and!.
  - apply clean_group_safe.
  - apply clean_group_length.
  - apply clean_group_fixes.
  - apply clean_group_fixes, clean_group_safe.
  - intros Hne date_part time_part commit. by destruct user_group.
Qed.


(** ** Facts about the resource totals *)

Section TotalsFacts.
Variable int : string → option Z.
Variable job_configs : list (string * JobConfig).

Lemma job_hours_cases config :
  (∃ hours, job_hours int config = Ok hours) ∨ job_hours int config = Raise OverflowError.
Proof.
  unfold job_hours.
  destruct (parse_time_limit_cases int (time_limit config)) as [[x ->]| ->]; [|by right].
  cbn [mbind result_bind].
  destruct (int_mul_cases (gpus config) x) as [[g ->]| ->]; [|by right].
  cbn [mbind result_bind].
  destruct (int_mul_cases (cpus config) x) as [[c ->]| ->]; [|by right].
  cbn. eauto.
Qed.

Lemma registered_hours_cases keys :
  (∃ hours, registered_hours int job_configs keys = Ok hours)
  ∨ registered_hours int job_configs keys = Raise OverflowError.
Proof.
  induction keys as [|k keys IH]; cbn [registered_hours]; [by eauto|].
  destruct (Py.get job_configs k) as [config|]; [|done].
  destruct (job_hours_cases config) as [[h ->]| ->]; [|by right].
  cbn [mbind result_bind]. destruct IH as [[hs ->]| ->]; cbn; eauto.
Qed.

(** The loop from any pair of totals. *)
Lemma foldl_add_job_hours keys totals :
  foldl (λ acc job_key, totals ← acc; add_job_hours int job_configs totals job_key)
    (Ok totals) keys
  = (hours ← registered_hours int job_configs keys;
     Ok (foldl Float.add totals.1 hours.*1, foldl Float.add totals.2 hours.*2)).
Proof.
  revert totals. induction keys as [|k keys IH]; intros [g c]; [done|].
  cbn [foldl registered_hours mbind result_bind]. unfold add_job_hours at 2.
  destruct (Py.get job_configs k) as [config|]; [|apply IH].
  destruct (job_hours_cases config) as [[[gh ch] ->]| ->].
  - cbn [mbind result_bind fst snd]. rewrite IH.
    destruct (registered_hours int job_configs keys); done.
  - cbn [mbind result_bind]. apply foldl_result_raise.
Qed.

Lemma registered_hours_filter keys :
  registered_hours int job_configs (filter (λ k, k ∈ job_configs.*1) keys)
  = registered_hours int job_configs keys.
Proof.
  induction keys as [|k keys IH]; [done|]. rewrite filter_cons.
  destruct (decide (k ∈ job_configs.*1)) as [Hk|Hk]; cbn [registered_hours].
  - by rewrite IH.
  - by rewrite (get_not_key _ _ Hk).
Qed.

Lemma registered_hours_raises keys :
  registered_hours int job_configs keys = Raise OverflowError
  ↔ ∃ job_key config, job_key ∈ keys ∧ Py.get job_configs job_key = Some config
                      ∧ job_hours int config = Raise OverflowError.
Proof.
  induction keys as [|k keys IH]; cbn [registered_hours].
  { split; [done|]. by intros (? & ? & ?%elem_of_nil & _). }
  destruct (Py.get job_configs k) as [config|] eqn:Hget.
  - destruct (job_hours_cases config) as [[h Hh]|Hh]; rewrite Hh; cbn [mbind result_bind].
    + destruct (registered_hours_cases keys) as [[hs Hhs]|Hhs]; rewrite Hhs in IH |- *; cbn.
      * split; [done|]. intros (j & c & [->|Hj]%elem_of_cons & Hc & Hr).
        -- congruence.
        -- exfalso. enough (Ok hs = Raise OverflowError) by done. apply IH. eauto.
      * split; [|done]. intros _. destruct (proj1 IH eq_refl) as (j & c & Hj & Hc & Hr).
        exists j, c. split; [by right|done].
    + split; [|done]. intros _. exists k, config. split; [left|done].
  - rewrite IH. split.
    + intros (j & c & Hj & Hc & Hr). exists j, c. split; [by right|done].
    + intros (j & c & [->|Hj]%elem_of_cons & Hc & Hr); [congruence|eauto].
Qed.

End TotalsFacts.

(** X26. The two totals are sums of floats taken in the order in which
    the set is gone through: 0.0 plus, from left to right, the GPU hours
    and the CPU hours of the members that are registered; members that are
    not registered are passed over.  [OverflowError] is the only exception,
    and it leaves the function exactly when the hours of some registered
    member cannot be computed, whatever the order.  The value does depend on
    the order: the same three jobs give two different totals. *)
Theorem calculate_resource_totals_in_order :
  (∀ (int : string → option Z) (job_configs : list (string * JobConfig))
     (jobs_to_run : list string),
     let totals := calculate_resource_totals int job_configs jobs_to_run in
     totals = (hours ← registered_hours int job_configs jobs_to_run;
               Ok (float_sum hours.*1, float_sum hours.*2))
     ∧ totals = calculate_resource_totals int job_configs
                  (filter (λ job_key, job_key ∈ job_configs.*1) jobs_to_run)
     ∧ ((∃ sums, totals = Ok sums) ∨ totals = Raise OverflowError)
     ∧ (totals = Raise OverflowError
        ↔ ∃ job_key config,
            job_key ∈ jobs_to_run ∧ Py.get job_configs job_key = Some config
            ∧ job_hours int config = Raise OverflowError))
  ∧ calculate_resource_totals int_decimal registry_minutes ["a:x"; "a:y"; "b:z"]
    ≠ calculate_resource_totals int_decimal registry_minutes ["b:z"; "a:y"; "a:x"].
Proof.
  split; [|by vm_compute].
  intros int job_configs jobs_to_run totals.
  assert (totals = (hours ← registered_hours int job_configs jobs_to_run;
                    Ok (float_sum hours.*1, float_sum hours.*2))) as Htotals
    by apply foldl_add_job_hours.
  split_and!.
  - done.
  - rewrite Htotals. unfold calculate_resource_totals.
    rewrite foldl_add_job_hours, registered_hours_filter. reflexivity.
  - rewrite Htotals.
    destruct (registered_hours_cases int job_configs jobs_to_run) as [[hs ->]| ->];
      cbn; eauto.
  - rewrite Htotals, <- registered_hours_raises.
    destruct (registered_hours int job_configs jobs_to_run); cbn; naive_solver.
Qed.

(** The two totals of the three jobs: 0.6000000000000001 and 0.6 GPU hours,
    4.800000000000001 and 4.8 CPU hours. *)
Example totals_in_two_orders :
  calculate_resource_totals int_decimal registry_minutes ["a:x"; "a:y"; "b:z"]
  = Ok (S754_finite false 5404319552844596 (-53), S754_finite false 5404319552844596 (-50))
  ∧ calculate_resource_totals int_decimal registry_minutes ["b:z"; "a:y"; "a:x"]
    = Ok (S754_finite false 5404319552844595 (-53), S754_finite false 5404319552844595 (-50)).
Proof. by vm_compute. Qed.

(** ** Facts about the whole run *)

Lemma keys_where_answers test keys : keys_where test keys ≠ OutOfFuel.
Proof. by destruct (keys_where_cases test keys) as [[l ->]| ->]. Qed.

Lemma find_matching_jobs_answers self dvc_node :
  _find_matching_jobs self dvc_node ≠ OutOfFuel.
Proof.
  unfold _find_matching_jobs.
  generalize (Py.strip is_quote (Py.strip Py.is_space dvc_node)). intros cleaned. cbv zeta.
  destruct (decide _); [done|]. destruct (_ && bool_decide _); [done|].
  match goal with
  | |- context [mbind _ ?m] => assert (m ≠ OutOfFuel) as Hm
  end.
  { destruct (_ && _); [apply keys_where_answers|done]. }
  match goal with
  | |- context [mbind _ ?m] => destruct m as [[|m0 ms]| |]; cbn [mbind result_bind]; try done
  end.
  match goal with
  | |- context [mbind _ (keys_where ?t ?ks)] =>
      pose proof (keys_where_answers t ks); destruct (keys_where t ks); done
  end.
Qed.

Lemma parse_dot_lines_frame self lines :
  match parse_dot_lines self lines with
  | Ok self' =>
      dry_run self' = dry_run self ∧ job_configs self' = job_configs self
      ∧ submitted_jobs self' = submitted_jobs self
  | Raise _ => True
  | OutOfFuel => False
  end.
Proof.
  revert self. induction lines as [|line lines IH]; intros self; [done|].
  cbn [parse_dot_lines]. destruct (Edge.search line) as [edge|]; [|apply IH].
  pose proof (find_matching_jobs_answers self edge.1).
  destruct (_find_matching_jobs self edge.1) as [dep_jobs| |]; cbn [mbind result_bind]; [|done..].
  pose proof (find_matching_jobs_answers self edge.2).
  destruct (_find_matching_jobs self edge.2) as [dependent_jobs| |];
    cbn [mbind result_bind]; [|done..].
  apply (IH (with_dependencies self _)).
Qed.

Section WholeRunFacts.
Variable json_loads : string → json_loaded.
Variable fnmatch : string → string → bool.
Variable re_compile : string → option (string → bool).
Variable int : string → option Z.
Variable run_group_id : string.
Variable trigger : list event → list string → trigger_result.
Variable input : list event → string → string.
Variable getpass : list event → string → string.
Variable out : outside.

Lemma load_everything_frame self :
  match PipelineSubmitter.load_everything out self with
  | Ok self' =>
      dry_run self' = dry_run self ∧ submitted_jobs self' = submitted_jobs self
  | Raise _ => True
  | OutOfFuel => False
  end.
Proof.
  unfold PipelineSubmitter.load_everything.
  assert (∀ configured : Submitter,
    dry_run configured = dry_run self →
    submitted_jobs configured = submitted_jobs self →
    match load_dependencies_from_dvc configured (dag out) with
    | Ok self' => dry_run self' = dry_run self ∧ submitted_jobs self' = submitted_jobs self
    | Raise _ => True
    | OutOfFuel => False
    end) as Hload.
  { intros configured Hdry Hsub. unfold load_dependencies_from_dvc.
    destruct (dag out) as [|returncode stdout]; [done|].
    destruct (_ && _); [|done]. unfold _parse_dot_output.
    pose proof (parse_dot_lines_frame configured (Py.split "010" stdout)) as Hframe.
    destruct (parse_dot_lines configured _); [|done..].
    destruct Hframe as (-> & _ & ->). done. }
  destruct (decide (job_configs self = [])) as [Hempty|Hempty]; [|by apply Hload].
  destruct (params_file out) as [e|stages]; [done|]. by apply Hload.
Qed.

Lemma ask_password_asks tr :
  ∃ reply,
    (PipelineSubmitter.ask_password getpass tr).2 = tr ++ [Asked prompt_password reply]
    ∧ (PipelineSubmitter.ask_password getpass tr).1 ≠ OutOfFuel.
Proof.
  unfold PipelineSubmitter.ask_password. eexists. by destruct (decide _).
Qed.

Lemma secrets_question_asked prompt reply :
  prompt ∈ [prompt_option; prompt_token; prompt_path; prompt_password] →
  secrets_question (Asked prompt reply).
Proof. intros ?. by exists prompt, reply. Qed.

(** The questions about the secrets come after what happened before, and
    nothing else happens. *)
Lemma prompt_for_secrets_password_asks tr :
  ∃ questions,
    (PipelineSubmitter.prompt_for_secrets_password input getpass out tr).2 = tr ++ questions
    ∧ Forall secrets_question questions
    ∧ (PipelineSubmitter.prompt_for_secrets_password input getpass out tr).1 ≠ OutOfFuel.
Proof.
  unfold PipelineSubmitter.prompt_for_secrets_password.
  destruct (github_token out).
  { exists []. by rewrite app_nil_r. }
  destruct (_ || _).
  { destruct (ask_password_asks tr) as (reply & -> & ?). eexists. split; [done|].
    split; [|done]. repeat constructor. apply secrets_question_asked. set_solver. }
  cbv zeta. destruct (decide _).
  { eexists [_; _]. rewrite <- app_assoc. split; [done|]. split; [|done].
    repeat constructor; apply secrets_question_asked; set_solver. }
  destruct (decide _); [|eexists [_]; split; [done|]; split; [|done];
    repeat constructor; apply secrets_question_asked; set_solver].
  destruct (path_exists out _).
  - match goal with
    | |- context [PipelineSubmitter.ask_password _ ?tr'] =>
        destruct (ask_password_asks tr') as (reply & -> & ?)
    end.
    eexists [_; _; _]. split; [by rewrite <- !app_assoc|]. split; [|done].
    repeat constructor; apply secrets_question_asked; set_solver.
  - eexists [_; _]. rewrite <- app_assoc. split; [done|]. split; [|done].
    repeat constructor; apply secrets_question_asked; set_solver.
Qed.

Lemma load_secrets_answers password :
  PipelineSubmitter.load_secrets out password ≠ OutOfFuel.
Proof.
  unfold PipelineSubmitter.load_secrets. destruct password; [|done].
  by destruct (secrets out _).
Qed.

Lemma check_job_status_answers self run : check_job_status json_loads self run ≠ OutOfFuel.
Proof.
  destruct run as [| |returncode json_content]; cbn [check_job_status]; [done..|].
  destruct (decide (returncode ≠ 0%Z)); [done|].
  destruct (decide (Py.strip Py.is_space json_content = EmptyString)); [done|].
  destruct (parse_dvc_status_json_cases json_loads self json_content)
    as [(job_status & -> & _)|(e & -> & ->)]; done.
Qed.

Lemma get_execution_order_some self (jobs_to_run : gset string) :
  ∃ order, get_execution_order self (Some jobs_to_run) = Some order
           ∧ NoDup (concat order)
           ∧ ∀ job_key, job_key ∈ concat order → job_key ∈ jobs_to_run.
Proof.
  destruct (execution_order_total (dependencies self) jobs_to_run)
    as (order & Hord & _ & Hnd & Hin).
  exists order. split; [|done].
  unfold get_execution_order, get_execution_order_fuel, run_set_of. by rewrite Hord.
Qed.

Lemma foldl_unit_answers {B} (f : B → result ()) l (start : result ()) :
  start ≠ OutOfFuel → (∀ b, f b ≠ OutOfFuel) →
  foldl (λ acc b, _ ← acc; f b) start l ≠ OutOfFuel.
Proof.
  revert start. induction l as [|b l IH]; intros start Hstart Hf; [done|].
  cbn [foldl]. apply IH; [|done]. destruct start as [[]| |]; [apply Hf|done..].
Qed.

Lemma job_hours_answers config : job_hours int config ≠ OutOfFuel.
Proof. by destruct (job_hours_cases int config) as [[h ->]| ->]. Qed.

Lemma parse_time_limit_answers time_str : parse_time_limit int time_str ≠ OutOfFuel.
Proof. by destruct (parse_time_limit_cases int time_str) as [[h ->]| ->]. Qed.

Lemma preview_batch_answers self batch :
  PipelineSubmitter.preview_batch int self batch ≠ OutOfFuel.
Proof.
  unfold PipelineSubmitter.preview_batch.
  match goal with
  | |- mbind _ ?m ≠ _ => assert (m ≠ OutOfFuel) as Hm
  end.
  { apply foldl_unit_answers; [done|]. intros job_key.
    destruct (Py.get _ _) as [config|]; [|done].
    pose proof (parse_time_limit_answers (time_limit config)).
    by destruct (parse_time_limit int _). }
  match goal with
  | |- mbind _ ?m ≠ _ => destruct m as [[]| |]; cbn [mbind result_bind]; [|done..]
  end.
  apply foldl_unit_answers; [done|]. intros job_key.
  destruct (Py.get _ _) as [config|]; [|done].
  pose proof (job_hours_answers config). by destruct (job_hours int _).
Qed.

Lemma preview_execution_plan_answers self jobs_to_run :
  PipelineSubmitter.preview_execution_plan int self jobs_to_run ≠ OutOfFuel.
Proof.
  unfold PipelineSubmitter.preview_execution_plan.
  destruct (get_execution_order_some self jobs_to_run) as (order & -> & _).
  cbn [from_option mbind result_bind].
  unfold calculate_resource_totals. rewrite foldl_add_job_hours.
  destruct (registered_hours_cases int (job_configs self) (elements jobs_to_run))
    as [[hs ->]| ->]; cbn [mbind result_bind]; [|done].
  match goal with
  | |- mbind _ ?m ≠ _ => assert (m ≠ OutOfFuel) as Hm
  end.
  { destruct (_ && _); [apply keys_where_answers|done]. }
  match goal with
  | |- mbind _ ?m ≠ _ => destruct m; cbn [mbind result_bind]; [|done..]
  end.
  apply foldl_unit_answers; [done|]. apply preview_batch_answers.
Qed.

(** The tail of the run always ends. *)
Lemma run_pipeline_ends trigger' input' self (jobs_to_run : gset string) :
  ∃ outcome p, run_pipeline run_group_id trigger' input' self jobs_to_run = Some (outcome, p).
Proof.
  unfold run_pipeline. destruct (decide _); [by eexists _, _|].
  destruct (_ && _); [by eexists _, _|].
  destruct (get_execution_order_some self jobs_to_run) as (order & -> & _).
  cbn. by eexists _, _.
Qed.

(** The tail of the run in preview mode. *)
Lemma run_pipeline_dry trigger' input' self (jobs_to_run : gset string) :
  dry_run self = true →
  (∀ job_key, job_key ∈ jobs_to_run → job_key ∈ job_keys self) →
  ∃ order outcome p,
    get_execution_order self (Some jobs_to_run) = Some order
    ∧ run_pipeline run_group_id trigger' input' self jobs_to_run = Some (outcome, p)
    ∧ returned outcome = true
    ∧ trace p = WouldSubmit <$> concat order
    ∧ ∀ job_key, job_key ∈ concat order →
        job_key ∈ jobs_to_run
        ∧ ∃ k : nat, submitted_jobs (submitter p) !! job_key = Some ("fake_" +:+ pretty k).
Proof.
  intros Hdry Hreg.
  destruct (get_execution_order_some self jobs_to_run) as (order & Hord & _ & Hin).
  exists order. unfold run_pipeline. destruct (decide (jobs_to_run = ∅)) as [->|Hne].
  { eexists _, _. split_and!; [done..| |].
    - destruct (concat order) as [|j l]; [done|].
      by destruct (not_elem_of_empty (C := gset string) j (Hin j ltac:(left))).
    - intros j Hj. by destruct (not_elem_of_empty (C := gset string) j (Hin j Hj)). }
  rewrite Hdry. cbn [negb andb]. rewrite Hord. cbn [mbind option_bind].
  match goal with |- context [submit_batches _ _ _ _ _ ?p0] => set (start := p0) end.
  destruct (submit_batches_dry run_group_id trigger' input' jobs_to_run order start)
    as (Htr & Hsub & Hfail & Hfake); [done| |].
  { intros j Hj. apply Hreg. by apply Hin. }
  eexists _, _. split; [done|]. split; [done|].
  rewrite Hfail, Htr. subst start. cbn [failed_count trace app returned].
  split_and!; [done..|]. intros j Hj. split; [by apply Hin|by apply Hfake].
Qed.

(** How the whole run ends: with an exception before anything is
    submitted or announced, or through its last part. *)
Lemma run_pipeline_whole_cases self target_pattern :
  let r := PipelineSubmitter.run_pipeline json_loads fnmatch re_compile int run_group_id
             trigger input getpass out self target_pattern in
  let asked := PipelineSubmitter.prompt_for_secrets_password input getpass out [] in
  (∃ e, r.1 = Raise e ∧ Forall secrets_question r.2)
  ∨ ∃ loaded job_status jobs_to_run outcome p,
      PipelineSubmitter.load_everything out self = Ok loaded
      ∧ check_job_status json_loads loaded (status out) = Ok job_status
      ∧ filter_jobs_by_status fnmatch re_compile loaded job_status false target_pattern
        = Ok jobs_to_run
      ∧ run_pipeline run_group_id (λ tr, trigger (asked.2 ++ tr))
          (λ tr, input (asked.2 ++ tr)) loaded jobs_to_run = Some (outcome, p)
      ∧ r = (Ok (returned outcome, submitter p), asked.2 ++ trace p)
      ∧ Forall secrets_question asked.2.
Proof.
  cbv zeta. unfold PipelineSubmitter.run_pipeline.
  destruct (negb _); [left; by eexists|].
  pose proof (load_everything_frame self) as Hframe.
  destruct (PipelineSubmitter.load_everything out self) as [loaded|e|] eqn:Hloaded;
    [|left; by eexists|done].
  destruct (prompt_for_secrets_password_asks []) as (questions & Htr & Hq & Hasked).
  cbn [app] in Htr. rewrite Htr.
  destruct (PipelineSubmitter.prompt_for_secrets_password input getpass out []).1
    as [password|e|]; cbn [mbind result_bind]; [|left; by eexists|done].
  pose proof (load_secrets_answers password).
  destruct (PipelineSubmitter.load_secrets out password) as [secrets_env|e|];
    cbn [mbind result_bind]; [|left; by eexists|done].
  pose proof (check_job_status_answers loaded (status out)).
  destruct (check_job_status json_loads loaded (status out)) as [job_status|e|] eqn:Hstatus;
    cbn [mbind result_bind]; [|left; by eexists|done].
  destruct (filter_jobs_by_status_cases fnmatch re_compile loaded job_status target_pattern)
    as [[Hfilter _]|(t & jobs_to_run & _ & _ & Hfilter & _)]; rewrite Hfilter;
    cbn [mbind result_bind]; [left; by eexists|].
  destruct (run_pipeline_ends (λ tr, trigger (questions ++ tr))
              (λ tr, input (questions ++ tr)) loaded jobs_to_run) as (outcome & p & Hrun).
  destruct (decide (jobs_to_run = ∅)) as [Hempty|Hempty].
  { rewrite Hrun. right. by exists loaded, job_status, jobs_to_run, outcome, p. }
  pose proof (preview_execution_plan_answers loaded jobs_to_run).
  destruct (PipelineSubmitter.preview_execution_plan int loaded jobs_to_run) as [[]|e|];
    cbn [mbind result_bind]; [|left; by eexists|done].
  rewrite Hrun. right. by exists loaded, job_status, jobs_to_run, outcome, p.
Qed.

End WholeRunFacts.

(** X12. When the status query succeeds and prints nothing, the whole run
    submits nothing: whatever else happens, the user is asked nothing but
    the questions about the secrets, the submission script is not called
    and no job is announced; the run ends, and if it returns, it returns
    True and leaves the submitter as it was after the loading of the
    registry and of the graph, with the submitted jobs it had. *)
Theorem nothing_stale_nothing_submitted json_loads fnmatch re_compile int run_group_id
    trigger input getpass (out : outside) (self : Submitter)
    (target_pattern : option string) (json_content : string) :
  status out = DvcExited 0 json_content →
  Py.strip Py.is_space json_content = EmptyString →
  let r := PipelineSubmitter.run_pipeline json_loads fnmatch re_compile int run_group_id
             trigger input getpass out self target_pattern in
  Forall secrets_question r.2
  ∧ r.1 ≠ OutOfFuel
  ∧ ∀ success self', r.1 = Ok (success, self') →
      success = true
      ∧ PipelineSubmitter.load_everything out self = Ok self'
      ∧ submitted_jobs self' = submitted_jobs self.
Proof.
  intros Hstatus Hblank. cbv zeta.
  pose proof (run_pipeline_whole_cases json_loads fnmatch re_compile int run_group_id
                trigger input getpass out self target_pattern) as Hcases.
  cbv zeta in Hcases.
  destruct Hcases as [(e & He & Hq)|(loaded & job_status & jobs_to_run & outcome & p
                                     & Hloaded & Hcheck & Hfilter & Hrun & Hr & Hq)].
  { split; [done|]. rewrite He. split; [done|]. intros success self' [=]. }
  assert (jobs_to_run = ∅) as ->.
  { rewrite Hstatus in Hcheck. cbn [check_job_status] in Hcheck.
    rewrite decide_False in Hcheck by (intros ?; done).
    rewrite decide_True in Hcheck by done. injection Hcheck as <-.
    destruct (filter_jobs_by_status_cases fnmatch re_compile loaded
                ((λ job_key, (job_key, Cached)) <$> job_keys loaded) target_pattern)
      as [[Hr' _]|(t & r' & _ & _ & Hr' & _ & _ & _ & _ & Hleast)]; [congruence|].
    rewrite Hr' in Hfilter. injection Hfilter as <-.
    apply set_eq. intros j. split; [|by intros ?%elem_of_empty].
    intros Hj. exfalso. revert j Hj. apply (Hleast (λ _, False)); [done|].
    intros k (k' & [= _ ?] & _)%list_elem_of_fmap. }
  unfold run_pipeline in Hrun. rewrite decide_True in Hrun by done.
  injection Hrun as <- <-. rewrite Hr. cbn [fst snd trace submitter returned].
  rewrite app_nil_r. split; [done|]. split; [done|].
  intros success self' [= <- <-]. split; [done|]. split; [done|].
  pose proof (load_everything_frame out self) as Hframe. rewrite Hloaded in Hframe.
  by destruct Hframe.
Qed.

Lemma nothing_stale_nothing_submitted_witness :
  let r := PipelineSubmitter.run_pipeline json_reject fnmatch_nothing re_compile_error
             int_decimal "grp" trigger_accepts confirm_then_decline getpass_secret
             outside_up_to_date submitter_init None in
  Forall secrets_question r.2
  ∧ r.1 ≠ OutOfFuel
  ∧ ∀ success self', r.1 = Ok (success, self') →
      success = true
      ∧ PipelineSubmitter.load_everything outside_up_to_date submitter_init = Ok self'
      ∧ submitted_jobs self' = submitted_jobs submitter_init.
Proof.
  apply (nothing_stale_nothing_submitted json_reject fnmatch_nothing re_compile_error
           int_decimal "grp" trigger_accepts confirm_then_decline getpass_secret
           outside_up_to_date submitter_init None " ").
  - reflexivity.
  - reflexivity.
Defined.

(** On the scenario: the password is asked for, and the run returns True
    with the registry and the graph loaded. *)
Example up_to_date_run :
  PipelineSubmitter.run_pipeline json_reject fnmatch_nothing re_compile_error
    int_decimal "grp" trigger_accepts confirm_then_decline getpass_secret
    outside_up_to_date submitter_init None
  = (Ok (true, with_dependencies (load_job_configs submitter_init stages_scenario)
                 [("b:z", ["a:x"])]),
     [Asked prompt_password "secret"]).
Proof. by vm_compute. Qed.

(** X20. In preview mode the whole run never calls the submission script
    and never asks for a confirmation: whatever else happens, its trace holds
    only questions about the secrets and announcements of jobs.  The run
    ends, and if it returns, it returns True: after the questions about the
    secrets it has announced the jobs of the schedule of the run set, one by
    one in the order of the batches, and has recorded a made-up identifier
    for each of them. *)
Theorem dry_run_submits_nothing json_loads fnmatch re_compile int run_group_id
    trigger input getpass (out : outside) (self : Submitter)
    (target_pattern : option string) :
  dry_run self = true →
  let r := PipelineSubmitter.run_pipeline json_loads fnmatch re_compile int run_group_id
             trigger input getpass out self target_pattern in
  Forall (λ ev, secrets_question ev ∨ ∃ job_key, ev = WouldSubmit job_key) r.2
  ∧ r.1 ≠ OutOfFuel
  ∧ ∀ success self', r.1 = Ok (success, self') →
      success = true
      ∧ ∃ loaded job_status jobs_to_run order,
          PipelineSubmitter.load_everything out self = Ok loaded
          ∧ check_job_status json_loads loaded (status out) = Ok job_status
          ∧ filter_jobs_by_status fnmatch re_compile loaded job_status false target_pattern
            = Ok jobs_to_run
          ∧ get_execution_order loaded (Some jobs_to_run) = Some order
          ∧ r.2 = (PipelineSubmitter.prompt_for_secrets_password input getpass out []).2
                  ++ (WouldSubmit <$> concat order)
          ∧ ∀ job_key, job_key ∈ concat order →
              job_key ∈ jobs_to_run
              ∧ ∃ k : nat, submitted_jobs self' !! job_key = Some ("fake_" +:+ pretty k).
Proof.
  intros Hdry. cbv zeta.
  pose proof (run_pipeline_whole_cases json_loads fnmatch re_compile int run_group_id
                trigger input getpass out self target_pattern) as Hcases.
  cbv zeta in Hcases.
  destruct Hcases as [(e & He & Hq)|(loaded & job_status & jobs_to_run & outcome & p
                                     & Hloaded & Hcheck & Hfilter & Hrun & Hr & Hq)].
  { split; [|rewrite He; split; [done|intros success self' [=]]].
    eapply Forall_impl; [exact Hq|]. by left. }
  pose proof (load_everything_frame out self) as Hframe. rewrite Hloaded in Hframe.
  destruct Hframe as [Hdry' _]. rewrite Hdry in Hdry'.
  destruct (run_pipeline_dry run_group_id
              (λ tr, trigger ((PipelineSubmitter.prompt_for_secrets_password
                                 input getpass out []).2 ++ tr))
              (λ tr, input ((PipelineSubmitter.prompt_for_secrets_password
                               input getpass out []).2 ++ tr))
              loaded jobs_to_run Hdry')
    as (order & outcome' & p' & Hord & Hrun' & Hret & Htr & Hfake).
  { intros j Hj.
    destruct (filter_jobs_by_status_cases fnmatch re_compile loaded job_status target_pattern)
      as [[Hr' _]|(t & r' & _ & _ & Hr' & Hreg & _ & Hsub & _)]; [congruence|].
    rewrite Hr' in Hfilter. injection Hfilter as ->.
    apply Hsub, Hreg in Hj. by apply elem_of_list_to_set in Hj. }
  rewrite Hrun' in Hrun. injection Hrun as <- <-.
  rewrite Hr, Hret, Htr. cbn [fst snd]. split_and!.
  - apply Forall_app. split.
    + eapply Forall_impl; [exact Hq|]. by left.
    + apply Forall_fmap, Forall_true. intros j. right. by exists j.
  - done.
  - intros success self' [= <- <-]. split; [done|].
    by exists loaded, job_status, jobs_to_run, order.
Qed.

Lemma dry_run_submits_nothing_witness :
  let r := PipelineSubmitter.run_pipeline json_a_x fnmatch_nothing re_compile_error
             int_decimal "grp" trigger_accepts confirm_then_decline getpass_secret
             outside_scenario submitter_preview None in
  Forall (λ ev, secrets_question ev ∨ ∃ job_key, ev = WouldSubmit job_key) r.2
  ∧ r.1 ≠ OutOfFuel
  ∧ ∀ success self', r.1 = Ok (success, self') →
      success = true
      ∧ ∃ loaded job_status jobs_to_run order,
          PipelineSubmitter.load_everything outside_scenario submitter_preview = Ok loaded
          ∧ check_job_status json_a_x loaded (status outside_scenario) = Ok job_status
          ∧ filter_jobs_by_status fnmatch_nothing re_compile_error loaded job_status
              false None = Ok jobs_to_run
          ∧ get_execution_order loaded (Some jobs_to_run) = Some order
          ∧ r.2 = (PipelineSubmitter.prompt_for_secrets_password confirm_then_decline
                     getpass_secret outside_scenario []).2
                  ++ (WouldSubmit <$> concat order)
          ∧ ∀ job_key, job_key ∈ concat order →
              job_key ∈ jobs_to_run
              ∧ ∃ k : nat, submitted_jobs self' !! job_key = Some ("fake_" +:+ pretty k).
Proof.
  apply (dry_run_submits_nothing json_a_x fnmatch_nothing re_compile_error
           int_decimal "grp" trigger_accepts confirm_then_decline getpass_secret
           outside_scenario submitter_preview None).
  reflexivity.
Defined.

(** On the scenario, where [a:x] is stale and [b:z] depends on it: the
    password is asked for, the two jobs are announced, and the run returns
    True. *)
Example preview_run :
  PipelineSubmitter.run_pipeline json_a_x fnmatch_nothing re_compile_error
    int_decimal "grp" trigger_accepts confirm_then_decline getpass_secret
    outside_scenario submitter_preview None
  = (Ok (true,
         {| dry_run := true;
            job_configs := job_configs (load_job_configs submitter_init stages_scenario);
            dependencies := [("b:z", ["a:x"])];
            submitted_jobs := <["b:z" := "fake_1"]> (<["a:x" := "fake_0"]> ∅) |}),
     [Asked prompt_password "secret"; WouldSubmit "a:x"; WouldSubmit "b:z"]).
Proof. by vm_compute. Qed.

(** ** Facts about the lock file merger *)

Lemma get_set_item_eq {V} (d : list (string * V)) k v : Py.get (set_item d k v) k = Some v.
Proof.
  induction d as [|[k' v'] d IH]; cbn [set_item fst Py.get].
  - by rewrite decide_True.
  - destruct (decide (k' = k)) as [->|Hne]; cbn [Py.get].
    + by rewrite decide_True.
    + by rewrite decide_False.
Qed.

Lemma get_set_item_ne {V} (d : list (string * V)) k v k' :
  k ≠ k' → Py.get (set_item d k v) k' = Py.get d k'.
Proof.
  intros Hne. induction d as [|[k0 v0] d IH]; cbn [set_item fst Py.get].
  - by rewrite decide_False.
  - destruct (decide (k0 = k)) as [->|Hne0]; cbn [Py.get].
    + by rewrite !decide_False.
    + destruct (decide (k0 = k')); [done|]. apply IH.
Qed.

Lemma get_None_keys {V} (d : list (string * V)) k : Py.get d k = None → k ∉ d.*1.
Proof.
  induction d as [|[k' v] d IH]; [by intros _ ?%elem_of_nil|]. cbn [Py.get].
  destruct (decide (k' = k)); [done|]. intros Hget [?|?]%elem_of_cons; [done|].
  by apply IH.
Qed.

Section MergerFacts.
Context {stage_data other_content : Type}.
Variable outs : stage_data → list output.

Lemma merge_stage_get st item name :
  item.1 ≠ name →
  Py.get (merge_stage stage_data outs st item).1 name = Py.get st.1 name.
Proof.
  intros Hne. unfold merge_stage. destruct (Py.get st.1 item.1) as [existing|].
  - destruct (decide _); cbn [fst]; [by apply get_set_item_ne|done].
  - by apply get_set_item_ne.
Qed.

Lemma merge_stage_taken st item :
  ∃ data, Py.get (merge_stage stage_data outs st item).1 item.1 = Some data
          ∧ _get_output_hashes stage_data outs data
            = _get_output_hashes stage_data outs item.2.
Proof.
  unfold merge_stage. destruct (Py.get st.1 item.1) as [existing|] eqn:Hget.
  - destruct (decide _) as [Hne|Heq]; cbn [fst].
    + exists item.2. split; [apply get_set_item_eq|done].
    + exists existing. split; [done|]. by apply dec_stable in Heq.
  - exists item.2. split; [apply get_set_item_eq|done].
Qed.

Lemma merge_stage_keys st item :
  (merge_stage stage_data outs st item).1.*1
  = if decide (item.1 ∈ st.1.*1) then st.1.*1 else st.1.*1 ++ [item.1].
Proof.
  unfold merge_stage. destruct (Py.get st.1 item.1) as [existing|] eqn:Hget.
  - assert (item.1 ∈ st.1.*1) as Hin.
    { destruct (decide (item.1 ∈ st.1.*1)) as [|Hnin]; [done|].
      by rewrite get_not_key in Hget. }
    destruct (decide (_ ≠ _)); cbn [fst]; [rewrite set_item_keys|]; by rewrite decide_True.
  - cbn [fst]. rewrite set_item_keys. apply get_None_keys in Hget.
    by rewrite !decide_False.
Qed.

Lemma merge_stage_count st item :
  added (merge_stage stage_data outs st item).2
  + updated (merge_stage stage_data outs st item).2
  + skipped (merge_stage stage_data outs st item).2
  = S (added st.2 + updated st.2 + skipped st.2).
Proof.
  unfold merge_stage. destruct (Py.get st.1 item.1); [destruct (decide _)|]; cbn; lia.
Qed.

Lemma foldl_merge_stage branch st :
  NoDup branch.*1 →
  let r := foldl (merge_stage stage_data outs) st branch in
  added r.2 + updated r.2 + skipped r.2
  = added st.2 + updated st.2 + skipped st.2 + length branch
  ∧ r.1.*1 = st.1.*1 ++ filter (λ name, name ∉ st.1.*1) branch.*1
  ∧ (∀ name, name ∉ branch.*1 → Py.get r.1 name = Py.get st.1 name)
  ∧ ∀ name data, (name, data) ∈ branch →
      ∃ data', Py.get r.1 name = Some data'
               ∧ _get_output_hashes stage_data outs data'
                 = _get_output_hashes stage_data outs data.
Proof.
  revert st. induction branch as [|item branch IH]; intros st Hnd.
  { cbn. rewrite app_nil_r. split_and!; [lia|done|done|]. by intros ? ? ?%elem_of_nil. }
  rewrite fmap_cons in Hnd. apply NoDup_cons in Hnd as [Hitem Hnd].
  cbn [foldl]. destruct (IH (merge_stage stage_data outs st item) Hnd)
    as (Hcount & Hkeys & Hkeep & Htaken).
  cbv zeta. split_and!.
  - rewrite Hcount, merge_stage_count. cbn [length]. lia.
  - rewrite Hkeys, merge_stage_keys, fmap_cons, filter_cons.
    destruct (decide (item.1 ∈ st.1.*1)) as [Hin|Hnin].
    + rewrite decide_False by (intros H; by apply H). done.
    + rewrite decide_True by done. rewrite <- app_assoc. cbn [app]. f_equal. f_equal.
      apply filter_ext_elem. intros name Hname. rewrite not_elem_of_app.
      split; [by intros [? _]|]. intros ?. split; [done|].
      intros ->%list_elem_of_singleton. done.
  - intros name Hname. apply not_elem_of_cons in Hname as [Hne Hname].
    rewrite Hkeep by done. apply merge_stage_get. congruence.
  - intros name data [<-|Hin]%elem_of_cons; [|by eapply Htaken].
    rewrite Hkeep by done. apply (merge_stage_taken st (name, data)).
Qed.

Lemma foldl_merge_stage_again branch st :
  (∀ name data, (name, data) ∈ branch →
     ∃ data', Py.get st.1 name = Some data'
              ∧ _get_output_hashes stage_data outs data'
                = _get_output_hashes stage_data outs data) →
  foldl (merge_stage stage_data outs) st branch
  = (st.1, {| added := added st.2; updated := updated st.2;
              skipped := skipped st.2 + length branch |}).
Proof.
  revert st. induction branch as [|[name data] branch IH]; intros st Hall.
  { cbn. destruct st as [m [a u s]]. cbn. do 2 f_equal. lia. }
  cbn [foldl]. destruct (Hall name data) as (data' & Hget & Hhash); [left|].
  unfold merge_stage at 2. cbn [fst snd]. rewrite Hget.
  rewrite decide_False by (intros Hne; by apply Hne). rewrite IH.
  - cbn [fst snd added updated skipped length]. do 2 f_equal. lia.
  - intros name' data'' Hin. cbn [fst]. apply Hall. by right.
Qed.

End MergerFacts.

(** X27. Merging a branch's lock file into a base lock file (both with
    distinct stage names) keeps the rest of the base, counts every stage of
    the branch as added, updated or skipped, and leaves the stages of the
    base in place, with the stages that only the branch has after them in
    the order of the branch.  A stage that the branch does not have is
    left as it is, and for a stage that the branch has the merged lock has
    the output hashes of the branch. *)
Theorem merge_locks_result {stage_data other_content : Type}
    (outs : stage_data → list output) (base_lock branch_lock : lock stage_data other_content) :
  NoDup (default [] (stages branch_lock)).*1 →
  ∃ merged,
    stages (merge_locks stage_data outs other_content base_lock branch_lock).1 = Some merged
    ∧ other (merge_locks stage_data outs other_content base_lock branch_lock).1
      = other base_lock
    ∧ (let stats := (merge_locks stage_data outs other_content base_lock branch_lock).2 in
       added stats + updated stats + skipped stats
       = length (default [] (stages branch_lock)))
    ∧ merged.*1
      = (default [] (stages base_lock)).*1
        ++ filter (λ name, name ∉ (default [] (stages base_lock)).*1)
             (default [] (stages branch_lock)).*1
    ∧ (∀ name, name ∉ (default [] (stages branch_lock)).*1 →
         Py.get merged name = Py.get (default [] (stages base_lock)) name)
    ∧ ∀ name data, (name, data) ∈ default [] (stages branch_lock) →
        ∃ data', Py.get merged name = Some data'
                 ∧ _get_output_hashes stage_data outs data'
                   = _get_output_hashes stage_data outs data.
Proof.
  intros Hnd. unfold merge_locks. cbn [fst snd stages other]. eexists. split; [done|].
  destruct (foldl_merge_stage outs (default [] (stages branch_lock))
              (default [] (stages base_lock),
               {| added := 0; updated := 0; skipped := 0 |}) Hnd)
    as (Hcount & Hkeys & Hkeep & Htaken).
  split_and!; done.
Qed.

Lemma merge_locks_result_witness :
  ∃ merged,
    stages (merge_locks (list output) id unit lock_base lock_branch).1 = Some merged
    ∧ other (merge_locks (list output) id unit lock_base lock_branch).1 = other lock_base
    ∧ (let stats := (merge_locks (list output) id unit lock_base lock_branch).2 in
       added stats + updated stats + skipped stats
       = length (default [] (stages lock_branch)))
    ∧ merged.*1
      = (default [] (stages lock_base)).*1
        ++ filter (λ name, name ∉ (default [] (stages lock_base)).*1)
             (default [] (stages lock_branch)).*1
    ∧ (∀ name, name ∉ (default [] (stages lock_branch)).*1 →
         Py.get merged name = Py.get (default [] (stages lock_base)) name)
    ∧ ∀ name data, (name, data) ∈ default [] (stages lock_branch) →
        ∃ data', Py.get merged name = Some data'
                 ∧ _get_output_hashes (list output) id data'
                   = _get_output_hashes (list output) id data.
Proof.
  apply (merge_locks_result id lock_base lock_branch).
  apply (bool_decide_unpack _). vm_compute. exact I.
Defined.

Example merge_scenario :
  merge_locks (list output) id unit lock_base lock_branch
  = ({| stages := Some [("prep", [out_file "data.csv" "111"]);
                        ("train", [out_file "model.bin" "333"]);
                        ("eval", [out_file "report.txt" "444"])];
        other := tt |},
     {| added := 1; updated := 1; skipped := 0 |}).
Proof. vm_compute. reflexivity. Qed.

(** X28. Merging the same branch a second time, into the lock that the
    first merge gave, changes nothing: every stage of the branch is
    skipped. *)
Theorem merge_locks_again {stage_data other_content : Type}
    (outs : stage_data → list output) (base_lock branch_lock : lock stage_data other_content) :
  NoDup (default [] (stages branch_lock)).*1 →
  merge_locks stage_data outs other_content
    (merge_locks stage_data outs other_content base_lock branch_lock).1 branch_lock
  = ((merge_locks stage_data outs other_content base_lock branch_lock).1,
     {| added := 0; updated := 0;
        skipped := length (default [] (stages branch_lock)) |}).
Proof.
  intros Hnd.
  destruct (foldl_merge_stage outs (default [] (stages branch_lock))
              (default [] (stages base_lock),
               {| added := 0; updated := 0; skipped := 0 |}) Hnd)
    as (_ & _ & _ & Htaken).
  unfold merge_locks at 1. cbn [stages other default fst snd merge_locks].
  rewrite foldl_merge_stage_again by done. done.
Qed.

Lemma merge_locks_again_witness :
  merge_locks (list output) id unit
    (merge_locks (list output) id unit lock_base lock_branch).1 lock_branch
  = ((merge_locks (list output) id unit lock_base lock_branch).1,
     {| added := 0; updated := 0; skipped := length (default [] (stages lock_branch)) |}).
Proof.
  apply (merge_locks_again id lock_base lock_branch).
  apply (bool_decide_unpack _). vm_compute. exact I.
Defined.
